(** * Bulk execution engine of agency: executors, flattening, shared state

    A shallow embedding of
    - [agency/cuda/grid_executor.hpp]: the CUDA grid executor, its
      shared-argument marshaling functors, [max_shape], and the
      [flattened_executor<cuda::grid_executor>] specialisation;
    - [testing/executor/executor_traits/executors.hpp]: the synchronous,
      asynchronous and continuation reference executors;
    - [agency/detail/algorithm/copy.hpp]: [detail::copy].

    [size_t] is taken to be 64 bits wide and [unsigned int] 32 bits wide;
    both are modelled in [N] with the wrap-around written out. *)

From Stdlib Require Import NArith ZArith Lia List Permutation.
From stdpp Require Import base numbers list.
Import ListNotations.

Local Open Scope N_scope.

(** * Part I: the programs *)

(** ** Machine integers *)

Module Machine.

Definition wrap64 (x : N) : N := x mod 2 ^ 64.
Definition wrap32 (x : N) : N := x mod 2 ^ 32.

(** [size_t] arithmetic. *)
Definition add64 (a b : N) : N := wrap64 (a + b).
Definition sub64 (a b : N) : N := wrap64 (a + (2 ^ 64 - wrap64 b)).

(** [unsigned int] arithmetic. *)
Definition add32 (a b : N) : N := wrap32 (a + b).
Definition mul32 (a b : N) : N := wrap32 (a * b).

(** The values [first, ..., last-1] in increasing order. *)
Definition range (first last : N) : list N :=
  (fun k => first + N.of_nat k) <$> seq 0 (N.to_nat (last - first)).

(** The values [0, 1, ..., n-1] in increasing order. *)
Definition indices (n : N) : list N := range 0 n.

End Machine.
Import Machine.

(** ** The flattening adapter over the grid executor
    ([flattened_executor<cuda::grid_executor>], grid_executor.hpp) *)

Module Flattened.

(** How a call that may hit [assert] or an integer division ends. *)
Inductive outcome (A : Type) : Type :=
| Returned (a : A)
| AssertionFailed
| DivisionByZero.
Arguments Returned {A} a.
Arguments AssertionFailed {A}.
Arguments DivisionByZero {A}.

(** [partition(f, shape)].  [max_shape] is the pair reported by
    [base_executor().max_shape(f)]; both components are [unsigned int].
    [shape] is a [size_t].  The quotient is computed in [size_t] and stored
    into an [unsigned int] ([outer_shape_type]) before the [assert]. *)
Definition partition (max_shape : N * N) (shape : N) : outcome (N * N) :=
  let inner_size := max_shape.2 in
  if inner_size =? 0 then DivisionByZero
  else
    let outer_size := wrap32 (sub64 (add64 shape inner_size) 1 / inner_size) in
    if outer_size <=? max_shape.1
    then Returned (outer_size, inner_size)
    else AssertionFailed.

(** Modelled from the spec: the kernel launch
    ([checked_launch_kernel_on_device], launch_kernel.hpp, is not among the
    sources): the outer extent becomes the block grid, the inner extent
    the threads of a block, and the function runs once per index of the
    shape.  [this_index_1d] yields [(blockIdx.x, threadIdx.x)], so these
    are the agents of one launch. *)
Definition grid_agents (shape : N * N) : list (N * N) :=
  indices shape.1 ≫= (fun b => (fun t => (b, t)) <$> indices shape.2).

(** [flattened_grid_executor_functor::operator()(idx)]: the flat indices
    on which [f_] is invoked by the agent [idx] (none or one).  The flat
    index is computed in [unsigned int] and compared with the [size_t]
    member [shape_]. *)
Definition flattened_grid_executor_functor
    (shape_ : N) (partitioning_ : N * N) (idx : N * N) : list N :=
  let flat_idx := add32 (mul32 idx.1 partitioning_.2) idx.2 in
  if flat_idx <? shape_ then [flat_idx] else [].

(** [grid_executor::bulk_async(g, shape)] runs [g] once per agent of the
    grid and the hardware picks the order: [order] is an order in which the
    agents of the launch may run. *)
Definition launch_order (shape : N * N) (order : list (N * N)) : Prop :=
  order ≡ₚ grid_agents shape.

(** The invocations of [f_] made by agents that run in the order [order]. *)
Definition kernel_trace (g : N * N -> list N) (order : list (N * N)) : list N :=
  order ≫= g.

(** [bulk_async(f, shape)] of the flattened executor, its agents run block
    after block and thread after thread. *)
Definition bulk_async (max_shape : N * N) (shape : N) : outcome (list N) :=
  match partition max_shape shape with
  | Returned partitioning =>
      Returned (kernel_trace (flattened_grid_executor_functor shape partitioning)
                             (grid_agents partitioning))
  | AssertionFailed => AssertionFailed
  | DivisionByZero => DivisionByZero
  end.

(** The mathematical quotient the partitioner aims at. *)
Definition ceil_div (n k : N) : N := (n + k - 1) / k.

(** The flattening property as the specification words it: the call goes
    through and, in whatever order the agents run, [f] is invoked on each
    of [0 .. n-1] once and on nothing else. *)
Definition flattening_property (max_shape : N * N) (n : N) : Prop :=
  exists partitioning,
    partition max_shape n = Returned partitioning /\
    forall order, launch_order partitioning order ->
      kernel_trace (flattened_grid_executor_functor n partitioning) order
        ≡ₚ indices n.

End Flattened.

(** ** The reference executors (executors.hpp) *)

Module Reference.

(** What an executor does that its caller can observe: calls of the two
    factories, invocations of the agent function, and (continuation
    executor) the moment the future of the task over [first, last) becomes
    ready. *)
Inductive call : Type :=
| ResultFactory (n : N)
| SharedFactory (n : N)
| Agent (i : N)
| Ready (first last : N).

(** A value together with the calls made while computing it. *)
Definition traced (A : Type) : Type := (A * list call)%type.

Definition ret {A : Type} (a : A) : traced A := (a, []).

Definition bind {A B : Type} (m : traced A) (k : A -> traced B) : traced B :=
  let (a, l1) := m in let (b, l2) := k a in (b, l1 ++ l2).

Local Notation "x <- m ;; k" := (bind m (fun x => k))
  (at level 100, m at next level, right associativity).

(** [std::future]: [get] is what the future resolves to. *)
Record future (A : Type) : Type := make_future { get : traced A }.
Arguments make_future {A} get.
Arguments get {A} _.

(** [std::async(std::launch::async, task)]. *)
Definition std_async {A : Type} (task : unit -> traced A) : future A :=
  make_future (task tt).

(** *** The fork-join of [bulk_continuation_executor] *)

(** The tasks a call spawns: [NoTask] stands for the future of
    [make_ready_future()] (nothing spawned on that side),
    [Task first last left_task mid right_task] for the task started by
    [async(f, first, last)], which invokes agent [mid] itself. *)
Inductive task : Type :=
| NoTask
| Task (first last : N) (left_task : task) (mid : N) (right_task : task).

(** One activation of the lambda of [async(f, first, last)]: the range it
    hands to a left task (if any), the agent it invokes, the range it hands
    to a right task (if any). *)
Definition async_body (first last : N) : option (N * N) * N * option (N * N) :=
  let mid := add64 last first / 2 in
  (if first <? mid then Some (first, mid) else None,
   mid,
   if add64 mid 1 <? last then Some (add64 mid 1, last) else None).

(** [async(f, first, last)], unfolded to the tree of tasks it starts.
    [fuel] bounds the depth of the recursion. *)
Fixpoint async (fuel : nat) (first last : N) : option task :=
  match fuel with
  | O => None
  | S fuel =>
      let '(l, mid, r) := async_body first last in
      let spawn side :=
        match side with
        | Some (a, b) => async fuel a b
        | None => Some NoTask
        end in
      match spawn l, spawn r with
      | Some left_task, Some right_task => Some (Task first last left_task mid right_task)
      | _, _ => None
      end
  end.

(** The lambda of [bulk_then_execute_impl] for [n > 0]. *)
Definition then_body (n : N) : option (N * N) * N * option (N * N) :=
  let mid := n / 2 in
  (if 0 <? mid then Some (0, mid) else None,
   mid,
   if add64 mid 1 <? n then Some (add64 mid 1, n) else None).

Definition fork_join (fuel : nat) (n : N) : option task :=
  let '(l, mid, r) := then_body n in
  let spawn side :=
    match side with
    | Some (a, b) => async fuel a b
    | None => Some NoTask
    end in
  match spawn l, spawn r with
  | Some left_task, Some right_task => Some (Task 0 n left_task mid right_task)
  | _, _ => None
  end.

(** [l] is a merge of [l1] and [l2] that keeps the order within each. *)
Inductive interleave {A : Type} : list A -> list A -> list A -> Prop :=
| interleave_nil : interleave [] [] []
| interleave_left x l1 l2 l :
    interleave l1 l2 l -> interleave (x :: l1) l2 (x :: l)
| interleave_right x l1 l2 l :
    interleave l1 l2 l -> interleave l1 (x :: l2) (x :: l).

(** The runs of a task: it starts its left and right tasks, which then run
    concurrently with each other and with its own invocation of [mid];
    after [left.wait()] and [right.wait()] it returns and its future is
    ready. *)
Inductive runs : task -> list call -> Prop :=
| runs_ready : runs NoTask []
| runs_task first last left_task mid right_task tl tr children body :
    runs left_task tl ->
    runs right_task tr ->
    interleave tl tr children ->
    interleave children [Agent mid] body ->
    runs (Task first last left_task mid right_task) (body ++ [Ready first last]).

(** Two runs that always exist: every spawned task finishes before its
    parent invokes its own agent; or every task invokes its own agent
    before any task it spawned starts. *)
Fixpoint eager (t : task) : list call :=
  match t with
  | NoTask => []
  | Task first last left_task mid right_task =>
      eager left_task ++ eager right_task ++ [Agent mid; Ready first last]
  end.


(** The agents a task and the tasks below it invoke, and the futures of
    all these tasks. *)
Fixpoint task_agents (t : task) : list N :=
  match t with
  | NoTask => []
  | Task _ _ left_task mid right_task => task_agents left_task ++ mid :: task_agents right_task
  end.

Fixpoint task_futures (t : task) : list call :=
  match t with
  | NoTask => []
  | Task first last left_task _ right_task =>
      Ready first last :: task_futures left_task ++ task_futures right_task
  end.

(** The futures of the tasks started below a task. *)
Definition spawned_futures (t : task) : list call :=
  match t with
  | NoTask => []
  | Task _ _ left_task _ right_task =>
      task_futures left_task ++ task_futures right_task
  end.

(** The fork-join the specification describes: a task exists for a range
    exactly when the range is not empty, it invokes the agent at the
    midpoint of its range, and its left and right tasks are the fork-joins
    of the ranges below and above the midpoint. *)
Fixpoint midpoint_split (first last : N) (t : task) : Prop :=
  match t with
  | NoTask => first = last
  | Task a b left_task mid right_task =>
      a = first /\ b = last /\ first < last /\ mid = (first + last) / 2 /\
      midpoint_split first mid left_task /\
      midpoint_split (mid + 1) last right_task
  end.

(** The agent invocations of a log, in the order they were made. *)
Definition agents_of (log : list call) : list N :=
  omap (fun c => match c with Agent i => Some i | _ => None end) log.

(** How often a log calls the result factory, and the shared factory. *)
Definition count_result_factory (log : list call) : nat :=
  length (List.filter (fun c => match c with ResultFactory _ => true | _ => false end) log).

Definition count_shared_factory (log : list call) : nat :=
  length (List.filter (fun c => match c with SharedFactory _ => true | _ => false end) log).

(** The state after the agent invocations of [log], made one after the
    other in that order, each taking the state to the next. *)
Definition after_calls {St : Type} (g : N -> St -> St) (log : list call) (st : St) : St :=
  fold_left (fun st i => g i st) (agents_of log) st.

Section Executors.

Context {R Sh : Type}.

(** [f(idx, result, shared)]: [result] and [shared] are passed by
    reference, so an invocation maps their old contents to the new. *)
Variable f : N -> R * Sh -> R * Sh.
Variable result_factory : N -> R.
Variable shared_factory : N -> Sh.

Definition call_result_factory (n : N) : traced R :=
  (result_factory n, [ResultFactory n]).

Definition call_shared_factory (n : N) : traced Sh :=
  (shared_factory n, [SharedFactory n]).

Definition call_f (i : N) (rs : R * Sh) : traced (R * Sh) :=
  (f i rs, [Agent i]).

(** [for(size_t i = 0; i < n; ++i) f(i, result, shared_parm);] from [i]
    on, with [count] iterations left ([i + 1] stays at or below [n], so it
    does not wrap). *)
Fixpoint for_loop (count : nat) (i : N) (rs : R * Sh) : traced (R * Sh) :=
  match count with
  | O => ret rs
  | S count => rs' <- call_f i rs ;; for_loop count (i + 1) rs'
  end.

(** [bulk_synchronous_executor::bulk_execute]. *)
Definition bulk_execute (n : N) : traced R :=
  result <- call_result_factory n ;;
  shared_parm <- call_shared_factory n ;;
  rs <- for_loop (N.to_nat n) 0 (result, shared_parm) ;;
  ret rs.1.

(** [bulk_asynchronous_executor::bulk_async_execute]. *)
Definition bulk_async_execute (n : N) : future R :=
  std_async (fun _ =>
    result <- call_result_factory n ;;
    shared_parm <- call_shared_factory n ;;
    rs <- for_loop (N.to_nat n) 0 (result, shared_parm) ;;
    ret rs.1).

(** [bulk_continuation_executor::bulk_then_execute] on a predecessor
    future that is already satisfied.  ([agency::detail::monadic_then] and
    [make_ready_future], of future.hpp, are not among the sources; as the
    specification has it, the first runs the lambda in a task once the
    predecessor is ready, the second makes a future that is ready.)  This
    is the overload for a future without a value, where the lambda [g]
    invokes [f(idx, result, shared_parameter)]:
    [bulk_then_execute n result log] says that the returned future may
    resolve to [result] after the calls [log], in a run in which no
    invocation of [f] overlaps another: each has its whole effect at its
    place in [log].  (The runs in which the tasks interleave the steps of
    their invocations are those of [bulk_then_execute_steps] below, and
    what has been called while the tasks are under way is
    [bulk_then_execute_log].) *)
Inductive bulk_then_execute (n : N) : R -> list call -> Prop :=
| then_tasks fuel t tr :
    0 < n ->
    fork_join fuel n = Some t ->
    runs t tr ->
    bulk_then_execute n
      (after_calls f tr (result_factory n, shared_factory n)).1
      (ResultFactory n :: SharedFactory n :: tr)
| then_nothing :
    n = 0 ->
    bulk_then_execute n (result_factory n) [ResultFactory n].

Section WithValue.

Context {P : Type}.

(** [f(idx, predecessor, result, shared)]: all three are passed by
    reference. *)
Variable fp : N -> P * (R * Sh) -> P * (R * Sh).

(** The overload for a future with the value [p], where the lambda [g]
    invokes [f(idx, predecessor, result, shared_parameter)]. *)
Inductive bulk_then_execute_value (p : P) (n : N) : R -> list call -> Prop :=
| value_tasks fuel t tr :
    0 < n ->
    fork_join fuel n = Some t ->
    runs t tr ->
    bulk_then_execute_value p n
      (after_calls fp tr (p, (result_factory n, shared_factory n))).2.1
      (ResultFactory n :: SharedFactory n :: tr)
| value_nothing :
    n = 0 ->
    bulk_then_execute_value p n (result_factory n) [ResultFactory n].

End WithValue.


End Executors.

(** The agent function of the specification's first testable property:
    [f(i, result) = (result[i] = i)] on a [std::vector]; the shared
    parameter is left alone.  (A write past the end of the vector is
    undefined in the source and does nothing here; the properties below
    are about vectors with room for the indices written.) *)
Definition store_index {Sh : Type} (i : N) (rs : list N * Sh) : list N * Sh :=
  (<[N.to_nat i := i]> rs.1, rs.2).

(** A result factory in the manner of [std::vector<T>(n)], and a shared
    factory without content. *)
Definition zeros (n : N) : list N := replicate (N.to_nat n) 0.

Definition no_shared (n : N) : unit := tt.

(** An agent function that records the order of its invocations
    ([result.push_back(i)]), and the factory of the empty record. *)
Definition push_index {Sh : Type} (i : N) (rs : list N * Sh) : list N * Sh :=
  (rs.1 ++ [i], rs.2).

Definition no_result (n : N) : list N := [].

(** What the specification asks of every bulk call: one call of each
    factory. *)
Definition factories_once_each (log : list call) : Prop :=
  count_result_factory log = 1%nat /\ count_shared_factory log = 1%nat.

(** How deep the tasks of a call nest: a task waits for the tasks it
    started, so this many threads are alive at once along one branch. *)
Fixpoint depth (t : task) : nat :=
  match t with
  | NoTask => 0
  | Task _ _ left_task _ right_task => S (Nat.max (depth left_task) (depth right_task))
  end.

(** The futures of a task and of the tasks below it, each after the
    futures of the tasks it waits for. *)
Fixpoint joins (t : task) : list call :=
  match t with
  | NoTask => []
  | Task first last left_task _ right_task =>
      joins left_task ++ joins right_task ++ [Ready first last]
  end.

(** *** Invocations that take more than one step *)

(** An invocation of the agent function as the steps it takes on the
    objects it is handed by reference ([result], [shared_parameter] and,
    in one overload, [predecessor]); [St] is their joint contents.  A step
    reads and updates them in one go, and what the invocation does next
    may depend on what it has read.  How fine the steps are is up to the
    function: a read of an object and a later write to it are two steps.
    An invocation returns; it does not throw. *)
Inductive invocation (St : Type) : Type :=
| Returns
| Atomic (update : St -> St) (next : St -> invocation St).
Arguments Returns {St}.
Arguments Atomic {St} update next.


(** What happens in the tasks of the continuation executor, one thing at
    a time: a call is made (of a factory or of the agent function) or a
    future becomes ready, as in a log of calls; or the invocation on the
    index [i], called before, takes its next step. *)
Inductive action : Type :=
| Call (c : call)
| Step (i : N).

Definition calls_of (s : list action) : list call :=
  omap (fun a => match a with Call c => Some c | Step _ => None end) s.



Section StepExecutors.

Context {R Sh : Type}.

Variable result_factory : N -> R.
Variable shared_factory : N -> Sh.



End StepExecutors.






(** A log of calls as a schedule in which every invocation is done in
    one step, taken right after the call. *)
Definition as_schedule (log : list call) : list action :=
  log ≫= (fun c => match c with
                   | Agent i => [Call (Agent i); Step i]
                   | _ => [Call c]
                   end).

(** *** The calls of the continuation executor up to some moment *)

(** The calls made so far by the task over a range, and by the tasks
    below it, at some moment of a run, and whether the task has returned:
    [task_log None] is for the future of [make_ready_future()], which is
    ready with nothing called.  A task that has not got anywhere has
    called nothing; one that is under way has started what its lambda
    starts (see [async_body]), each of these tasks being at some moment of
    its own, and has invoked its agent or not yet; one that has returned
    has invoked its agent and has seen both tasks return. *)
Inductive task_log : option (N * N) -> list call -> bool -> Prop :=
| log_no_task : task_log None [] true
| log_not_started first last : task_log (Some (first, last)) [] false
| log_under_way first last tl tr left_returned right_returned children own body :
    task_log (async_body first last).1.1 tl left_returned ->
    task_log (async_body first last).2 tr right_returned ->
    interleave tl tr children ->
    own = [] \/ own = [Agent (async_body first last).1.2] ->
    interleave children own body ->
    task_log (Some (first, last)) body false
| log_returned first last tl tr children body :
    task_log (async_body first last).1.1 tl true ->
    task_log (async_body first last).2 tr true ->
    interleave tl tr children ->
    interleave children [Agent (async_body first last).1.2] body ->
    task_log (Some (first, last)) (body ++ [Ready first last]) true.

(** The same for the lambda of [bulk_then_execute_impl] from the point
    where it has called the two factories (see [then_body]). *)
Inductive then_log (n : N) : list call -> bool -> Prop :=
| then_under_way tl tr left_returned right_returned children own body :
    task_log (then_body n).1.1 tl left_returned ->
    task_log (then_body n).2 tr right_returned ->
    interleave tl tr children ->
    own = [] \/ own = [Agent (then_body n).1.2] ->
    interleave children own body ->
    then_log n body false
| then_returned tl tr children body :
    task_log (then_body n).1.1 tl true ->
    task_log (then_body n).2 tr true ->
    interleave tl tr children ->
    interleave children [Agent (then_body n).1.2] body ->
    then_log n (body ++ [Ready 0 n]) true.

(** [bulk_then_execute] (either overload) on a satisfied predecessor:
    [bulk_then_execute_log n log ready] says that [log] is what has been
    called at some moment after the call of [bulk_then_execute], and
    [ready] whether the returned future is ready then.  For [n > 0] the
    lambda runs in a task of its own: it may not have got anywhere, it
    may have called the result factory only, or it has called both
    factories and is somewhere in the rest of its body.  Every call of
    [std::async] is taken to start its task.  The tasks need not ever
    return: this has logs for every [n]. *)
Inductive bulk_then_execute_log (n : N) : list call -> bool -> Prop :=
| log_lambda_not_started :
    0 < n ->
    bulk_then_execute_log n [] false
| log_result_made :
    0 < n ->
    bulk_then_execute_log n [ResultFactory n] false
| log_tasks tr ready :
    0 < n ->
    then_log n tr ready ->
    bulk_then_execute_log n (ResultFactory n :: SharedFactory n :: tr) ready
| log_nothing :
    n = 0 ->
    bulk_then_execute_log n [ResultFactory n] true.

End Reference.

(** ** The grid executor (grid_executor.hpp) *)

Module Grid.

(** A shared argument: the sentinel [agency::detail::ignore] or a value. *)
Inductive shared_arg (T : Type) : Type :=
| ignore
| shared (v : T).
Arguments ignore {T}.
Arguments shared {T} v.

Section Marshaling.

Context {T1 T2 : Type}.

(** The function objects a kernel is launched with: the caller's [f], or
    [f] wrapped in one of the three [function_with_shared_arguments]. *)
Inductive functor : Type :=
| plain
| with_both (outer_ptr : T1) (inner_shared_init : T2)
| with_inner (inner_shared_init : T2)
| with_outer (outer_ptr : T1).

(** What an agent does, one step at a time.  [ConstructInner init] and
    [DestroyInner] are [inner_param.construct(init)] and
    [inner_param.destroy()] on the [__shared__] storage of the block,
    [Syncthreads] is [__syncthreads()].  [Invoke idx None] is [f(idx)];
    [Invoke idx (Some (o, i))] is [f_(idx, shared_params)], where [o] and
    [i] tell whether the outer and the inner element of [shared_params]
    refer to a shared object ([true]) or to an [ignore_t]. *)
Inductive instr : Type :=
| ConstructInner (init : T2)
| Syncthreads
| Invoke (idx : N * N) (shared_params : option (bool * bool))
| DestroyInner.

(** [if(idx[1] == 0) inner_param.construct(inner_shared_init_);] and
    [if(idx[1] == 0) inner_param.destroy();] *)
Definition construct_step (init : T2) (idx : N * N) : list instr :=
  if idx.2 =? 0 then [ConstructInner init] else [].

Definition destroy_step (idx : N * N) : list instr :=
  if idx.2 =? 0 then [DestroyInner] else [].

(** The body shared by the two function objects that marshal an inner
    shared parameter; [o] tells whether there is an outer one as well. *)
Definition marshal (init : T2) (o : bool) (idx : N * N) : list instr :=
  construct_step init idx
  ++ [Syncthreads; Invoke idx (Some (o, true)); Syncthreads]
  ++ destroy_step idx.

(** [operator()(idx)] of the function object, as the list of steps the
    agent [idx] takes. *)
Definition call_operator (g : functor) (idx : N * N) : list instr :=
  match g with
  | plain => [Invoke idx None]
  | with_both _ init => marshal init true idx
  | with_inner init => marshal init false idx
  | with_outer _ => [Invoke idx (Some (true, false))]
  end.

(** The initial value of the inner shared parameter a function object
    marshals, and whether it passes an outer one too. *)
Definition marshals_inner (g : functor) : option (T2 * bool) :=
  match g with
  | with_both _ init => Some (init, true)
  | with_inner init => Some (init, false)
  | _ => None
  end.

(** What the host does in a bulk call. *)
Inductive host_action : Type :=
| MakeUniqueOuter (v : T1)
| ReleaseOuter
| DeleteOuter
| Launch (g : functor) (shape : N * N)
| AddCallback
| Wait.

(** [bulk_async(f, shape)]: launch, then register the completion callback. *)
Definition bulk_async (g : functor) (shape : N * N) : list host_action :=
  [Launch g shape; AddCallback].

(** [bulk_invoke(f, shape)] on the host: [bulk_async(f, shape).wait()]. *)
Definition bulk_invoke (g : functor) (shape : N * N) : list host_action :=
  bulk_async g shape ++ [Wait].

(** The four overloads of [bulk_async_with_shared_args]. *)
Definition bulk_async_with_shared_args
    (shape : N * N) (outer_shared_arg : shared_arg T1) (inner_shared_arg : shared_arg T2)
    : list host_action :=
  match outer_shared_arg, inner_shared_arg with
  | shared o, shared i =>
      [MakeUniqueOuter o; ReleaseOuter] ++ bulk_async (with_both o i) shape
  | ignore, shared i => bulk_async (with_inner i) shape
  | shared o, ignore =>
      [MakeUniqueOuter o; ReleaseOuter] ++ bulk_async (with_outer o) shape
  | ignore, ignore => bulk_async plain shape
  end.

(** The four overloads of [bulk_invoke_with_shared_args]; the
    [unique_ptr] keeps the outer object and deletes it on return. *)
Definition bulk_invoke_with_shared_args
    (shape : N * N) (outer_shared_arg : shared_arg T1) (inner_shared_arg : shared_arg T2)
    : list host_action :=
  match outer_shared_arg, inner_shared_arg with
  | shared o, shared i =>
      [MakeUniqueOuter o] ++ bulk_invoke (with_both o i) shape ++ [DeleteOuter]
  | ignore, shared i => bulk_invoke (with_inner i) shape
  | shared o, ignore =>
      [MakeUniqueOuter o] ++ bulk_invoke (with_outer o) shape ++ [DeleteOuter]
  | ignore, ignore => bulk_invoke plain shape
  end.

(** [bulk_async(f, shape, shared_arg_tuple)] and
    [bulk_invoke(f, shape, shared_arg_tuple)]. *)
Definition bulk_async_shared
    (shape : N * N) (shared_arg_tuple : shared_arg T1 * shared_arg T2) : list host_action :=
  let outer_shared_arg := shared_arg_tuple.1 in
  let inner_shared_arg := shared_arg_tuple.2 in
  bulk_async_with_shared_args shape outer_shared_arg inner_shared_arg.

Definition bulk_invoke_shared
    (shape : N * N) (shared_arg_tuple : shared_arg T1 * shared_arg T2) : list host_action :=
  let outer_shared_arg := shared_arg_tuple.1 in
  let inner_shared_arg := shared_arg_tuple.2 in
  bulk_invoke_with_shared_args shape outer_shared_arg inner_shared_arg.

(** The kernels a bulk call launches, each with its shape. *)
Definition launches (host : list host_action) : list (functor * (N * N)) :=
  omap (fun a => match a with Launch g shape => Some (g, shape) | _ => None end) host.

Definition is_sync (i : instr) : bool :=
  match i with Syncthreads => true | _ => false end.

(** *** One block of agents with its barrier *)

(** The state of a block is the list of its threads, each with the steps
    it has still to take.  The block [b] of [m] threads at the start of the
    kernel: *)
Definition block (g : functor) (b : N) (m : nat) : list (list instr) :=
  (fun t => call_operator g (b, N.of_nat t)) <$> seq 0 m.

(** What is observed of a block: thread [t] completed a step that is no
    barrier, or all threads left the barrier they were waiting at. *)
Inductive event : Type :=
| Did (t : nat) (i : instr)
| Released.

(** The scheduler's moves. *)
Inductive choice : Type :=
| RunThread (t : nat)
| ReleaseBarrier.

Definition at_barrier (p : list instr) : bool :=
  match p with
  | Syncthreads :: _ => true
  | _ => false
  end.

Definition is_done (p : list instr) : bool :=
  match p with
  | [] => true
  | _ => false
  end.

Definition no_threads (ts : list (list instr)) : bool :=
  match ts with
  | [] => true
  | _ => false
  end.

(** One move.  A thread at [__syncthreads()] cannot run; the barrier
    releases only when every thread of the block waits at it. *)
Definition step (c : choice) (ts : list (list instr)) : option (list (list instr) * event) :=
  match c with
  | RunThread t =>
      match ts !! t with
      | Some (i :: rest) =>
          if is_sync i then None else Some (<[t := rest]> ts, Did t i)
      | _ => None
      end
  | ReleaseBarrier =>
      if forallb at_barrier ts && negb (no_threads ts)
      then Some (tail <$> ts, Released)
      else None
  end.

Fixpoint run (sched : list choice) (ts : list (list instr)) : option (list (list instr) * list event) :=
  match sched with
  | [] => Some (ts, [])
  | c :: sched =>
      match step c ts with
      | None => None
      | Some (ts', e) =>
          match run sched ts' with
          | None => None
          | Some (ts'', es) => Some (ts'', e :: es)
          end
      end
  end.

Definition finished (ts : list (list instr)) : bool := forallb is_done ts.

(** The schedule that runs the threads in the order of their index. *)
Definition in_order (m : nat) : list choice :=
  [RunThread 0; ReleaseBarrier] ++ (RunThread <$> seq 0 m)
  ++ [ReleaseBarrier; RunThread 0].

(** The three stretches of a block that marshals an inner shared
    parameter: what each thread [t] has left to do before the first
    barrier releases, between the two barriers, and after the second. *)
Section Stretches.

Variables (init : T2) (o : bool) (b : N).

Definition use (t : nat) : instr := Invoke (b, N.of_nat t) (Some (o, true)).

Definition before_first_barrier (ts : list (list instr)) : Prop :=
  forall t p, ts !! t = Some p ->
    p = marshal init o (b, N.of_nat t) \/
    p = [Syncthreads; use t; Syncthreads] ++ destroy_step (b, N.of_nat t).

Definition between_barriers (ts : list (list instr)) : Prop :=
  forall t p, ts !! t = Some p ->
    p = [use t; Syncthreads] ++ destroy_step (b, N.of_nat t) \/
    p = Syncthreads :: destroy_step (b, N.of_nat t).

Definition after_second_barrier (ts : list (list instr)) : Prop :=
  forall t p, ts !! t = Some p ->
    p = destroy_step (b, N.of_nat t) \/ p = [].

End Stretches.

End Marshaling.

Arguments functor : clear implicits.
Arguments instr : clear implicits.
Arguments host_action : clear implicits.
Arguments event : clear implicits.

(** *** [grid_executor::max_shape] (host code, CUDA runtime present) *)

Inductive cudaError : Type :=
| cudaSuccess
| cudaErrorInvalidValue
| cudaErrorInvalidDevice
| cudaErrorInvalidDeviceFunction
| cudaErrorNotSupported.

Inductive operation : Type :=
| op_cudaGetDevice
| op_cudaSetDevice
| op_cudaDeviceGetAttribute
| op_cudaFuncGetAttributes.

(** The exception of [throw_on_error]. *)
Record system_error : Type := make_error { what : operation; code : cudaError }.

(** What the CUDA runtime answers to the calls [max_shape] makes: a status
    for each call, and the values it reports. *)
Record runtime : Type := make_runtime {
  get_device_status : cudaError;
  set_device_status : Z -> cudaError;
  max_block_dim_x : cudaError * Z;
  max_threads_per_block : cudaError * Z
}.

(** Host code over the active device: it ends with an exception or a
    value, and leaves a device active. *)
Definition cuda (A : Type) : Type := Z -> (system_error + A) * Z.

Definition cuda_ret {A : Type} (a : A) : cuda A := fun dev => (inr a, dev).

Definition cuda_bind {A B : Type} (m : cuda A) (k : A -> cuda B) : cuda B :=
  fun dev =>
    match m dev with
    | (inl e, dev') => (inl e, dev')
    | (inr a, dev') => k a dev'
    end.

Local Notation "x <- m ;; k" := (cuda_bind m (fun x => k))
  (at level 100, m at next level, right associativity).

Definition is_success (e : cudaError) : bool :=
  match e with cudaSuccess => true | _ => false end.

(** Modelled from the spec: [detail::throw_on_error] (terminate.hpp is not
    among the sources); a runtime failure is surfaced as an exception
    carrying the failing operation's name and the runtime's status code. *)
Definition throw_on_error (e : cudaError) (op : operation) : cuda unit :=
  fun dev => if is_success e then (inr tt, dev) else (inl (make_error op e), dev).

(** [cudaGetDevice(&current_device)] with [current_device] initialised to
    [0]: the status and the new value of [current_device]. *)
Definition cudaGetDevice (rt : runtime) : cuda (cudaError * Z) :=
  fun dev =>
    if is_success (get_device_status rt)
    then (inr (cudaSuccess, dev), dev)
    else (inr (get_device_status rt, 0%Z), dev).

(** [cudaSetDevice(d)]: on success [d] becomes the active device. *)
Definition cudaSetDevice (rt : runtime) (d : Z) : cuda cudaError :=
  fun dev =>
    if is_success (set_device_status rt d)
    then (inr cudaSuccess, d)
    else (inr (set_device_status rt d), dev).

Definition cudaDeviceGetAttribute (rt : runtime) : cuda (cudaError * Z) :=
  cuda_ret (if is_success (max_block_dim_x rt).1 then max_block_dim_x rt
            else ((max_block_dim_x rt).1, 0%Z)).

Definition cudaFuncGetAttributes (rt : runtime) : cuda (cudaError * Z) :=
  cuda_ret (if is_success (max_threads_per_block rt).1 then max_threads_per_block rt
            else ((max_threads_per_block rt).1, 0%Z)).

(** [static_cast<unsigned int>] of an [int]. *)
Definition to_unsigned (v : Z) : N := Z.to_N (v mod 2 ^ 32).

(** [grid_executor::max_shape(f)] for the executor of the device [gpu]. *)
Definition max_shape (rt : runtime) (gpu : Z) : cuda (N * N) :=
  got <- cudaGetDevice rt ;;
  let current_device := got.2 in
  _ <- throw_on_error got.1 op_cudaGetDevice ;;
  _ <- (if (current_device =? gpu)%Z then cuda_ret tt
        else status <- cudaSetDevice rt gpu ;;
             throw_on_error status op_cudaSetDevice) ;;
  dim <- cudaDeviceGetAttribute rt ;;
  let max_block_dimension_x := dim.2 in
  _ <- throw_on_error dim.1 op_cudaDeviceGetAttribute ;;
  attr <- cudaFuncGetAttributes rt ;;
  _ <- throw_on_error attr.1 op_cudaFuncGetAttributes ;;
  _ <- (if (current_device =? gpu)%Z then cuda_ret tt
        else status <- cudaSetDevice rt current_device ;;
             throw_on_error status op_cudaSetDevice) ;;
  cuda_ret (to_unsigned max_block_dimension_x, to_unsigned attr.2).

(** A runtime that serves every call but the device attribute query, and
    one that serves every call but the function attribute query. *)
Definition failing_attribute_query : runtime :=
  make_runtime cudaSuccess (fun _ => cudaSuccess)
               (cudaErrorInvalidValue, 0%Z) (cudaSuccess, 1024%Z).

Definition failing_function_query : runtime :=
  make_runtime cudaSuccess (fun _ => cudaSuccess)
               (cudaSuccess, 1024%Z) (cudaErrorInvalidDeviceFunction, 0%Z).

(** A runtime that serves every call. *)
Definition healthy : runtime :=
  make_runtime cudaSuccess (fun _ => cudaSuccess)
               (cudaSuccess, 1024%Z) (cudaSuccess, 1024%Z).

(** *** [grid_executor::max_shape] with the calls it makes *)

(** A call to the CUDA runtime, with the device it names. *)
Inductive runtime_call : Type :=
| call_cudaGetDevice
| call_cudaSetDevice (d : Z)
| call_cudaDeviceGetAttribute (d : Z)
| call_cudaFuncGetAttributes.

(** Host code that also keeps the calls it has made to the runtime, in
    the order it made them; what was called before an exception stays. *)
Definition cuda_logged (A : Type) : Type := Z -> (system_error + A) * Z * list runtime_call.

Definition logged_bind {A B : Type} (m : cuda_logged A) (k : A -> cuda_logged B)
    : cuda_logged B :=
  fun dev =>
    match m dev with
    | (inl e, dev', calls) => (inl e, dev', calls)
    | (inr a, dev', calls) =>
        let '(r, dev'', calls') := k a dev' in (r, dev'', calls ++ calls')
    end.

(** A call to the runtime, and host code that makes none. *)
Definition runtime_does {A : Type} (c : runtime_call) (m : cuda A) : cuda_logged A :=
  fun dev => (m dev, [c]).

Definition no_call {A : Type} (m : cuda A) : cuda_logged A :=
  fun dev => (m dev, []).

Local Notation "x <~ m ;; k" := (logged_bind m (fun x => k))
  (at level 100, m at next level, right associativity).

(** [grid_executor::max_shape(f)] for the executor of the device [gpu],
    statement by statement as [max_shape] above. *)
Definition max_shape_logged (rt : runtime) (gpu : Z) : cuda_logged (N * N) :=
  got <~ runtime_does call_cudaGetDevice (cudaGetDevice rt) ;;
  let current_device := got.2 in
  _ <~ no_call (throw_on_error got.1 op_cudaGetDevice) ;;
  _ <~ (if (current_device =? gpu)%Z then no_call (cuda_ret tt)
        else status <~ runtime_does (call_cudaSetDevice gpu) (cudaSetDevice rt gpu) ;;
             no_call (throw_on_error status op_cudaSetDevice)) ;;
  dim <~ runtime_does (call_cudaDeviceGetAttribute gpu) (cudaDeviceGetAttribute rt) ;;
  let max_block_dimension_x := dim.2 in
  _ <~ no_call (throw_on_error dim.1 op_cudaDeviceGetAttribute) ;;
  attr <~ runtime_does call_cudaFuncGetAttributes (cudaFuncGetAttributes rt) ;;
  _ <~ no_call (throw_on_error attr.1 op_cudaFuncGetAttributes) ;;
  _ <~ (if (current_device =? gpu)%Z then no_call (cuda_ret tt)
        else status <~ runtime_does (call_cudaSetDevice current_device)
                         (cudaSetDevice rt current_device) ;;
             no_call (throw_on_error status op_cudaSetDevice)) ;;
  no_call (cuda_ret (to_unsigned max_block_dimension_x, to_unsigned attr.2)).

(** The states a block that marshals an inner shared parameter passes
    through: each lies in one of the three stretches. *)
Definition marshaling {T2 : Type} (init : T2) (o : bool) (b : N)
    (ts : list (list (instr T2))) : Prop :=
  before_first_barrier init o b ts \/ between_barriers o b ts \/
  after_second_barrier b ts.

End Grid.

(** ** [detail::copy] (copy.hpp) *)

Module Copy.

Local Open Scope Z_scope.

(** The two kinds of policy the overloads of [copy] tell apart. *)
Inductive policy : Type :=
| sequenced_policy
| parallel_policy.

Section Copy.

Context {V : Type}.

(** Iterators are positions in one address space. *)
Definition memory : Type := Z -> V.

Definition store (mem : memory) (p : Z) (v : V) : memory :=
  fun q => if (q =? p)%Z then v else mem q.

(** [copy_functor::operator()] of the agent of rank [i]:
    [result[i] = first[i]]. *)
Definition copy_functor (i : Z) (first result : Z) (mem : memory) : memory :=
  store mem (result + i) (mem (first + i)).

(** Modelled from the spec: [agency::bulk_invoke(policy(n), g, ...)]
    (bulk_invoke.hpp is not among the sources) executes [g] once per agent
    of [policy(n)]; the agents run in the order [order], a rearrangement of
    the ranks [0 .. n-1]. *)
Definition bulk_invoke (order : list Z) (g : Z -> memory -> memory) (mem : memory) : memory :=
  fold_left (fun m i => g i m) order mem.

Definition ranks (n : Z) : list Z := seqZ 0 n.

(** The overload for a policy that is not sequenced and random access
    iterators. *)
Definition copy_random_access
    (order : list Z) (first last result : Z) (mem : memory) : memory * Z :=
  let n := (last - first)%Z in
  let mem' := bulk_invoke order (fun i => copy_functor i first result) mem in
  (mem', (last + n)%Z).

(** [for(; first != last; ++first, ++result) *result = *first;] with
    [count] iterations left. *)
Fixpoint copy_loop (count : nat) (first result : Z) (mem : memory) : memory * Z :=
  match count with
  | O => (mem, result)
  | S count => copy_loop count (first + 1)%Z (result + 1)%Z (store mem result (mem first))
  end.

(** The overload for a sequenced policy, on a valid range
    ([first <= last]). *)
Definition copy_sequenced (first last result : Z) (mem : memory) : memory * Z :=
  copy_loop (Z.to_nat (last - first)) first result mem.

(** [detail::copy(policy, first, last, result)] on random access
    iterators. *)
Definition copy (p : policy) (order : list Z) (first last result : Z) (mem : memory)
    : memory * Z :=
  match p with
  | sequenced_policy => copy_sequenced first last result mem
  | parallel_policy => copy_random_access order first last result mem
  end.

(** [detail::copy(first, last, result)]: the overload without a policy
    makes a [sequenced_execution_policy] of its own and calls
    [detail::copy(seq, first, last, result)]; no agents take part. *)
Definition copy_without_policy (first last result : Z) (mem : memory) : memory * Z :=
  copy sequenced_policy [] first last result mem.

End Copy.

End Copy.

(** ** The flattening adapter called with a shared argument
    ([flattened_executor<cuda::grid_executor>], grid_executor.hpp) *)

Module FlattenedShared.

Section Shared.

Context {T I : Type}.

(** [flattened_grid_executor_functor::operator()(idx, shared_params)]:
    the invocations [f_(flat_idx, get<0>(shared_params))] made by the
    agent [idx] (none or one), each with the flat index and the object it
    is handed. *)
Definition flattened_grid_executor_functor
    (shape_ : N) (partitioning_ : N * N) (idx : N * N) (shared_params : T * I)
    : list (N * T) :=
  let flat_idx := add32 (mul32 idx.1 partitioning_.2) idx.2 in
  if flat_idx <? shape_ then [(flat_idx, shared_params.1)] else [].

(** [bulk_async(f, shape, shared_arg)] of the flattened executor: the
    partition, then [base_executor().bulk_async(execute_me, partitioning,
    shared_init)] with [shared_init = make_tuple(shared_arg, ignore)];
    what the host does in that call. *)
Definition bulk_async
    (max_shape : N * N) (shape : N) (shared_arg : Grid.shared_arg T)
    : Flattened.outcome (list (Grid.host_action T I)) :=
  match Flattened.partition max_shape shape with
  | Flattened.Returned partitioning =>
      let shared_init := (shared_arg, Grid.ignore) in
      Flattened.Returned (Grid.bulk_async_shared partitioning shared_init)
  | Flattened.AssertionFailed => Flattened.AssertionFailed
  | Flattened.DivisionByZero => Flattened.DivisionByZero
  end.

(** The agent [idx] of a kernel launched with the function object [g]
    around the functor above ([f_] of [g] is [execute_me]): the steps of
    [g]'s [operator()(idx)], and at the step [f_(idx, shared_params)] the
    invocations of the user's [f] that the functor makes.  [bulk_async]
    hands [ignore] over for the inner parameter, so [g] is the function
    object that marshals an outer parameter only: there [shared_params]
    ties [*outer_ptr_] to the local [ignore], for which [ig] stands. *)
Definition agent (shape_ : N) (partitioning_ : N * N) (ig : I)
    (g : Grid.functor T I) (idx : N * N) : list (N * T) :=
  Grid.call_operator g idx ≫= (fun i =>
    match i, g with
    | Grid.Invoke idx' (Some (true, false)), Grid.with_outer outer_ptr =>
        flattened_grid_executor_functor shape_ partitioning_ idx' (outer_ptr, ig)
    | _, _ => []
    end).

(** The invocations of [f] by the kernels the host launches, the agents
    of a kernel running in the order [order]. *)
Definition kernel_invocations (shape_ : N) (ig : I) (order : list (N * N))
    (host : list (Grid.host_action T I)) : list (N * T) :=
  Grid.launches host ≫= (fun launch => order ≫= agent shape_ launch.2 ig launch.1).

End Shared.

End FlattenedShared.

(** * Part II: properties *)

(** ** Machine integers *)

Lemma wrap64_small x : x < 2 ^ 64 -> wrap64 x = x.
Proof. intros H. unfold wrap64. now apply N.mod_small. Qed.

Lemma wrap32_small x : x < 2 ^ 32 -> wrap32 x = x.
Proof. intros H. unfold wrap32. now apply N.mod_small. Qed.

Lemma add64_small a b : a + b < 2 ^ 64 -> add64 a b = a + b.
Proof. apply wrap64_small. Qed.

Lemma sub64_add64_one n k :
  0 < k -> n + k - 1 < 2 ^ 64 -> sub64 (add64 n k) 1 = n + k - 1.
Proof.
  intros Hk Hlt. unfold sub64.
  rewrite (wrap64_small 1) by (vm_compute; reflexivity).
  destruct (N.eq_dec (n + k) (2 ^ 64)) as [Heq|Hne].
  - unfold add64, wrap64. rewrite Heq, N.Div0.mod_same. simpl (0 + _).
    rewrite N.mod_small; lia.
  - rewrite add64_small by lia. unfold wrap64.
    replace (n + k + (2 ^ 64 - 1)) with ((n + k - 1) + 1 * 2 ^ 64) by lia.
    rewrite N.Div0.mod_add. apply N.mod_small. lia.
Qed.

Lemma elem_of_range a b x : x ∈ range a b <-> a <= x < b.
Proof.
  unfold range. rewrite list_elem_of_fmap. split.
  - intros (k & -> & Hk). apply elem_of_seq in Hk. lia.
  - intros H. exists (N.to_nat (x - a)). split; [lia|]. apply elem_of_seq. lia.
Qed.

Lemma NoDup_range a b : NoDup (range a b).
Proof.
  unfold range. apply NoDup_fmap_2_strong; [|apply NoDup_seq].
  intros x y _ _ H. lia.
Qed.

Lemma elem_of_indices n x : x ∈ indices n <-> x < n.
Proof. unfold indices. rewrite elem_of_range. lia. Qed.

Lemma NoDup_indices n : NoDup (indices n).
Proof. apply NoDup_range. Qed.

Lemma length_indices n : length (indices n) = N.to_nat n.
Proof. unfold indices, range. rewrite length_fmap, length_seq. lia. Qed.

(** ** The flattening adapter *)

Import Flattened.

Lemma ceil_div_covers n k : 0 < k -> n <= ceil_div n k * k.
Proof.
  intros Hk. unfold ceil_div.
  pose proof (N.Div0.div_mod (n + k - 1) k) as Hdm.
  assert (Hub : (n + k - 1) mod k < k) by (apply N.mod_upper_bound; lia).
  revert Hdm Hub. generalize ((n + k - 1) / k) ((n + k - 1) mod k).
  intros q r Hdm Hub. nia.
Qed.

Lemma ceil_div_tight n k : 0 < k -> 0 < n -> (ceil_div n k - 1) * k < n.
Proof.
  intros Hk Hn. unfold ceil_div.
  pose proof (N.Div0.div_mod (n + k - 1) k) as Hdm.
  revert Hdm. generalize ((n + k - 1) / k) ((n + k - 1) mod k).
  intros q r Hdm. nia.
Qed.

(** Without wrap-around the partitioner computes the rounded-up quotient
    and asserts on it. *)
Lemma partition_exact ms n :
  0 < ms.2 -> n + ms.2 - 1 < 2 ^ 64 -> ceil_div n ms.2 < 2 ^ 32 ->
  partition ms n =
    if ceil_div n ms.2 <=? ms.1 then Returned (ceil_div n ms.2, ms.2)
    else AssertionFailed.
Proof.
  intros Hk H64 H32. unfold partition.
  destruct (N.eqb_spec ms.2 0) as [Hz|_]; [lia|].
  rewrite sub64_add64_one by assumption.
  fold (ceil_div n ms.2). now rewrite wrap32_small.
Qed.

Lemma elem_of_grid_agents shape idx :
  idx ∈ grid_agents shape <-> idx.1 < shape.1 /\ idx.2 < shape.2.
Proof.
  unfold grid_agents. rewrite list_elem_of_bind. split.
  - intros (b & Hin & Hb). apply list_elem_of_fmap in Hin as (t & -> & Ht).
    apply elem_of_indices in Hb, Ht. simpl. lia.
  - intros [Hb Ht]. exists idx.1. split.
    + apply list_elem_of_fmap. exists idx.2. split; [now destruct idx|].
      now apply elem_of_indices.
    + now apply elem_of_indices.
Qed.

Lemma NoDup_grid_agents shape : NoDup (grid_agents shape).
Proof.
  unfold grid_agents. apply NoDup_bind.
  - intros b1 b2 idx _ _ H1 H2.
    apply list_elem_of_fmap in H1 as (t1 & -> & _).
    apply list_elem_of_fmap in H2 as (t2 & Heq & _). congruence.
  - intros b _. apply NoDup_fmap_2_strong; [|apply NoDup_indices].
    intros t1 t2 _ _ H. congruence.
  - apply NoDup_indices.
Qed.

Lemma NoDup_bind_inj {A B : Type} (f : A -> list B) (l : list A) (x y : A) (z : B) :
  NoDup (l ≫= f) -> x ∈ l -> y ∈ l -> z ∈ f x -> z ∈ f y -> x = y.
Proof.
  induction l as [|a l IH]; intros Hnodup Hx Hy Hzx Hzy.
  - now apply elem_of_nil in Hx.
  - rewrite bind_cons in Hnodup. apply NoDup_app in Hnodup as (_ & Hdisj & Hrest).
    apply elem_of_cons in Hx as [->|Hx], Hy as [->|Hy].
    + reflexivity.
    + exfalso. apply (Hdisj z Hzx). apply list_elem_of_bind. eauto.
    + exfalso. apply (Hdisj z Hzy). apply list_elem_of_bind. eauto.
    + now apply IH.
Qed.

Lemma kernel_trace_NoDup_inj (g : N * N -> list N) (order : list (N * N))
    (x y : N * N) (z : N) :
  NoDup (kernel_trace g order) -> x ∈ order -> y ∈ order ->
  z ∈ g x -> z ∈ g y -> x = y.
Proof. unfold kernel_trace. apply NoDup_bind_inj. Qed.

(** Inside a grid of at most [2 ^ 32] agents the flat index does not wrap. *)
Lemma functor_no_wrap n shape idx :
  shape.1 * shape.2 <= 2 ^ 32 -> idx.1 < shape.1 -> idx.2 < shape.2 ->
  flattened_grid_executor_functor n shape idx =
    if idx.1 * shape.2 + idx.2 <? n then [idx.1 * shape.2 + idx.2] else [].
Proof.
  intros Hgrid Hb Ht. unfold flattened_grid_executor_functor, add32, mul32.
  assert (idx.1 * shape.2 + idx.2 < 2 ^ 32) by nia.
  rewrite (wrap32_small (idx.1 * shape.2)) by nia.
  now rewrite wrap32_small.
Qed.

Lemma kernel_trace_exact n shape order :
  0 < shape.2 -> shape.1 * shape.2 <= 2 ^ 32 -> n <= shape.1 * shape.2 ->
  launch_order shape order ->
  kernel_trace (flattened_grid_executor_functor n shape) order ≡ₚ indices n.
Proof.
  intros Hk Hgrid Hcover Horder. unfold launch_order in Horder.
  unfold kernel_trace. rewrite Horder.
  apply NoDup_Permutation.
  - apply NoDup_bind; [| |apply NoDup_grid_agents].
    + intros [b1 t1] [b2 t2] x H1 H2.
      apply elem_of_grid_agents in H1 as [Hb1 Ht1], H2 as [Hb2 Ht2]. simpl in *.
      rewrite !functor_no_wrap by assumption. simpl.
      destruct (N.ltb_spec (b1 * shape.2 + t1) n);
        destruct (N.ltb_spec (b2 * shape.2 + t2) n);
        rewrite ?list_elem_of_singleton, ?elem_of_nil; try tauto.
      intros -> Heq.
      assert (b1 = b2) by nia. subst b2. f_equal. lia.
    + intros idx Hin. apply elem_of_grid_agents in Hin as [Hb Ht].
      rewrite functor_no_wrap by assumption.
      destruct (_ <? _); [apply NoDup_singleton|apply NoDup_nil_2].
  - apply NoDup_indices.
  - intros x. rewrite list_elem_of_bind, elem_of_indices. split.
    + intros (idx & Hx & Hin). apply elem_of_grid_agents in Hin as [Hb Ht].
      rewrite functor_no_wrap in Hx by assumption.
      destruct (N.ltb_spec (idx.1 * shape.2 + idx.2) n);
        [apply list_elem_of_singleton in Hx; lia|now apply elem_of_nil in Hx].
    + intros Hx. exists (x / shape.2, x mod shape.2).
      pose proof (N.Div0.div_mod x shape.2) as Hdm.
      assert (Hub : x mod shape.2 < shape.2) by (apply N.mod_upper_bound; lia).
      assert (x / shape.2 < shape.1).
      { destruct (N.lt_ge_cases (x / shape.2) shape.1) as [|Hge]; [assumption|].
        apply (N.mul_le_mono_r _ _ shape.2) in Hge.
        revert Hdm Hub Hge. generalize (x / shape.2) (x mod shape.2).
        intros q r Hdm Hub Hge. lia. }
      split; [|apply elem_of_grid_agents; simpl; lia].
      rewrite functor_no_wrap by (simpl; lia). simpl.
      destruct (N.ltb_spec (x / shape.2 * shape.2 + x mod shape.2) n);
        [apply list_elem_of_singleton|]; lia.
Qed.

(** An agent skips its invocation only in the last group. *)
Lemma skips_only_in_last_group n k idx :
  0 < k -> ceil_div n k * k <= 2 ^ 32 ->
  idx.1 < ceil_div n k -> idx.2 < k ->
  flattened_grid_executor_functor n (ceil_div n k, k) idx = [] ->
  idx.1 = ceil_div n k - 1.
Proof.
  intros Hk Hgrid Hb Ht. rewrite functor_no_wrap by assumption. cbn [fst snd].
  destruct (N.ltb_spec (idx.1 * k + idx.2) n) as [|Hge]; [discriminate|]. intros _.
  destruct (N.eq_dec n 0) as [->|Hn].
  - unfold ceil_div in Hb. rewrite N.add_0_l in Hb.
    assert ((k - 1) / k = 0) by (apply N.div_small; lia). lia.
  - pose proof (ceil_div_tight n k Hk ltac:(lia)) as Htight.
    destruct (N.lt_ge_cases idx.1 (ceil_div n k - 1)) as [Hlt|]; [|lia].
    assert ((idx.1 + 1) * k <= (ceil_div n k - 1) * k)
      by (apply N.mul_le_mono_r; lia).
    lia.
Qed.

(** C1 (as amended): when the partitioner succeeds without wrap-around
    (a positive inner size, a rounded-up quotient [ceil_div n inner] within
    the outer limit, and a grid of at most [2 ^ 32] agents), the flattened
    executor launches [ceil_div n inner] groups of [inner] agents and, in
    whatever order the agents run, invokes [f] on each flat index of
    [0 .. n-1] exactly once and on no other index. *)
Theorem flattened_executes_each_index_once (max_shape : N * N) (n : N) :
  0 < max_shape.2 ->
  max_shape.1 < 2 ^ 32 ->
  max_shape.2 < 2 ^ 32 ->
  ceil_div n max_shape.2 <= max_shape.1 ->
  ceil_div n max_shape.2 * max_shape.2 <= 2 ^ 32 ->
  partition max_shape n = Returned (ceil_div n max_shape.2, max_shape.2) /\
  (exists trace, Flattened.bulk_async max_shape n = Returned trace /\ trace ≡ₚ indices n) /\
  forall order,
    launch_order (ceil_div n max_shape.2, max_shape.2) order ->
    kernel_trace
      (flattened_grid_executor_functor n (ceil_div n max_shape.2, max_shape.2)) order
      ≡ₚ indices n /\
    NoDup (kernel_trace
      (flattened_grid_executor_functor n (ceil_div n max_shape.2, max_shape.2)) order).
Proof.
  intros Hk Ho32 Hk32 Hfits Hgrid.
  pose proof (ceil_div_covers n max_shape.2 Hk) as Hcover.
  assert (Hpart : partition max_shape n
                  = Returned (ceil_div n max_shape.2, max_shape.2)).
  { rewrite partition_exact by lia.
    destruct (N.leb_spec (ceil_div n max_shape.2) max_shape.1); [reflexivity|lia]. }
  assert (Hexact : forall order,
            launch_order (ceil_div n max_shape.2, max_shape.2) order ->
            kernel_trace
              (flattened_grid_executor_functor n (ceil_div n max_shape.2, max_shape.2))
              order ≡ₚ indices n)
    by (intros order Horder; apply kernel_trace_exact; assumption).
  split; [exact Hpart|]. split.
  - unfold Flattened.bulk_async. rewrite Hpart. eexists. split; [reflexivity|].
    apply Hexact. unfold launch_order. reflexivity.
  - intros order Horder. split; [now apply Hexact|].
    rewrite (Hexact order Horder). apply NoDup_indices.
Qed.

(** C1 on the limits [(1024, 1024)] and the extent [2500]: three groups
    of 1024 agents. *)
Lemma flattened_executes_each_index_once_witness :
  partition (1024, 1024) 2500 = Returned (ceil_div 2500 1024, 1024) /\
  (exists trace, Flattened.bulk_async (1024, 1024) 2500 = Returned trace /\
                 trace ≡ₚ indices 2500) /\
  forall order,
    launch_order (ceil_div 2500 1024, 1024) order ->
    kernel_trace
      (flattened_grid_executor_functor 2500 (ceil_div 2500 1024, 1024)) order
      ≡ₚ indices 2500 /\
    NoDup (kernel_trace
      (flattened_grid_executor_functor 2500 (ceil_div 2500 1024, 1024)) order).
Proof.
  apply (flattened_executes_each_index_once (1024, 1024) 2500);
    vm_compute; first [reflexivity | discriminate].
Defined.

(** C1 as stated fails.  With the limits [(1024, 1024)] the extent
    [2 ^ 20 + 1] stops at the assertion of the partitioner and nothing is
    invoked, and the extent [2 ^ 42 + 1] passes the assertion with one
    group of 1024 agents, so [f] is invoked on 1024 indices only.  With
    the limits [(3, 2 ^ 31)] the extent [2 ^ 32 + 1] is given three groups
    of [2 ^ 31] agents; the flat index of agent [(2, 0)] wraps to [0], the
    flat index of agent [(0, 0)], so [f] is invoked twice on [0]. *)
Lemma flattening_fails_on_large_extents :
  ~ flattening_property (1024, 1024) (2 ^ 20 + 1) /\
  ~ flattening_property (1024, 1024) (2 ^ 42 + 1) /\
  ~ flattening_property (3, 2 ^ 31) (2 ^ 32 + 1).
Proof.
  split; [|split].
  - intros (p & Hp & _). vm_compute in Hp. discriminate.
  - intros (p & Hp & Hall).
    assert (Hp' : p = (1, 1024)) by (vm_compute in Hp; congruence). subst p.
    specialize (Hall (grid_agents (1, 1024)) (reflexivity _)).
    apply Permutation_length in Hall. rewrite length_indices in Hall.
    assert (Hlen : length (kernel_trace
              (flattened_grid_executor_functor (2 ^ 42 + 1) (1, 1024))
              (grid_agents (1, 1024))) = 1024%nat) by (vm_compute; reflexivity).
    rewrite Hlen in Hall. lia.
  - assert (Hpart : partition (3, 2 ^ 31) (2 ^ 32 + 1) = Returned (3, 2 ^ 31))
      by (vm_compute; reflexivity).
    assert (Horder : launch_order (3, 2 ^ 31) (grid_agents (3, 2 ^ 31)))
      by (unfold launch_order; apply Permutation_refl).
    assert (H0 : (0, 0) ∈ grid_agents (3, 2 ^ 31))
      by (apply elem_of_grid_agents; split; reflexivity).
    assert (H2 : (2, 0) ∈ grid_agents (3, 2 ^ 31))
      by (apply elem_of_grid_agents; split; reflexivity).
    assert (Hf0 : flattened_grid_executor_functor (2 ^ 32 + 1) (3, 2 ^ 31) (0, 0) = [0])
      by (vm_compute; reflexivity).
    assert (Hf2 : flattened_grid_executor_functor (2 ^ 32 + 1) (3, 2 ^ 31) (2, 0) = [0])
      by (vm_compute; reflexivity).
    intros (p & Hp & Hall). rewrite Hpart in Hp. injection Hp as <-.
    specialize (Hall _ Horder).
    assert (Hnodup : NoDup (kernel_trace
              (flattened_grid_executor_functor (2 ^ 32 + 1) (3, 2 ^ 31))
              (grid_agents (3, 2 ^ 31))))
      by (apply (NoDup_Permutation_proper _ _ Hall); apply NoDup_indices).
    assert (Heq : (0, 0) = (2, 0) :> N * N); [|discriminate Heq].
    apply (kernel_trace_NoDup_inj _ _ (0, 0) (2, 0) 0 Hnodup H0 H2).
    + rewrite Hf0. apply list_elem_of_here.
    + rewrite Hf2. apply list_elem_of_here.
Qed.

(** C7 at the failing input: with the limits [(1024, 1024)] and the extent
    [2 ^ 42 + 1] the rounded-up quotient is [2 ^ 32 + 1], above the outer
    limit, yet the partitioner returns one group of 1024 and its assertion
    holds: the quotient was narrowed to [unsigned int] before the check. *)
Theorem partition_narrows_before_assert :
  partition (1024, 1024) (2 ^ 42 + 1) = Returned (1, 1024) /\
  ceil_div (2 ^ 42 + 1) 1024 = 2 ^ 32 + 1 /\
  1024 < ceil_div (2 ^ 42 + 1) 1024.
Proof. repeat split; vm_compute; reflexivity. Qed.

(** Off the wrap-around the partitioner does what is asked of it: the inner
    size is the inner limit, the outer count is the rounded-up quotient,
    and an outer count above the outer limit fails the assertion. *)
Lemma partition_in_range (max_shape : N * N) (n : N) :
  0 < max_shape.2 -> n + max_shape.2 - 1 < 2 ^ 64 ->
  ceil_div n max_shape.2 < 2 ^ 32 ->
  (ceil_div n max_shape.2 <= max_shape.1 ->
     partition max_shape n = Returned (ceil_div n max_shape.2, max_shape.2)) /\
  (max_shape.1 < ceil_div n max_shape.2 ->
     partition max_shape n = AssertionFailed).
Proof.
  intros Hk H64 H32. rewrite partition_exact by assumption.
  destruct (N.leb_spec (ceil_div n max_shape.2) max_shape.1); split; intros; (reflexivity || lia).
Qed.

(** ** The reference executors *)

Import Reference.

Lemma range_nil a b : b <= a -> range a b = [].
Proof. intros H. unfold range. now replace (N.to_nat (b - a)) with 0%nat by lia. Qed.

Lemma range_cons a b : a < b -> range a b = a :: range (a + 1) b.
Proof.
  intros H. unfold range.
  replace (N.to_nat (b - a)) with (S (N.to_nat (b - (a + 1)))) by lia.
  cbn [seq fmap list_fmap]. f_equal; [lia|].
  rewrite <- fmap_S_seq, <- list_fmap_compose.
  apply list_fmap_ext. intros _ k _. simpl. lia.
Qed.

Lemma range_app a m b : a <= m -> m <= b -> range a b = range a m ++ range m b.
Proof.
  intros Ham Hmb. unfold range.
  replace (N.to_nat (b - a)) with (N.to_nat (m - a) + N.to_nat (b - m))%nat by lia.
  rewrite seq_app, fmap_app. f_equal.
  assert (Hseq : forall x y, seq x y = Nat.add x <$> seq 0 y)
    by (intros x y; rewrite fmap_add_seq; f_equal; lia).
  rewrite (Hseq (0 + _)%nat), <- list_fmap_compose. apply list_fmap_ext. intros _ k _. simpl. lia.
Qed.

Lemma range_split a m b :
  a <= m -> m < b -> range a b = range a m ++ m :: range (m + 1) b.
Proof.
  intros Ham Hmb. rewrite (range_app a m b) by lia. now rewrite (range_cons m b).
Qed.

Section ExecutorFacts.

Context {R Sh : Type}.
Variable f : N -> R * Sh -> R * Sh.
Variable result_factory : N -> R.
Variable shared_factory : N -> Sh.

Lemma for_loop_spec count i rs :
  for_loop f count i rs =
    (fold_left (fun rs j => f j rs) (range i (i + N.of_nat count)) rs,
     Agent <$> range i (i + N.of_nat count)).
Proof.
  revert i rs. induction count as [|count IH]; intros i rs.
  - rewrite range_nil by lia. reflexivity.
  - rewrite range_cons by lia. cbn [for_loop]. unfold bind, call_f.
    rewrite IH. replace (i + 1 + N.of_nat count) with (i + N.of_nat (S count)) by lia.
    reflexivity.
Qed.

Lemma bulk_execute_spec n :
  bulk_execute f result_factory shared_factory n =
    ((fold_left (fun rs j => f j rs) (indices n)
        (result_factory n, shared_factory n)).1,
     ResultFactory n :: SharedFactory n :: (Agent <$> indices n)).
Proof.
  unfold bulk_execute, bind, call_result_factory, call_shared_factory, ret.
  rewrite for_loop_spec. rewrite N.add_0_l, N2Nat.id. unfold indices.
  cbn [app]. now rewrite app_nil_r.
Qed.

Lemma bulk_async_execute_spec n :
  get (bulk_async_execute f result_factory shared_factory n) =
    bulk_execute f result_factory shared_factory n.
Proof. reflexivity. Qed.

Lemma agents_of_fmap_Agent l : agents_of (Agent <$> l) = l.
Proof. unfold agents_of. induction l as [|x l IH]; [reflexivity|]. cbn. now rewrite IH. Qed.

Lemma agents_of_app l1 l2 : agents_of (l1 ++ l2) = agents_of l1 ++ agents_of l2.
Proof. apply omap_app. Qed.

End ExecutorFacts.

(** *** The synchronous executor on [store_index] *)

Lemma store_index_fold {Sh : Type} (js : list N) (rs : list N * Sh) :
  (forall j, j ∈ js -> (N.to_nat j < length rs.1)%nat) ->
  let rs' := fold_left (fun rs j => store_index j rs) js rs in
  length rs'.1 = length rs.1 /\
  forall i, (i ∈ js -> rs'.1 !! N.to_nat i = Some i) /\
            (i ∉ js -> rs'.1 !! N.to_nat i = rs.1 !! N.to_nat i).
Proof.
  revert rs. induction js as [|j js IH]; intros rs Hlen; cbn [fold_left].
  - split; [reflexivity|]. intros i. split; [|reflexivity].
    intros Hin. now apply elem_of_nil in Hin.
  - assert (Hfst : (store_index j rs).1 = <[N.to_nat j := j]> rs.1) by reflexivity.
    destruct (IH (store_index j rs)) as [IHlen IHget].
    { intros j' Hj'. rewrite Hfst, length_insert. apply Hlen. now right. }
    rewrite Hfst, length_insert in IHlen. split; [exact IHlen|].
    intros i. destruct (IHget i) as [Hin Hout]. split.
    + intros Hi. destruct (decide (i ∈ js)) as [Hjs|Hjs]; [now apply Hin|].
      apply elem_of_cons in Hi as [->|Hi]; [|contradiction].
      rewrite (Hout Hjs), Hfst.
      apply list_lookup_insert_eq, Hlen. now left.
    + intros Hi. apply not_elem_of_cons in Hi as [Hne Hjs].
      rewrite (Hout Hjs), Hfst.
      apply list_lookup_insert_ne. lia.
Qed.

(** C8: on a result container with room for [n] elements, the synchronous
    executor's [bulk_execute] with [f(i, result) = (result[i] = i)] returns
    a result with [result[i] = i] for every [i < n], and invokes [f] on
    [0, 1, ..., n-1] in turn, [n] times in all. *)
Theorem bulk_execute_store_index {Sh : Type}
    (result_factory : N -> list N) (shared_factory : N -> Sh) (n : N) :
  (N.to_nat n <= length (result_factory n))%nat ->
  let run := bulk_execute store_index result_factory shared_factory n in
  (forall i, i < n -> run.1 !! N.to_nat i = Some i) /\
  agents_of run.2 = indices n /\
  length (agents_of run.2) = N.to_nat n.
Proof.
  intros Hroom run. subst run. rewrite bulk_execute_spec. cbn [fst snd].
  split; [|split].
  - intros i Hi.
    destruct (store_index_fold (indices n) (result_factory n, shared_factory n))
      as [_ Hget].
    + intros j Hj. apply elem_of_indices in Hj. cbn [fst]. lia.
    + apply Hget. now apply elem_of_indices.
  - change (agents_of (Agent <$> indices n) = indices n).
    apply agents_of_fmap_Agent.
  - change (length (agents_of (Agent <$> indices n)) = N.to_nat n).
    rewrite agents_of_fmap_Agent. apply length_indices.
Qed.

(** C8 on a result of three zeros and [n = 3]. *)
Lemma bulk_execute_store_index_witness :
  let run := bulk_execute store_index zeros no_shared 3 in
  (forall i, i < 3 -> run.1 !! N.to_nat i = Some i) /\
  agents_of run.2 = indices 3 /\
  length (agents_of run.2) = N.to_nat 3.
Proof.
  apply (bulk_execute_store_index zeros no_shared 3). vm_compute. lia.
Defined.

(** *** Interleavings *)

Lemma interleave_nil_l {A : Type} (l : list A) : interleave [] l l.
Proof. induction l; constructor; assumption. Qed.

Lemma interleave_nil_r {A : Type} (l : list A) : interleave l [] l.
Proof. induction l; constructor; assumption. Qed.

Lemma interleave_app {A : Type} (l1 l2 : list A) : interleave l1 l2 (l1 ++ l2).
Proof. induction l1; cbn; [apply interleave_nil_l|now constructor]. Qed.


Lemma interleave_Permutation {A : Type} (l1 l2 l : list A) :
  interleave l1 l2 l -> l ≡ₚ l1 ++ l2.
Proof.
  induction 1 as [|x l1 l2 l _ IH|x l1 l2 l _ IH]; cbn.
  - reflexivity.
  - now rewrite IH.
  - rewrite IH. apply Permutation_middle.
Qed.

Lemma interleave_filter_length {A : Type} (p : A -> bool) (l1 l2 l : list A) :
  interleave l1 l2 l ->
  length (List.filter p l) =
    (length (List.filter p l1) + length (List.filter p l2))%nat.
Proof.
  induction 1 as [|x l1 l2 l _ IH|x l1 l2 l _ IH]; cbn;
    [reflexivity|destruct (p x); cbn; lia..].
Qed.

(** *** The task tree of the fork-join *)

Lemma midpoint_split_agents first last t :
  midpoint_split first last t -> task_agents t = range first last.
Proof.
  revert first last. induction t as [|a b l IHl mid r IHr]; intros first last; cbn.
  - intros ->. symmetry. apply range_nil. lia.
  - intros (-> & -> & Hlt & Hmid & Hl & Hr).
    rewrite (IHl _ _ Hl), (IHr _ _ Hr). symmetry.
    assert (first <= mid < last).
    { subst mid. split.
      - apply N.div_le_lower_bound; lia.
      - apply N.Div0.div_lt_upper_bound; lia. }
    apply range_split; lia.
Qed.

Lemma async_body_no_wrap first last :
  first < last -> last <= 2 ^ 63 ->
  let mid := (first + last) / 2 in
  first <= mid < last /\
  async_body first last =
    (if first <? mid then Some (first, mid) else None,
     mid,
     if mid + 1 <? last then Some (mid + 1, last) else None).
Proof.
  intros Hlt Hwrap mid.
  assert (2 ^ 63 + 2 ^ 63 = 2 ^ 64) by (vm_compute; reflexivity).
  assert (Hmid : first <= mid < last).
  { subst mid. split.
    - apply N.div_le_lower_bound; lia.
    - apply N.Div0.div_lt_upper_bound; lia. }
  split; [exact Hmid|]. unfold async_body.
  rewrite (add64_small last first) by lia.
  replace (last + first) with (first + last) by lia. fold mid.
  rewrite (add64_small mid 1) by lia. reflexivity.
Qed.

(** Whatever [async] returns on a range that ends at or below [2 ^ 63]
    (the bounds of every range below it then add up without wrap-around)
    is the fork-join of the range. *)
Lemma async_sound fuel : forall first last t,
  first < last -> last <= 2 ^ 63 ->
  async fuel first last = Some t -> midpoint_split first last t.
Proof.
  induction fuel as [|fuel IH]; intros first last t Hlt Hwrap; [discriminate|].
  cbn [async].
  destruct (async_body_no_wrap first last Hlt Hwrap) as [Hmid ->].
  set (mid := (first + last) / 2) in *.
  destruct (N.ltb_spec first mid) as [Hl|Hl];
    destruct (N.ltb_spec (mid + 1) last) as [Hr|Hr].
  - destruct (async fuel first mid) as [l|] eqn:El; [|discriminate].
    destruct (async fuel (mid + 1) last) as [r|] eqn:Er; [|discriminate].
    intros [= <-]. cbn. repeat split; try lia; apply IH; (assumption || lia).
  - destruct (async fuel first mid) as [l|] eqn:El; [|discriminate].
    intros [= <-]. cbn. repeat split; try lia. apply IH; (assumption || lia).
  - destruct (async fuel (mid + 1) last) as [r|] eqn:Er; [|discriminate].
    intros [= <-]. cbn. repeat split; try lia. apply IH; (assumption || lia).
  - intros [= <-]. cbn. repeat split; lia.
Qed.

(** With fuel for the length of the range, [async] returns. *)
Lemma async_returns fuel : forall first last,
  first < last -> last <= 2 ^ 63 ->
  (N.to_nat (last - first) <= fuel)%nat ->
  exists t, async fuel first last = Some t.
Proof.
  induction fuel as [|fuel IH]; intros first last Hlt Hwrap Hfuel; [lia|].
  cbn [async].
  destruct (async_body_no_wrap first last Hlt Hwrap) as [Hmid ->].
  set (mid := (first + last) / 2) in *.
  destruct (N.ltb_spec first mid) as [Hl|Hl];
    destruct (N.ltb_spec (mid + 1) last) as [Hr|Hr].
  - destruct (IH first mid) as [l ->]; [lia..|].
    destruct (IH (mid + 1) last) as [r ->]; [lia..|]. eauto.
  - destruct (IH first mid) as [l ->]; [lia..|]. eauto.
  - destruct (IH (mid + 1) last) as [r ->]; [lia..|]. eauto.
  - eauto.
Qed.

Lemma then_body_no_wrap n :
  0 < n -> n <= 2 ^ 63 ->
  let mid := n / 2 in
  mid < n /\
  then_body n =
    (if 0 <? mid then Some (0, mid) else None,
     mid,
     if mid + 1 <? n then Some (mid + 1, n) else None).
Proof.
  intros Hn Hbound mid.
  assert (Hmid : mid < n) by (subst mid; apply N.Div0.div_lt_upper_bound; lia).
  split; [exact Hmid|]. unfold then_body. fold mid.
  assert (2 ^ 63 < 2 ^ 64) by (vm_compute; reflexivity).
  rewrite (add64_small mid 1) by lia. reflexivity.
Qed.

Lemma fork_join_sound fuel n t :
  0 < n -> n <= 2 ^ 63 ->
  fork_join fuel n = Some t -> midpoint_split 0 n t.
Proof.
  intros Hn Hbound. unfold fork_join.
  destruct (then_body_no_wrap n Hn Hbound) as [Hmid ->].
  set (mid := n / 2) in *.
  destruct (N.ltb_spec 0 mid) as [Hl|Hl];
    destruct (N.ltb_spec (mid + 1) n) as [Hr|Hr].
  - destruct (async fuel 0 mid) as [l|] eqn:El; [|discriminate].
    destruct (async fuel (mid + 1) n) as [r|] eqn:Er; [|discriminate].
    intros [= <-]. cbn. repeat split; try lia;
      (eapply async_sound; [| |eassumption]; lia).
  - destruct (async fuel 0 mid) as [l|] eqn:El; [|discriminate].
    intros [= <-]. cbn. repeat split; try lia.
    eapply async_sound; [| |eassumption]; lia.
  - destruct (async fuel (mid + 1) n) as [r|] eqn:Er; [|discriminate].
    intros [= <-]. cbn. repeat split; try lia.
    eapply async_sound; [| |eassumption]; lia.
  - intros [= <-]. cbn. repeat split; lia.
Qed.

Lemma fork_join_returns fuel n :
  0 < n -> n <= 2 ^ 63 -> (N.to_nat n <= fuel)%nat ->
  exists t, fork_join fuel n = Some t.
Proof.
  intros Hn Hbound Hfuel. unfold fork_join.
  destruct (then_body_no_wrap n Hn Hbound) as [Hmid ->].
  set (mid := n / 2) in *.
  destruct (N.ltb_spec 0 mid) as [Hl|Hl];
    destruct (N.ltb_spec (mid + 1) n) as [Hr|Hr].
  - destruct (async_returns fuel 0 mid) as [l ->]; [lia..|].
    destruct (async_returns fuel (mid + 1) n) as [r ->]; [lia..|]. eauto.
  - destruct (async_returns fuel 0 mid) as [l ->]; [lia..|]. eauto.
  - destruct (async_returns fuel (mid + 1) n) as [r ->]; [lia..|]. eauto.
  - eauto.
Qed.

(** *** Runs of the fork-join *)

Lemma runs_eager t : runs t (eager t).
Proof.
  induction t as [|a b l IHl mid r IHr]; cbn [eager]; [constructor|].
  replace (eager l ++ eager r ++ [Agent mid; Ready a b])
    with (((eager l ++ eager r) ++ [Agent mid]) ++ [Ready a b])
    by (now rewrite <- !app_assoc).
  eapply runs_task; eauto using @interleave_app.
Qed.


(** A task's future is the last event of its run, and everything else
    (its agent, the agents and the futures of the tasks below it) comes
    before. *)
Lemma runs_inv a b l mid r tr :
  runs (Task a b l mid r) tr ->
  exists tl trr body,
    runs l tl /\ runs r trr /\ tr = body ++ [Ready a b] /\
    body ≡ₚ Agent mid :: tl ++ trr.
Proof.
  intros H. inversion H as [|? ? ? ? ? tl trr children body Hl Hr Hc Hb]; subst.
  exists tl, trr, body. repeat split; try assumption.
  apply interleave_Permutation in Hc, Hb. rewrite Hb, Hc.
  symmetry. apply Permutation_cons_append.
Qed.

Lemma runs_Permutation t tr :
  runs t tr -> tr ≡ₚ (Agent <$> task_agents t) ++ task_futures t.
Proof.
  revert tr. induction t as [|a b l IHl mid r IHr]; intros tr H.
  - inversion H. reflexivity.
  - apply runs_inv in H as (tl & trr & body & Hl & Hr & -> & Hbody).
    specialize (IHl _ Hl). specialize (IHr _ Hr).
    cbn [task_agents task_futures]. rewrite fmap_app, fmap_cons.
    set (Al := Agent <$> task_agents l) in *.
    set (Ar := Agent <$> task_agents r) in *.
    set (Fl := task_futures l) in *. set (Fr := task_futures r) in *.
    transitivity (Ready a b :: Agent mid :: (Al ++ Fl) ++ (Ar ++ Fr)).
    { rewrite <- Permutation_cons_append. constructor.
      rewrite Hbody. constructor. now apply Permutation_app. }
    transitivity (Ready a b :: (Al ++ Agent mid :: Ar) ++ Fl ++ Fr);
      [|apply Permutation_middle].
    clearbody Al Ar Fl Fr. constructor.
    rewrite <- (app_assoc Al (Agent mid :: Ar)). cbn [app].
    rewrite <- Permutation_middle. constructor.
    rewrite <- (app_assoc Al Fl). apply Permutation_app_head.
    apply Permutation_app_swap_app.
Qed.

Lemma agents_of_futures t : agents_of (task_futures t) = [].
Proof.
  induction t as [|a b l IHl mid r IHr]; [reflexivity|].
  cbn [task_futures]. change (agents_of (task_futures l ++ task_futures r) = []).
  now rewrite agents_of_app, IHl, IHr.
Qed.

Lemma runs_agents t tr : runs t tr -> agents_of tr ≡ₚ task_agents t.
Proof.
  intros H. apply runs_Permutation in H. unfold agents_of at 1. rewrite H.
  fold (agents_of ((Agent <$> task_agents t) ++ task_futures t)).
  now rewrite agents_of_app, agents_of_fmap_Agent, agents_of_futures, app_nil_r.
Qed.

Lemma runs_no_factory t tr :
  runs t tr -> count_result_factory tr = 0%nat /\ count_shared_factory tr = 0%nat.
Proof.
  unfold count_result_factory, count_shared_factory.
  induction 1 as [|a b l mid r tl trr children body _ [IHl1 IHl2] _ [IHr1 IHr2] Hc Hb].
  - split; reflexivity.
  - rewrite !List.filter_app, !length_app.
    rewrite !(interleave_filter_length _ _ _ _ Hb), !(interleave_filter_length _ _ _ _ Hc).
    rewrite IHl1, IHl2, IHr1, IHr2. split; reflexivity.
Qed.

(** A task that hands nothing to the left and the rest of its range to
    the right returns only if the task on the right does. *)
Lemma async_spine fuel a b m a' :
  async_body a b = (None, m, Some (a', b)) ->
  (forall fuel', async fuel' a' b = None) ->
  async fuel a b = None.
Proof.
  intros Hbody Hnext. destruct fuel as [|fuel]; [reflexivity|].
  cbn [async]. rewrite Hbody, Hnext. reflexivity.
Qed.

Lemma async_loops fuel : async fuel 1 (2 ^ 64 - 1) = None.
Proof.
  induction fuel as [|fuel IH]; [reflexivity|]. cbn [async].
  replace (async_body 1 (2 ^ 64 - 1)) with (@None (N * N), 0, Some (1, 2 ^ 64 - 1))
    by (vm_compute; reflexivity).
  now rewrite IH.
Qed.

(** C3 at the failing input [n = 2 ^ 64 - 1]: the first activation hands
    [0, 2 ^ 63 - 1) to a left task and [2 ^ 63, 2 ^ 64 - 1) to a right
    task; in the right task [last + first] wraps, so its midpoint is
    [2 ^ 62 - 1], outside its range and equal to the midpoint of the left
    task: that agent is invoked by both.  Further down the right side the
    range [1, 2 ^ 64 - 1) hands itself on, so the recursion has no end. *)
Theorem fork_join_midpoint_wraps :
  then_body (2 ^ 64 - 1) =
    (Some (0, 2 ^ 63 - 1), 2 ^ 63 - 1, Some (2 ^ 63, 2 ^ 64 - 1)) /\
  (async_body 0 (2 ^ 63 - 1)).1.2 = 2 ^ 62 - 1 /\
  async_body (2 ^ 63) (2 ^ 64 - 1) = (None, 2 ^ 62 - 1, Some (2 ^ 62, 2 ^ 64 - 1)) /\
  forall fuel, fork_join fuel (2 ^ 64 - 1) = None.
Proof.
  split; [vm_compute; reflexivity|].
  split; [vm_compute; reflexivity|].
  split; [vm_compute; reflexivity|].
  intros fuel. unfold fork_join.
  replace (then_body (2 ^ 64 - 1))
    with (Some (0, 2 ^ 63 - 1), 2 ^ 63 - 1, Some (2 ^ 63, 2 ^ 64 - 1))
    by (vm_compute; reflexivity).
  assert (Hright : forall fuel', async fuel' (2 ^ 63) (2 ^ 64 - 1) = None).
  { change (2 ^ 64 - 1) with 18446744073709551615.
    change (2 ^ 63) with 9223372036854775808.
    do 63 (intros ?; eapply async_spine; [vm_compute; reflexivity|]).
    apply async_loops. }
  rewrite Hright. now destruct (async fuel 0 (2 ^ 63 - 1)).
Qed.

(** For [0 < n <= 2 ^ 63] the fork-join is the one the specification
    describes: the call returns a task tree that splits [0, n) at its
    midpoints, with a task exactly for the non-empty sides; in every run
    each agent of [0 .. n-1] is invoked once, and the future of the first
    task becomes ready last, after all [n] invocations and after the
    futures of all the tasks started below it. *)
Lemma fork_join_complete n :
  0 < n -> n <= 2 ^ 63 ->
  (exists t, fork_join (N.to_nat n) n = Some t) /\
  forall fuel t, fork_join fuel n = Some t ->
    midpoint_split 0 n t /\
    forall tr, runs t tr ->
      agents_of tr ≡ₚ indices n /\
      exists body,
        tr = body ++ [Ready 0 n] /\
        body ≡ₚ (Agent <$> indices n) ++ spawned_futures t.
Proof.
  intros Hn Hbound. split; [now apply fork_join_returns|].
  intros fuel t Ht. pose proof (fork_join_sound _ _ _ Hn Hbound Ht) as Hsplit.
  split; [exact Hsplit|]. intros tr Hrun.
  pose proof (midpoint_split_agents _ _ _ Hsplit) as Hagents.
  fold (indices n) in Hagents. split.
  - rewrite <- Hagents. now apply runs_agents.
  - destruct t as [|a b l mid r]; [cbn in Hsplit; lia|].
    destruct Hsplit as (-> & -> & _).
    pose proof (runs_Permutation _ _ Hrun) as Hperm.
    apply runs_inv in Hrun as (tl & trr & body & _ & _ & -> & _).
    exists body. split; [reflexivity|].
    rewrite Hagents in Hperm. cbn [task_futures] in Hperm.
    rewrite <- Permutation_cons_append, <- Permutation_middle in Hperm.
    now apply Permutation_cons_inv in Hperm.
Qed.

(** *** The three executors compared *)

Section Compared.

Context {R Sh : Type}.
Variable f : N -> R * Sh -> R * Sh.
Variable result_factory : N -> R.
Variable shared_factory : N -> Sh.

Lemma fold_left_commute (l l' : list N) :
  (forall i j rs, i <> j -> f i (f j rs) = f j (f i rs)) ->
  l ≡ₚ l' ->
  forall rs, fold_left (fun rs i => f i rs) l rs = fold_left (fun rs i => f i rs) l' rs.
Proof.
  intros Hcomm. induction 1 as [|x l l' _ IH|x y l|l l' l'' _ IH1 _ IH2]; intros rs; cbn.
  - reflexivity.
  - apply IH.
  - destruct (decide (x = y)) as [->|Hne]; [reflexivity|]. now rewrite Hcomm.
  - now rewrite IH1.
Qed.

Lemma count_factories_agents (l : list N) :
  count_result_factory (Agent <$> l) = 0%nat /\
  count_shared_factory (Agent <$> l) = 0%nat.
Proof. induction l; split; cbn; (reflexivity || tauto). Qed.

Lemma bulk_execute_factories n :
  factories_once_each (bulk_execute f result_factory shared_factory n).2.
Proof.
  rewrite bulk_execute_spec. cbn [snd]. unfold factories_once_each.
  destruct (count_factories_agents (indices n)) as [H1 H2].
  unfold count_result_factory, count_shared_factory in *. cbn.
  now rewrite H1, H2.
Qed.

Lemma bulk_then_execute_inv n result log :
  bulk_then_execute f result_factory shared_factory n result log ->
  (n = 0 /\ result = result_factory n /\ log = [ResultFactory n]) \/
  (0 < n /\ exists fuel t tr,
     fork_join fuel n = Some t /\ runs t tr /\
     result = (after_calls f tr (result_factory n, shared_factory n)).1 /\
     log = ResultFactory n :: SharedFactory n :: tr).
Proof.
  intros H. inversion H as [fuel t tr Hn Ht Hrun|Hn]; subst.
  - right. split; [assumption|]. now exists fuel, t, tr.
  - left. repeat split.
Qed.

Lemma bulk_then_execute_exists n :
  n <= 2 ^ 63 ->
  exists result log, bulk_then_execute f result_factory shared_factory n result log.
Proof.
  intros Hbound. destruct (N.eq_dec n 0) as [->|Hne].
  - eexists _, _. now apply then_nothing.
  - destruct (fork_join_returns (N.to_nat n) n) as [t Ht]; [lia..|].
    eexists _, _. eapply then_tasks; [lia|exact Ht|apply runs_eager].
Qed.

Lemma bulk_then_execute_value_inv {P : Type}
    (fp : N -> P * (R * Sh) -> P * (R * Sh)) (p : P) n result log :
  bulk_then_execute_value result_factory shared_factory fp p n result log ->
  (n = 0 /\ result = result_factory n /\ log = [ResultFactory n]) \/
  (0 < n /\ exists fuel t tr,
     fork_join fuel n = Some t /\ runs t tr /\
     result = (after_calls fp tr (p, (result_factory n, shared_factory n))).2.1 /\
     log = ResultFactory n :: SharedFactory n :: tr).
Proof.
  intros H. inversion H as [fuel t tr Hn Ht Hrun|Hn]; subst.
  - right. split; [assumption|]. now exists fuel, t, tr.
  - left. repeat split.
Qed.

Lemma bulk_then_execute_value_exists {P : Type}
    (fp : N -> P * (R * Sh) -> P * (R * Sh)) (p : P) n :
  n <= 2 ^ 63 ->
  exists result log,
    bulk_then_execute_value result_factory shared_factory fp p n result log.
Proof.
  intros Hbound. destruct (N.eq_dec n 0) as [->|Hne].
  - eexists _, _. now apply value_nothing.
  - destruct (fork_join_returns (N.to_nat n) n) as [t Ht]; [lia..|].
    eexists _, _. eapply value_tasks; [lia|exact Ht|apply runs_eager].
Qed.

(** An agent function that takes the predecessor along and leaves it
    alone acts on the result and the shared parameter as [f] does. *)
Lemma after_calls_value {P : Type}
    (fp : N -> P * (R * Sh) -> P * (R * Sh)) (p : P) (log : list call) :
  (forall i q rs, fp i (q, rs) = (q, f i rs)) ->
  forall rs, after_calls fp log (p, rs) = (p, after_calls f log rs).
Proof.
  intros Hfp. unfold after_calls.
  induction (agents_of log) as [|i l IH]; intros rs; cbn; [reflexivity|].
  now rewrite Hfp, IH.
Qed.

End Compared.

Lemma store_index_commute {Sh : Type} (i j : N) (rs : list N * Sh) :
  i <> j -> store_index i (store_index j rs) = store_index j (store_index i rs).
Proof.
  intros Hne. unfold store_index. cbn [fst snd]. f_equal.
  apply list_insert_insert_ne. lia.
Qed.

(** *** Invocations that work on their own element *)

Section OnElements.

Context {St C : Type}.

Variable vec : St -> list C.
Variable set_vec : list C -> St -> St.

Hypothesis vec_set : forall v st, vec (set_vec v st) = v.

Variable g : N -> invocation C.





End OnElements.


(** *** Schedules of steps and logs of calls *)

Lemma calls_of_app (s1 s2 : list action) :
  calls_of (s1 ++ s2) = calls_of s1 ++ calls_of s2.
Proof. apply omap_app. Qed.











(** *** Runs that do not tell the steps apart are runs *)


Lemma calls_of_as_schedule (log : list call) : calls_of (as_schedule log) = log.
Proof.
  unfold as_schedule. induction log as [|c log IH]; [reflexivity|].
  cbn. rewrite calls_of_app, IH. now destruct c.
Qed.








(** *** The calls made while the tasks are under way *)

Lemma task_log_no_factory (range : option (N * N)) (tr : list call) (returned : bool) :
  task_log range tr returned ->
  count_result_factory tr = 0%nat /\ count_shared_factory tr = 0%nat.
Proof.
  unfold count_result_factory, count_shared_factory.
  induction 1 as [| |a b tl trr lr rr children own body _ [IHl1 IHl2] _ [IHr1 IHr2] Hc Hown Hb
                  |a b tl trr children body _ [IHl1 IHl2] _ [IHr1 IHr2] Hc Hb];
    try (split; reflexivity).
  - rewrite !(interleave_filter_length _ _ _ _ Hb), !(interleave_filter_length _ _ _ _ Hc).
    rewrite IHl1, IHl2, IHr1, IHr2. destruct Hown as [->| ->]; split; reflexivity.
  - rewrite !List.filter_app, !length_app.
    rewrite !(interleave_filter_length _ _ _ _ Hb), !(interleave_filter_length _ _ _ _ Hc).
    rewrite IHl1, IHl2, IHr1, IHr2. split; reflexivity.
Qed.

Lemma then_log_no_factory (n : N) (tr : list call) (ready : bool) :
  then_log n tr ready ->
  count_result_factory tr = 0%nat /\ count_shared_factory tr = 0%nat.
Proof.
  intros [tl trr lr rr children own body Hl Hr Hc Hown Hb|tl trr children body Hl Hr Hc Hb];
    destruct (task_log_no_factory _ _ _ Hl) as [IHl1 IHl2];
    destruct (task_log_no_factory _ _ _ Hr) as [IHr1 IHr2];
    unfold count_result_factory, count_shared_factory in *.
  - rewrite !(interleave_filter_length _ _ _ _ Hb), !(interleave_filter_length _ _ _ _ Hc).
    rewrite IHl1, IHl2, IHr1, IHr2. destruct Hown as [->| ->]; split; reflexivity.
  - rewrite !List.filter_app, !length_app.
    rewrite !(interleave_filter_length _ _ _ _ Hb), !(interleave_filter_length _ _ _ _ Hc).
    rewrite IHl1, IHl2, IHr1, IHr2. split; reflexivity.
Qed.

(** A task that has returned has made the calls of a run of its tree. *)
Lemma runs_task_log fuel : forall first last t tr,
  async fuel first last = Some t -> runs t tr ->
  task_log (Some (first, last)) tr true.
Proof.
  induction fuel as [|fuel IH]; intros first last t tr Ht Hrun; [discriminate|].
  cbn [async] in Ht.
  assert (Hside : forall side t' tr',
            match side with Some (a, b) => async fuel a b | None => Some NoTask end = Some t' ->
            runs t' tr' -> task_log side tr' true).
  { intros [[a b]|] t' tr' Ht' Hrun'; [exact (IH _ _ _ _ Ht' Hrun')|].
    injection Ht' as <-. inversion Hrun'; subst. constructor. }
  destruct (async_body first last) as [[l mid] r] eqn:Hbody.
  destruct (match l with Some (a, b) => async fuel a b | None => Some NoTask end)
    as [left_task|] eqn:Hl; [|discriminate].
  destruct (match r with Some (a, b) => async fuel a b | None => Some NoTask end)
    as [right_task|] eqn:Hr; [|discriminate].
  injection Ht as <-.
  inversion Hrun as [|? ? ? ? ? tl trr children body Hrl Hrr Hc Hb]; subst.
  apply (log_returned first last tl trr children body); rewrite ?Hbody; cbn [fst snd].
  - exact (Hside _ _ _ Hl Hrl).
  - exact (Hside _ _ _ Hr Hrr).
  - exact Hc.
  - exact Hb.
Qed.

Lemma runs_then_log fuel n t tr :
  fork_join fuel n = Some t -> runs t tr -> then_log n tr true.
Proof.
  intros Ht Hrun. unfold fork_join in Ht.
  assert (Hside : forall side t' tr',
            match side with Some (a, b) => async fuel a b | None => Some NoTask end = Some t' ->
            runs t' tr' -> task_log side tr' true).
  { intros [[a b]|] t' tr' Ht' Hrun'; [exact (runs_task_log _ _ _ _ _ Ht' Hrun')|].
    injection Ht' as <-. inversion Hrun'; subst. constructor. }
  destruct (then_body n) as [[l mid] r] eqn:Hbody.
  destruct (match l with Some (a, b) => async fuel a b | None => Some NoTask end)
    as [left_task|] eqn:Hl; [|discriminate].
  destruct (match r with Some (a, b) => async fuel a b | None => Some NoTask end)
    as [right_task|] eqn:Hr; [|discriminate].
  injection Ht as <-.
  inversion Hrun as [|? ? ? ? ? tl trr children body Hrl Hrr Hc Hb]; subst.
  apply (then_returned n tl trr children body); rewrite ?Hbody; cbn [fst snd].
  - exact (Hside _ _ _ Hl Hrl).
  - exact (Hside _ _ _ Hr Hrr).
  - exact Hc.
  - exact Hb.
Qed.

(** A task that was only started has called nothing. *)
Lemma task_log_started (range : option (N * N)) :
  exists returned, task_log range [] returned.
Proof.
  destruct range as [[a b]|]; eexists; constructor.
Qed.

(** The lambda can always get as far as invoking its own agent. *)
Lemma then_log_own_agent (n : N) : then_log n [Agent (n / 2)] false.
Proof.
  destruct (task_log_started (then_body n).1.1) as [lr Hl].
  destruct (task_log_started (then_body n).2) as [rr Hr].
  apply (then_under_way n [] [] lr rr [] [Agent (n / 2)] _ Hl Hr);
    [constructor|now right|apply interleave_nil_l].
Qed.

Lemma count_factories_prefix (before rest tr : list call) :
  count_result_factory tr = 0%nat -> count_shared_factory tr = 0%nat ->
  tr = before ++ rest ->
  count_result_factory before = 0%nat /\ count_shared_factory before = 0%nat.
Proof.
  unfold count_result_factory, count_shared_factory. intros H1 H2 ->.
  rewrite List.filter_app, length_app in H1, H2. lia.
Qed.

(** C6 (as amended): for every [n] the synchronous and the asynchronous
    executor call the result factory once and the shared factory once.
    The continuation executor, in both overloads, for [n = 0] calls the
    result factory once and the shared factory not at all; for [n > 0]
    its lambda calls the result factory and then the shared factory before
    it starts a task or invokes an agent, and nothing calls them again: at
    every moment of a run each has been called at most once, and exactly
    once before the first invocation of an agent and when the future is
    ready.  This holds whether or not the tasks ever return, so also for
    [n > 2 ^ 63]; for [n <= 2 ^ 63] the future does resolve. *)
Theorem factories_per_bulk_call {R Sh : Type}
    (f : N -> R * Sh -> R * Sh) (result_factory : N -> R)
    (shared_factory : N -> Sh) (n : N) :
  factories_once_each (bulk_execute f result_factory shared_factory n).2 /\
  factories_once_each (get (bulk_async_execute f result_factory shared_factory n)).2 /\
  (forall result log,
     bulk_then_execute f result_factory shared_factory n result log ->
     count_result_factory log = 1%nat /\
     count_shared_factory log = if n =? 0 then 0%nat else 1%nat) /\
  (forall (P : Type) (fp : N -> P * (R * Sh) -> P * (R * Sh)) (p : P) result log,
     bulk_then_execute_value result_factory shared_factory fp p n result log ->
     count_result_factory log = 1%nat /\
     count_shared_factory log = if n =? 0 then 0%nat else 1%nat) /\
  (n <= 2 ^ 63 ->
   (exists result log,
      bulk_then_execute f result_factory shared_factory n result log) /\
   forall (P : Type) (fp : N -> P * (R * Sh) -> P * (R * Sh)) (p : P),
   exists result log,
     bulk_then_execute_value result_factory shared_factory fp p n result log) /\
  (forall log ready,
     bulk_then_execute_log n log ready ->
     (count_result_factory log <= 1)%nat /\
     (count_shared_factory log <= if (n =? 0)%N then 0 else 1)%nat /\
     (ready = true \/ agents_of log <> [] ->
      count_result_factory log = 1%nat /\
      count_shared_factory log = if n =? 0 then 0%nat else 1%nat) /\
     forall before i rest,
       log = before ++ Agent i :: rest ->
       count_result_factory before = 1%nat /\ count_shared_factory before = 1%nat) /\
  bulk_then_execute_log n
    (if n =? 0 then [ResultFactory n]
     else [ResultFactory n; SharedFactory n; Agent (n / 2)])
    (n =? 0) /\
  (forall result log,
     bulk_then_execute f result_factory shared_factory n result log ->
     bulk_then_execute_log n log true) /\
  (forall (P : Type) (fp : N -> P * (R * Sh) -> P * (R * Sh)) (p : P) result log,
     bulk_then_execute_value result_factory shared_factory fp p n result log ->
     bulk_then_execute_log n log true).
Proof.
  assert (Hcount : forall t tr, runs t tr -> 0 < n ->
            count_result_factory (ResultFactory n :: SharedFactory n :: tr) = 1%nat /\
            count_shared_factory (ResultFactory n :: SharedFactory n :: tr)
              = if n =? 0 then 0%nat else 1%nat).
  { intros t tr Hrun Hn. destruct (runs_no_factory _ _ Hrun) as [H1 H2].
    destruct (N.eqb_spec n 0) as [->|_]; [lia|].
    unfold count_result_factory, count_shared_factory in *. cbn.
    now rewrite H1, H2. }
  split; [apply bulk_execute_factories|].
  split; [apply bulk_execute_factories|].
  split; [|split; [|split; [|split; [|split; [|split]]]]].
  - intros result log H.
    apply bulk_then_execute_inv in H
      as [(-> & -> & ->)|(Hn & fuel & t & tr & Ht & Hrun & -> & ->)].
    + split; reflexivity.
    + now apply (Hcount t).
  - intros P fp p result log H.
    apply bulk_then_execute_value_inv in H
      as [(-> & -> & ->)|(Hn & fuel & t & tr & Ht & Hrun & -> & ->)].
    + split; reflexivity.
    + now apply (Hcount t).
  - intros Hbound. split; [now apply bulk_then_execute_exists|].
    intros P fp p. now apply bulk_then_execute_value_exists.
  - intros log ready [Hn|Hn|tr ready' Hn Hlog|Hn].
    + destruct (N.eqb_spec n 0) as [Hz|_]; [lia|].
      split; [cbn; lia|]. split; [cbn; lia|]. split.
      * intros [H|H]; [discriminate|now contradiction H].
      * intros [|c before] i rest H; discriminate H.
    + destruct (N.eqb_spec n 0) as [Hz|_]; [lia|].
      split; [cbn; lia|]. split; [cbn; lia|]. split.
      * intros [H|H]; [discriminate|now contradiction H].
      * intros [|c [|c' before]] i rest H; discriminate H.
    + destruct (N.eqb_spec n 0) as [Hz|_]; [lia|].
      destruct (then_log_no_factory _ _ _ Hlog) as [H1 H2].
      assert (Hboth :
        count_result_factory (ResultFactory n :: SharedFactory n :: tr) = 1%nat /\
        count_shared_factory (ResultFactory n :: SharedFactory n :: tr) = 1%nat).
      { unfold count_result_factory, count_shared_factory in *. cbn.
        now rewrite H1, H2. }
      split; [lia|]. split; [lia|]. split; [intros _; exact Hboth|].
      intros [|c [|c' before]] i rest H; [discriminate H..|].
      injection H as <- <- H.
      destruct (count_factories_prefix before (Agent i :: rest) tr H1 H2 H) as [H1' H2'].
      unfold count_result_factory, count_shared_factory in *. cbn.
      now rewrite H1', H2'.
    + subst n. split; [cbn; lia|]. split; [cbn; lia|]. split.
      * intros _. split; reflexivity.
      * intros [|c [|c' before]] i rest H; discriminate H.
  - destruct (N.eqb_spec n 0) as [Hn|Hn]; [now apply log_nothing|].
    apply log_tasks; [lia|apply then_log_own_agent].
  - intros result log H.
    apply bulk_then_execute_inv in H
      as [(Hn & -> & ->)|(Hn & fuel & t & tr & Ht & Hrun & -> & ->)].
    + now apply log_nothing.
    + apply log_tasks; [exact Hn|exact (runs_then_log _ _ _ _ Ht Hrun)].
  - intros P fp p result log H.
    apply bulk_then_execute_value_inv in H
      as [(Hn & -> & ->)|(Hn & fuel & t & tr & Ht & Hrun & -> & ->)].
    + now apply log_nothing.
    + apply log_tasks; [exact Hn|exact (runs_then_log _ _ _ _ Ht Hrun)].
Qed.

(** C6 as stated fails for [n = 0]: the continuation executor returns
    [make_ready_future(result_factory(0))] and never calls the shared
    factory. *)
Lemma no_shared_factory_call_for_zero :
  bulk_then_execute store_index zeros no_shared 0 [] [ResultFactory 0] /\
  count_shared_factory [ResultFactory 0] = 0%nat /\
  ~ (forall result log,
       bulk_then_execute store_index zeros no_shared 0 result log ->
       factories_once_each log).
Proof.
  assert (H : bulk_then_execute store_index zeros no_shared 0 [] [ResultFactory 0])
    by (apply (then_nothing store_index zeros no_shared 0); reflexivity).
  split; [exact H|]. split; [reflexivity|].
  intros Hall. destruct (Hall _ _ H) as [_ Hshared]. discriminate Hshared.
Qed.

(** ** The grid executor *)

Import Grid.

(** *** Runs of a block *)

Section BlockRuns.

Context {T1 T2 : Type}.

Implicit Types ts : list (list (instr T2)).

Lemma step_thread_inv t ts ts' e :
  step (RunThread t) ts = Some (ts', e) ->
  exists i rest,
    ts !! t = Some (i :: rest) /\ is_sync i = false /\
    ts' = <[t := rest]> ts /\ e = Did t i.
Proof.
  cbn [step]. destruct (ts !! t) as [[|i rest]|]; try discriminate.
  destruct (is_sync i) eqn:Hi; [discriminate|].
  intros [= <- <-]. now exists i, rest.
Qed.

Lemma step_release_inv ts ts' e :
  step ReleaseBarrier ts = Some (ts', e) ->
  Forall (fun p => at_barrier p = true) ts /\ ts <> [] /\
  ts' = tail <$> ts /\ e = Released.
Proof.
  cbn [step]. destruct (forallb at_barrier ts) eqn:Hall; [|discriminate].
  destruct ts as [|p ts]; [discriminate|]. cbn. intros [= <- <-].
  repeat split; [|discriminate].
  apply Forall_forall. intros q Hq. apply list_elem_of_In in Hq.
  rewrite forallb_forall in Hall. now apply Hall.
Qed.

Lemma run_cons_inv c sched ts ts' tr :
  run (c :: sched) ts = Some (ts', tr) ->
  exists ts1 e tr1,
    step c ts = Some (ts1, e) /\ run sched ts1 = Some (ts', tr1) /\ tr = e :: tr1.
Proof.
  cbn [run]. destruct (step c ts) as [[ts1 e]|]; [|discriminate].
  destruct (run sched ts1) as [[ts2 tr1]|] eqn:Hrun; [|discriminate].
  intros [= <- <-]. now exists ts1, e, tr1.
Qed.

Lemma finished_lookup ts t p : finished ts = true -> ts !! t = Some p -> p = [].
Proof.
  unfold finished. rewrite forallb_forall. intros Hall Hp.
  apply list_elem_of_lookup_2, list_elem_of_In, Hall in Hp. now destruct p.
Qed.

Lemma lookup_0_nonempty ts : ts <> [] -> exists p, ts !! 0%nat = Some p.
Proof. destruct ts as [|p ts]; [congruence|]. now exists p. Qed.

Lemma insert_nonempty ts t p : ts <> [] -> <[t := p]> ts <> [].
Proof.
  intros Hne. destruct ts as [|q ts]; [congruence|]. now destruct t.
Qed.

Lemma destroy_step_0 (b : N) : destroy_step (T2 := T2) (b, N.of_nat 0) = [DestroyInner].
Proof. reflexivity. Qed.

Lemma destroy_step_S (b : N) t : destroy_step (T2 := T2) (b, N.of_nat (S t)) = [].
Proof. unfold destroy_step. cbn [snd]. now destruct (N.eqb_spec (N.of_nat (S t)) 0); [lia|]. Qed.

Lemma construct_step_0 (init : T2) (b : N) :
  construct_step init (b, N.of_nat 0) = [ConstructInner init].
Proof. reflexivity. Qed.

Lemma construct_step_S (init : T2) (b : N) t :
  construct_step init (b, N.of_nat (S t)) = [].
Proof. unfold construct_step. cbn [snd]. now destruct (N.eqb_spec (N.of_nat (S t)) 0); [lia|]. Qed.

Variables (init : T2) (o : bool) (b : N).

(** After the second barrier only the designated thread has a step left:
    the destruction. *)
Lemma run_after_second_barrier sched : forall ts ts' tr,
  after_second_barrier b ts ->
  run sched ts = Some (ts', tr) ->
  (tr = [] /\ ts' = ts) \/
  (tr = [Did 0 DestroyInner] /\ ts !! 0%nat = Some [DestroyInner] /\
   ts' !! 0%nat = Some []).
Proof.
  induction sched as [|c sched IH]; intros ts ts' tr Hphase Hrun.
  - injection Hrun as <- <-. now left.
  - apply run_cons_inv in Hrun as (ts1 & e & tr1 & Hstep & Hrun & ->).
    destruct c as [t|].
    + apply step_thread_inv in Hstep as (i & rest & Hlook & _ & -> & ->).
      destruct (Hphase _ _ Hlook) as [Hp|Hp]; [|discriminate].
      destruct t as [|t]; [|rewrite destroy_step_S in Hp; discriminate].
      rewrite destroy_step_0 in Hp. injection Hp as -> ->.
      assert (Hlook1 : <[0%nat := []]> ts !! 0%nat = Some []).
      { apply list_lookup_insert_eq. now apply lookup_lt_Some in Hlook. }
      assert (Hphase1 : after_second_barrier b (<[0%nat := []]> ts)).
      { intros t p. destruct (decide (t = 0%nat)) as [->|Hne].
        - rewrite Hlook1. intros [= <-]. now right.
        - rewrite list_lookup_insert_ne by congruence. apply Hphase. }
      right. destruct (IH _ _ _ Hphase1 Hrun) as [[-> ->]|(_ & Hcontra & _)].
      * now repeat split.
      * rewrite Hlook1 in Hcontra. discriminate.
    + apply step_release_inv in Hstep as (Hall & Hne & _).
      destruct (lookup_0_nonempty ts Hne) as [p Hp].
      pose proof (Forall_lookup_1 _ _ _ _ Hall Hp) as Hbar.
      destruct (Hphase _ _ Hp) as [->| ->]; discriminate.
Qed.

(** Between the barriers the threads invoke [f_], each once, in any
    order; then the second barrier releases and the designated thread
    destroys the shared object. *)
Lemma run_between_barriers sched : forall ts ts' tr,
  between_barriers o b ts -> ts <> [] ->
  run sched ts = Some (ts', tr) -> finished ts' = true ->
  exists uses,
    tr = uses ++ [Released; Did 0 DestroyInner] /\ NoDup uses /\
    forall e, e ∈ uses <->
      exists t, e = Did t (use o b t) /\
        ts !! t = Some ([use o b t; Syncthreads] ++ destroy_step (b, N.of_nat t)).
Proof.
  induction sched as [|c sched IH]; intros ts ts' tr Hphase Hne Hrun Hfin.
  - injection Hrun as <- <-. destruct (lookup_0_nonempty ts Hne) as [p Hp].
    rewrite (finished_lookup _ _ _ Hfin Hp) in Hp.
    destruct (Hphase _ _ Hp); discriminate.
  - apply run_cons_inv in Hrun as (ts1 & e & tr1 & Hstep & Hrun & ->).
    destruct c as [t|].
    + apply step_thread_inv in Hstep as (i & rest & Hlook & Hsync & -> & ->).
      destruct (Hphase _ _ Hlook) as [Hp|Hp];
        [|injection Hp as -> _; discriminate].
      injection Hp as -> ->.
      assert (Hlt : (t < length ts)%nat) by now apply lookup_lt_Some in Hlook.
      set (ts1 := <[t := [Syncthreads] ++ destroy_step (b, N.of_nat t)]> ts) in *.
      assert (Hlook1 : ts1 !! t = Some (Syncthreads :: destroy_step (b, N.of_nat t)))
        by now apply list_lookup_insert_eq.
      destruct (IH ts1 ts' tr1) as (uses & -> & Hnodup & Hmem);
        [|now apply insert_nonempty|assumption..|].
      { intros t' p. destruct (decide (t' = t)) as [->|Hne'].
        - rewrite Hlook1. intros [= <-]. now right.
        - unfold ts1. rewrite list_lookup_insert_ne by congruence. apply Hphase. }
      exists (Did t (use o b t) :: uses). split; [reflexivity|]. split.
      * constructor; [|assumption]. intros Hin.
        apply Hmem in Hin as (t' & [= <- _] & Hpending).
        rewrite Hlook1 in Hpending. discriminate.
      * intros e. rewrite elem_of_cons, Hmem. split.
        -- intros [->|(t' & -> & Hpending)]; [now exists t|].
           exists t'. split; [reflexivity|].
           destruct (decide (t' = t)) as [->|Hne'];
             [rewrite Hlook1 in Hpending; discriminate|].
           unfold ts1 in Hpending.
           now rewrite list_lookup_insert_ne in Hpending by congruence.
        -- intros (t' & -> & Hpending).
           destruct (decide (t' = t)) as [->|Hne']; [now left|]. right.
           exists t'. split; [reflexivity|].
           unfold ts1. now rewrite list_lookup_insert_ne by congruence.
    + apply step_release_inv in Hstep as (Hall & _ & -> & ->).
      assert (Hbar : forall t p, ts !! t = Some p ->
                p = Syncthreads :: destroy_step (b, N.of_nat t)).
      { intros t p Hp. pose proof (Forall_lookup_1 _ _ _ _ Hall Hp) as Hat.
        destruct (Hphase _ _ Hp) as [->| ->]; [discriminate|reflexivity]. }
      destruct (lookup_0_nonempty ts Hne) as [p0 Hp0].
      assert (Hlook0 : (tail <$> ts) !! 0%nat = Some [DestroyInner]).
      { rewrite list_lookup_fmap, Hp0, (Hbar _ _ Hp0). reflexivity. }
      destruct (run_after_second_barrier sched (tail <$> ts) ts' tr1)
        as [[-> ->]|(-> & _ & _)]; [|assumption|..].
      { intros t p. rewrite list_lookup_fmap.
        destruct (ts !! t) as [q|] eqn:Hq; [|discriminate].
        rewrite (Hbar _ _ Hq). intros [= <-]. now left. }
      * pose proof (finished_lookup _ _ _ Hfin Hlook0). discriminate.
      * exists []. split; [reflexivity|]. split; [constructor|].
        intros e. split; [intros Hin; now apply elem_of_nil in Hin|].
        intros (t & _ & Hpending). pose proof (Hbar _ _ Hpending) as Hcontra.
        discriminate Hcontra.
Qed.

(** Before the first barrier only the designated thread has a step to
    take: the construction.  Then the barrier releases. *)
Lemma run_before_first_barrier sched : forall ts ts' tr,
  before_first_barrier init o b ts -> ts <> [] ->
  run sched ts = Some (ts', tr) -> finished ts' = true ->
  exists uses,
    ((ts !! 0%nat = Some (marshal init o (b, N.of_nat 0)) /\
      tr = [Did 0 (ConstructInner init); Released] ++ uses
             ++ [Released; Did 0 DestroyInner]) \/
     (ts !! 0%nat = Some ([Syncthreads; use o b 0; Syncthreads] ++ [DestroyInner]) /\
      tr = [Released] ++ uses ++ [Released; Did 0 DestroyInner])) /\
    NoDup uses /\
    forall e, e ∈ uses <-> exists t, e = Did t (use o b t) /\ (t < length ts)%nat.
Proof.
  induction sched as [|c sched IH]; intros ts ts' tr Hphase Hne Hrun Hfin.
  - injection Hrun as <- <-. destruct (lookup_0_nonempty ts Hne) as [p Hp].
    rewrite (finished_lookup _ _ _ Hfin Hp) in Hp.
    destruct (Hphase _ _ Hp) as [Hq|Hq]; [|discriminate].
    unfold marshal in Hq. rewrite construct_step_0 in Hq. discriminate.
  - apply run_cons_inv in Hrun as (ts1 & e & tr1 & Hstep & Hrun & ->).
    destruct c as [t|].
    + apply step_thread_inv in Hstep as (i & rest & Hlook & Hsync & -> & ->).
      assert (Hlt : (t < length ts)%nat) by now apply lookup_lt_Some in Hlook.
      destruct (Hphase _ _ Hlook) as [Hp|Hp];
        [|injection Hp as -> _; discriminate].
      destruct t as [|t].
      2:{ unfold marshal in Hp. rewrite construct_step_S in Hp.
          injection Hp as -> _. discriminate. }
      unfold marshal in Hp. rewrite construct_step_0, destroy_step_0 in Hp.
      injection Hp as -> ->.
      set (ts1 := <[0%nat := [Syncthreads; Invoke (b, N.of_nat 0) (Some (o, true));
                               Syncthreads] ++ [DestroyInner]]> ts) in *.
      assert (Hlook1 : ts1 !! 0%nat =
                Some ([Syncthreads; use o b 0; Syncthreads] ++ [DestroyInner]))
        by now apply list_lookup_insert_eq.
      destruct (IH ts1 ts' tr1) as (uses & Hshape & Hnodup & Hmem);
        [|now apply insert_nonempty|assumption..|].
      { intros t' p. destruct (decide (t' = 0%nat)) as [->|Hne'].
        - rewrite Hlook1. intros [= <-]. right. now rewrite destroy_step_0.
        - unfold ts1. rewrite list_lookup_insert_ne by congruence. apply Hphase. }
      exists uses. split; [|split; [assumption|]].
      * left. split.
        -- rewrite Hlook. unfold marshal. now rewrite construct_step_0, destroy_step_0.
        -- destruct Hshape as [[Hcontra _]|[_ ->]]; [|reflexivity].
           rewrite Hlook1 in Hcontra. unfold marshal in Hcontra.
           rewrite construct_step_0 in Hcontra. discriminate.
      * intros e. rewrite Hmem. unfold ts1. now rewrite length_insert.
    + apply step_release_inv in Hstep as (Hall & _ & -> & ->).
      assert (Hbar : forall t p, ts !! t = Some p ->
                p = [Syncthreads; use o b t; Syncthreads] ++ destroy_step (b, N.of_nat t)).
      { intros t p Hp. pose proof (Forall_lookup_1 _ _ _ _ Hall Hp) as Hat.
        destruct (Hphase _ _ Hp) as [->| ->]; [|reflexivity].
        destruct t as [|t]; unfold marshal in *.
        - rewrite construct_step_0 in Hat. discriminate.
        - now rewrite construct_step_S. }
      assert (Hlook : forall t, (tail <$> ts) !! t =
                (fun _ => [use o b t; Syncthreads] ++ destroy_step (b, N.of_nat t))
                  <$> ts !! t).
      { intros t. rewrite list_lookup_fmap.
        destruct (ts !! t) as [q|] eqn:Hq; [|reflexivity].
        now rewrite (Hbar _ _ Hq). }
      destruct (run_between_barriers sched (tail <$> ts) ts' tr1)
        as (uses & -> & Hnodup & Hmem); [| |assumption..|].
      { intros t p. rewrite Hlook.
        destruct (ts !! t); [|discriminate]. intros [= <-]. now left. }
      { now destruct ts. }
      exists uses. split; [|split; [assumption|]].
      * right. split; [|reflexivity].
        destruct (lookup_0_nonempty ts Hne) as [p0 Hp0].
        now rewrite Hp0, (Hbar _ _ Hp0), destroy_step_0.
      * intros e. rewrite Hmem. split; intros (t & -> & Ht); exists t;
          (split; [reflexivity|]).
        -- rewrite Hlook in Ht. apply lookup_lt_is_Some.
           destruct (ts !! t); [eauto|discriminate].
        -- rewrite Hlook. apply lookup_lt_is_Some in Ht as [q ->]. reflexivity.
Qed.

Lemma block_marshal (g : functor T1 T2) (m : nat) :
  marshals_inner g = Some (init, o) ->
  block g b m = (fun t => marshal init o (b, N.of_nat t)) <$> seq 0 m.
Proof.
  intros Hg. unfold block. apply list_fmap_ext. intros _ t _.
  destruct g; cbn in Hg; try discriminate; now injection Hg as <- <-.
Qed.

End BlockRuns.

(** *** A run that completes: the threads in the order of their index *)

Section InOrder.

Context {T2 : Type}.
Variables (init : T2) (o : bool) (b : N).

Lemma insert_fmap_seq {A : Type} (f g : nat -> A) (j m : nat) (x : A) :
  (j < m)%nat -> x = g j -> (forall t, t <> j -> g t = f t) ->
  <[j := x]> (f <$> seq 0 m) = g <$> seq 0 m.
Proof.
  intros Hj -> Hfg. apply list_eq. intros i.
  destruct (decide (i = j)) as [->|Hne].
  - rewrite list_lookup_insert_eq by now rewrite length_fmap, length_seq.
    rewrite list_lookup_fmap, lookup_seq_lt by assumption. reflexivity.
  - rewrite list_lookup_insert_ne by congruence. rewrite !list_lookup_fmap.
    destruct (seq 0 m !! i) as [t|] eqn:Ht; [|reflexivity].
    apply lookup_seq in Ht as [-> _]. cbn. now rewrite Hfg.
Qed.

Lemma forallb_fmap_seq {A : Type} (p : A -> bool) (f : nat -> A) (m : nat) :
  (forall t, (t < m)%nat -> p (f t) = true) -> forallb p (f <$> seq 0 m) = true.
Proof.
  intros Hp. apply forallb_forall. intros x Hx.
  apply list_elem_of_In, list_elem_of_fmap in Hx as (t & -> & Ht).
  apply elem_of_seq in Ht. apply Hp. lia.
Qed.

Lemma run_app (s1 s2 : list choice) (ts ts1 ts2 : list (list (instr T2))) tr1 tr2 :
  run s1 ts = Some (ts1, tr1) -> run s2 ts1 = Some (ts2, tr2) ->
  run (s1 ++ s2) ts = Some (ts2, tr1 ++ tr2).
Proof.
  revert ts tr1. induction s1 as [|c s1 IH]; intros ts tr1; cbn [run app].
  - now intros [= <- <-].
  - destruct (step c ts) as [[ts' e]|]; [|discriminate].
    destruct (run s1 ts') as [[ts'' es]|] eqn:Hrun; [|discriminate].
    intros [= <- <-] H2. now rewrite (IH _ _ Hrun H2).
Qed.

(** The threads below [j] wait at the second barrier, the others have
    their invocation of [f_] ahead. *)
Local Abbreviation stretch j :=
  (fun t : nat =>
     if (t <? j)%nat
     then (Syncthreads :: destroy_step (b, N.of_nat t) : list (instr T2))
     else [use o b t; Syncthreads] ++ destroy_step (b, N.of_nat t)).

Lemma run_uses_in_order (m k : nat) : forall j,
  (j + k <= m)%nat ->
  run (RunThread <$> seq j k) (stretch j <$> seq 0 m)
  = Some (stretch (j + k) <$> seq 0 m, (fun t => Did t (use o b t)) <$> seq j k).
Proof.
  induction k as [|k IH]; intros j Hjk.
  - cbn. now rewrite Nat.add_0_r.
  - cbn [seq fmap list_fmap run step].
    rewrite list_lookup_fmap, lookup_seq_lt by lia. cbn [fmap option_fmap option_map].
    rewrite Nat.ltb_irrefl. cbn [app is_sync use].
    rewrite (insert_fmap_seq _ (stretch (S j)) j m).
    + change (list_fmap nat choice RunThread (seq (S j) k))
        with (RunThread <$> seq (S j) k).
      rewrite (IH (S j)) by lia.
      now replace (S j + k)%nat with (j + S k)%nat by lia.
    + lia.
    + now destruct (Nat.ltb_spec j (S j)); [|lia].
    + intros t Ht. destruct (Nat.ltb_spec t (S j)), (Nat.ltb_spec t j);
        (reflexivity || lia).
Qed.

Lemma run_in_order (m : nat) :
  (1 <= m)%nat ->
  exists ts tr,
    run (in_order m) ((fun t => marshal init o (b, N.of_nat t)) <$> seq 0 m)
      = Some (ts, tr) /\
    finished ts = true.
Proof.
  intros Hm. unfold in_order.
  set (waiting := fun t : nat =>
         [Syncthreads; use o b t; Syncthreads] ++ destroy_step (b, N.of_nat t)
         : list (instr T2)).
  set (phase := fun j : nat => stretch j).
  set (last_step := fun t : nat => destroy_step (T2 := T2) (b, N.of_nat t)).
  set (done := fun t : nat => @nil (instr T2)).
  assert (H1 : run [RunThread 0; ReleaseBarrier]
                 ((fun t => marshal init o (b, N.of_nat t)) <$> seq 0 m)
               = Some (phase 0%nat <$> seq 0 m,
                       [Did 0 (ConstructInner init); Released])).
  { cbn [run step]. rewrite list_lookup_fmap, lookup_seq_lt by lia.
    cbn [fmap option_fmap option_map]. unfold marshal at 1.
    rewrite construct_step_0. cbn [app is_sync].
    rewrite (insert_fmap_seq _ waiting 0 m);
      [|lia|unfold waiting; now rewrite destroy_step_0|].
    2:{ intros [|t] Ht; [lia|]. unfold waiting, marshal.
        now rewrite construct_step_S. }
    rewrite forallb_fmap_seq by reflexivity.
    replace (negb (no_threads (waiting <$> seq 0 m))) with true
      by (destruct m; [lia|reflexivity]).
    cbn [andb]. do 2 f_equal.
    rewrite <- list_fmap_compose. apply list_fmap_ext. intros i t _. reflexivity. }
  assert (H2 : run (RunThread <$> seq 0 m) (phase 0%nat <$> seq 0 m)
               = Some (phase m <$> seq 0 m, (fun t => Did t (use o b t)) <$> seq 0 m))
    by (apply (run_uses_in_order m m 0); lia).
  assert (H3 : run [ReleaseBarrier; RunThread 0] (phase m <$> seq 0 m)
               = Some (done <$> seq 0 m, [Released; Did 0 DestroyInner])).
  { cbn [run step].
    rewrite forallb_fmap_seq
      by (intros t Ht; unfold phase; now destruct (Nat.ltb_spec t m); [|lia]).
    assert (Htail : tail <$> (phase m <$> seq 0 m) = last_step <$> seq 0 m).
    { rewrite <- list_fmap_compose. apply list_fmap_ext. intros i t Ht.
      apply lookup_seq in Ht as [-> Hi]. cbn. unfold phase.
      now destruct (Nat.ltb_spec i m); [|lia]. }
    rewrite Htail.
    replace (negb (no_threads (phase m <$> seq 0 m))) with true
      by (destruct m; [lia|reflexivity]).
    cbn [andb]. rewrite list_lookup_fmap, lookup_seq_lt by lia.
    cbn [fmap option_fmap option_map]. unfold last_step at 1.
    rewrite destroy_step_0. cbn [is_sync].
    rewrite (insert_fmap_seq _ done 0 m); [reflexivity|lia|reflexivity|].
    intros [|t] Ht; [lia|]. unfold last_step, done. now rewrite destroy_step_S. }
  exists (done <$> seq 0 m). eexists. split.
  - eapply run_app; [exact H1|]. eapply run_app; [exact H2|exact H3].
  - unfold finished. now apply forallb_fmap_seq.
Qed.

End InOrder.

(** C4: in a block of [m >= 1] agents that runs one of the two function
    objects marshaling an inner shared parameter, some schedule runs all
    agents to the end, and every schedule that does so yields the same
    course of events: the agent with inner index [0] constructs the shared
    object from its initial value; the barrier releases; every agent of the
    block invokes [f_] once, with a reference to the inner shared object,
    in some order; the barrier releases again; the agent with inner index
    [0] destroys the object.  So there is one construction, before every
    use, and one destruction, after every use, both by the same agent. *)
Theorem shared_object_protocol {T1 T2 : Type}
    (g : functor T1 T2) (init : T2) (o : bool) (b : N) (m : nat) :
  marshals_inner g = Some (init, o) ->
  (1 <= m)%nat ->
  (exists ts tr,
     run (in_order m) (block g b m) = Some (ts, tr) /\ finished ts = true) /\
  forall sched ts tr,
    run sched (block g b m) = Some (ts, tr) -> finished ts = true ->
    exists uses,
      tr = [Did 0 (ConstructInner init); Released] ++ uses
             ++ [Released; Did 0 DestroyInner] /\
      uses ≡ₚ (fun t => Did t (Invoke (b, N.of_nat t) (Some (o, true)))) <$> seq 0 m.
Proof.
  intros Hg Hm. rewrite (block_marshal init o b g m Hg).
  split; [now apply run_in_order|].
  intros sched ts tr Hrun Hfin.
  assert (Hphase : before_first_barrier init o b
            ((fun t => marshal init o (b, N.of_nat t)) <$> seq 0 m)).
  { intros t p. rewrite list_lookup_fmap.
    destruct (seq 0 m !! t) as [t'|] eqn:Ht; [|discriminate].
    apply lookup_seq in Ht as [-> _]. intros [= <-]. now left. }
  assert (Hne : (fun t => marshal init o (b, N.of_nat t)) <$> seq 0 m <> [])
    by (destruct m; [lia|discriminate]).
  destruct (run_before_first_barrier init o b sched _ _ _ Hphase Hne Hrun Hfin)
    as (uses & Hshape & Hnodup & Hmem).
  exists uses. split.
  - destruct Hshape as [[_ ->]|[Hcontra _]]; [reflexivity|].
    rewrite list_lookup_fmap, lookup_seq_lt in Hcontra by lia.
    cbn in Hcontra. discriminate.
  - apply NoDup_Permutation; [assumption| |].
    + apply NoDup_fmap_2_strong; [|apply NoDup_seq]. intros t t' _ _ Heq. congruence.
    + intros e. rewrite Hmem, list_elem_of_fmap, length_fmap, length_seq.
      split; intros (t & -> & Ht); exists t; (split; [reflexivity|]).
      * apply elem_of_seq. lia.
      * apply elem_of_seq in Ht. lia.
Qed.

(** C4 on a block of two agents that marshals an outer and an inner
    shared parameter. *)
Lemma shared_object_protocol_witness :
  (exists ts tr,
     run (in_order 2) (block (with_both tt tt) 0 2) = Some (ts, tr) /\
     finished ts = true) /\
  forall sched ts tr,
    run sched (block (with_both tt tt) 0 2) = Some (ts, tr) -> finished ts = true ->
    exists uses,
      tr = [Did 0 (ConstructInner tt); Released] ++ uses
             ++ [Released; Did 0 DestroyInner] /\
      uses ≡ₚ (fun t => Did t (Invoke (0, N.of_nat t) (Some (true, true)))) <$> seq 0 2.
Proof.
  apply (shared_object_protocol (with_both tt tt) tt true 0 2); [reflexivity|lia].
Defined.

(** *** Absent shared arguments *)

Lemma run_plain_block {T1 T2 : Type} (b : N) (sched : list choice) :
  forall (ts ts' : list (list (instr T2))) tr,
    (forall t p, ts !! t = Some p -> p = [Invoke (b, N.of_nat t) None] \/ p = []) ->
    run sched ts = Some (ts', tr) ->
    forall e, e ∈ tr -> exists t, e = Did t (Invoke (b, N.of_nat t) None).
Proof.
  induction sched as [|c sched IH]; intros ts ts' tr Hts Hrun e He.
  - injection Hrun as <- <-. now apply elem_of_nil in He.
  - apply run_cons_inv in Hrun as (ts1 & e1 & tr1 & Hstep & Hrun & ->).
    destruct c as [t|].
    + apply step_thread_inv in Hstep as (i & rest & Hlook & _ & -> & ->).
      destruct (Hts _ _ Hlook) as [Hp|Hp]; [|discriminate]. injection Hp as -> ->.
      apply elem_of_cons in He as [->|He]; [now exists t|].
      eapply IH; [|exact Hrun|exact He].
      intros t' p. destruct (decide (t' = t)) as [->|Hne].
      * rewrite list_lookup_insert_eq by now apply lookup_lt_Some in Hlook.
        intros [= <-]. now right.
      * rewrite list_lookup_insert_ne by congruence. apply Hts.
    + apply step_release_inv in Hstep as (Hall & Hne & _).
      destruct (lookup_0_nonempty ts Hne) as [p Hp].
      pose proof (Forall_lookup_1 _ _ _ _ Hall Hp) as Hbar.
      destruct (Hts _ _ Hp) as [->| ->]; discriminate.
Qed.

(** C9: with both shared arguments absent, the shared-argument entry
    points do what the entry points without shared arguments do: they
    launch the caller's [f] itself over the same shape, with no outer
    object made, and every agent takes the single step [f(idx)]; in every
    run of a block each event is such an invocation, so no barrier is
    passed and no shared object is constructed or destroyed. *)
Theorem absent_shared_arguments {T1 T2 : Type} (shape : N * N) :
  bulk_async_shared shape (@ignore T1, @ignore T2) = Grid.bulk_async plain shape /\
  bulk_invoke_shared shape (@ignore T1, @ignore T2) = Grid.bulk_invoke plain shape /\
  launches (bulk_async_shared shape (@ignore T1, @ignore T2)) = [(plain, shape)] /\
  launches (bulk_invoke_shared shape (@ignore T1, @ignore T2)) = [(plain, shape)] /\
  (forall idx, call_operator (@plain T1 T2) idx = [Invoke idx None]) /\
  forall b m sched ts tr,
    run sched (block (@plain T1 T2) b m) = Some (ts, tr) ->
    forall e, e ∈ tr -> exists t, e = Did t (Invoke (b, N.of_nat t) None).
Proof.
  repeat split.
  intros b m sched ts tr Hrun. eapply (run_plain_block (T1 := T1)); [|exact Hrun].
  intros t p. unfold block. rewrite list_lookup_fmap.
  destruct (seq 0 m !! t) as [t'|] eqn:Ht; [|discriminate].
  apply lookup_seq in Ht as [-> _]. intros [= <-]. now left.
Qed.

(** *** [max_shape] and the active device *)

(** C5 at the failing input: the active device is [0], the executor's
    device is [1], and the device attribute query, or the function
    attribute query, fails.  [max_shape] throws, and device [1] stays
    active.  (With a runtime that serves every call it returns the limits
    and device [0] is active again.) *)
Theorem max_shape_throws_with_device_switched :
  max_shape failing_attribute_query 1%Z 0%Z
    = (inl (make_error op_cudaDeviceGetAttribute cudaErrorInvalidValue), 1%Z) /\
  max_shape failing_function_query 1%Z 0%Z
    = (inl (make_error op_cudaFuncGetAttributes cudaErrorInvalidDeviceFunction), 1%Z) /\
  max_shape healthy 1%Z 0%Z = (inr (1024, 1024), 0%Z).
Proof. repeat split. Qed.

(** When [max_shape] returns, the device that was active is active
    again. *)
Lemma max_shape_restores_on_return (rt : runtime) (gpu dev dev' : Z) (shape : N * N) :
  max_shape rt gpu dev = (inr shape, dev') -> dev' = dev.
Proof.
  unfold max_shape, cuda_bind, cudaGetDevice, cudaSetDevice, cudaDeviceGetAttribute,
    cudaFuncGetAttributes, throw_on_error, cuda_ret.
  destruct (is_success (get_device_status rt)) eqn:E1; cbn [fst snd];
    [|rewrite E1; discriminate].
  cbn [is_success].
  destruct (Z.eqb_spec dev gpu) as [->|Hne].
  - destruct (is_success (max_block_dim_x rt).1) eqn:E3; cbn [fst snd];
      rewrite ?E3; [|discriminate].
    destruct (is_success (max_threads_per_block rt).1) eqn:E4; cbn [fst snd];
      rewrite ?E4; [|discriminate].
    now intros [= _ <-].
  - destruct (is_success (set_device_status rt gpu)) eqn:E2; cbn [is_success];
      rewrite ?E2; [|discriminate].
    destruct (is_success (max_block_dim_x rt).1) eqn:E3; cbn [fst snd];
      rewrite ?E3; [|discriminate].
    destruct (is_success (max_threads_per_block rt).1) eqn:E4; cbn [fst snd];
      rewrite ?E4; [|discriminate].
    destruct (is_success (set_device_status rt dev)) eqn:E5; cbn [is_success];
      rewrite ?E5; [|discriminate].
    now intros [= _ <-].
Qed.

(** ** [detail::copy] *)

Import Copy.

Section CopyFacts.

Local Open Scope Z_scope.

Context {V : Type}.

Implicit Types mem : Z -> V.

Lemma store_eq mem p v : store mem p v p = v.
Proof. unfold store. now rewrite Z.eqb_refl. Qed.

Lemma store_ne mem p q v : q <> p -> store mem p v q = mem q.
Proof. unfold store. intros H. now destruct (Z.eqb_spec q p). Qed.

(** The sequenced overload: on an output range that does not start inside
    the input range it returns [result + n], leaves [first[i]] in
    [result[i]] for every [i] of [0 .. n-1], and changes nothing outside
    the output range. *)
Lemma copy_loop_spec count : forall first result mem,
  result <= first \/ first + Z.of_nat count <= result ->
  (copy_loop count first result mem).2 = result + Z.of_nat count /\
  (forall i, 0 <= i < Z.of_nat count ->
     (copy_loop count first result mem).1 (result + i) = mem (first + i)) /\
  (forall q, q < result \/ result + Z.of_nat count <= q ->
     (copy_loop count first result mem).1 q = mem q).
Proof.
  induction count as [|count IH]; intros first result mem Hsep.
  - cbn. repeat split; intros; (lia || reflexivity).
  - cbn [copy_loop].
    destruct (IH (first + 1) (result + 1) (store mem result (mem first)))
      as (Hret & Hcopied & Hframe); [lia|].
    split; [lia|]. split.
    + intros i Hi. destruct (Z.eq_dec i 0) as [->|Hne].
      * rewrite Z.add_0_r, Hframe by lia. rewrite store_eq. now rewrite Z.add_0_r.
      * replace (result + i) with (result + 1 + (i - 1)) by lia.
        rewrite Hcopied by lia. rewrite store_ne by lia. f_equal. lia.
    + intros q Hq. rewrite Hframe by lia. apply store_ne. lia.
Qed.

Lemma copy_sequenced_spec first last result mem :
  first <= last -> result <= first \/ last <= result ->
  (copy sequenced_policy (ranks (last - first)) first last result mem).2
    = result + (last - first) /\
  forall i, 0 <= i < last - first ->
    (copy sequenced_policy (ranks (last - first)) first last result mem).1 (result + i)
      = mem (first + i).
Proof.
  intros Hvalid Hsep. cbn [copy]. unfold copy_sequenced.
  destruct (copy_loop_spec (Z.to_nat (last - first)) first result mem)
    as (Hret & Hcopied & _); [lia|].
  split; [lia|]. intros i Hi. apply Hcopied. lia.
Qed.

(** The overload for other policies: on an output range apart from the
    input range, and whatever the order of the agents, it leaves
    [first[i]] in [result[i]] for every [i] of [0 .. n-1]. *)
Lemma bulk_invoke_copy_functor (order : list Z) n first result : forall mem0 mem,
  result + n <= first \/ first + n <= result ->
  (forall i, i ∈ order -> 0 <= i < n) ->
  (forall q, first <= q < first + n -> mem q = mem0 q) ->
  let mem' := bulk_invoke order (fun i => copy_functor i first result) mem in
  (forall i, i ∈ order -> mem' (result + i) = mem0 (first + i)) /\
  (forall q, (forall i, i ∈ order -> q <> result + i) -> mem' q = mem q).
Proof.
  induction order as [|j order IH]; intros mem0 mem Hsep Hrange Hinput; cbn.
  - split; [intros i Hi; now apply elem_of_nil in Hi|reflexivity].
  - assert (Hj : 0 <= j < n) by (apply Hrange; now left).
    destruct (IH mem0 (copy_functor j first result mem)) as [Hcopied Hframe].
    + exact Hsep.
    + intros i Hi. apply Hrange. now right.
    + intros q Hq. unfold copy_functor. rewrite store_ne by lia. now apply Hinput.
    + unfold bulk_invoke in *. split.
      * intros i Hi. destruct (decide (i ∈ order)) as [Hin|Hout]; [now apply Hcopied|].
        apply elem_of_cons in Hi as [->|Hi]; [|contradiction].
        rewrite Hframe.
        -- unfold copy_functor. rewrite store_eq. apply Hinput. lia.
        -- intros i Hi Heq. assert (i = j) by lia. congruence.
      * intros q Hq. rewrite Hframe.
        -- unfold copy_functor. apply store_ne. apply Hq. now left.
        -- intros i Hi. apply Hq. now right.
Qed.

Lemma copy_random_access_writes (order : list Z) first last result mem :
  first <= last ->
  result + (last - first) <= first \/ last <= result ->
  order ≡ₚ ranks (last - first) ->
  forall i, 0 <= i < last - first ->
    (copy parallel_policy order first last result mem).1 (result + i) = mem (first + i).
Proof.
  intros Hvalid Hsep Horder i Hi. cbn [copy]. unfold copy_random_access. cbn [fst].
  assert (Hmem : forall j, j ∈ order <-> 0 <= j < last - first).
  { intros j. rewrite Horder. unfold ranks. rewrite elem_of_seqZ. lia. }
  destruct (bulk_invoke_copy_functor order (last - first) first result mem mem)
    as [Hcopied _]; [lia|now intros j Hj; apply Hmem|reflexivity|].
  apply Hcopied. now apply Hmem.
Qed.

(** Whatever the order of the agents and the contents of memory, that
    overload returns [last + n]. *)
Lemma copy_random_access_return (order : list Z) first last result mem :
  (copy parallel_policy order first last result mem).2 = last + (last - first).
Proof. reflexivity. Qed.

End CopyFacts.

(** C10 at the failing input: copying the three elements at [0, 3) to
    position [10] under a parallel policy returns [6], which is
    [last + n], where the sequenced overload returns [13], which is
    [result + n]. *)
Theorem copy_returns_input_end_plus_n {V : Type} (mem : Z -> V) :
  (copy parallel_policy (ranks 3) 0 3 10 mem).2 = 6%Z /\
  (copy sequenced_policy (ranks 3) 0 3 10 mem).2 = 13%Z.
Proof. split; reflexivity. Qed.

(** * Part III: further properties of the code *)

(** ** [detail::copy]: what is copied, and what is left alone *)

Section CopyContents.

Local Open Scope Z_scope.

Context {V : Type}.

Implicit Types mem : Z -> V.

(** The last iteration of the loop of the sequenced overload. *)
Lemma copy_loop_snoc count : forall first result mem,
  copy_loop (S count) first result mem =
    (store (copy_loop count first result mem).1 (result + Z.of_nat count)
       ((copy_loop count first result mem).1 (first + Z.of_nat count)),
     (copy_loop count first result mem).2 + 1).
Proof.
  induction count as [|count IH]; intros first result mem.
  - cbn. now rewrite !Z.add_0_r.
  - change (copy_loop (S (S count)) first result mem)
      with (copy_loop (S count) (first + 1) (result + 1) (store mem result (mem first))).
    rewrite IH. cbn [copy_loop].
    replace (result + 1 + Z.of_nat count) with (result + Z.of_nat (S count)) by lia.
    replace (first + 1 + Z.of_nat count) with (first + Z.of_nat (S count)) by lia.
    reflexivity.
Qed.

(** The loop writing [d > 0] positions after where it reads: what it
    reads from the [d]-th iteration on is what it wrote itself. *)
Lemma copy_loop_overlap d first mem count :
  0 < d ->
  (copy_loop count first (first + d) mem).2 = first + d + Z.of_nat count /\
  (forall i, 0 <= i < Z.of_nat count ->
     (copy_loop count first (first + d) mem).1 (first + d + i) = mem (first + i mod d)) /\
  (forall q, q < first + d \/ first + d + Z.of_nat count <= q ->
     (copy_loop count first (first + d) mem).1 q = mem q).
Proof.
  intros Hd. induction count as [|count (Hret & Hcopied & Hframe)].
  - cbn. repeat split; intros; (lia || reflexivity).
  - rewrite copy_loop_snoc. cbn [fst snd]. split; [lia|]. split.
    + intros i Hi. destruct (Z.eq_dec i (Z.of_nat count)) as [->|Hne].
      * rewrite store_eq.
        destruct (Z.lt_ge_cases (Z.of_nat count) d) as [Hlt|Hge].
        -- rewrite Hframe by lia. rewrite Z.mod_small by lia. reflexivity.
        -- replace (first + Z.of_nat count) with (first + d + (Z.of_nat count - d)) by lia.
           rewrite Hcopied by lia. f_equal. f_equal.
           replace (Z.of_nat count - d) with (Z.of_nat count + (-1) * d) by lia.
           apply Z_mod_plus_full.
      * rewrite store_ne by lia. apply Hcopied. lia.
    + intros q Hq. rewrite store_ne by lia. apply Hframe. lia.
Qed.

End CopyContents.

(** X1.  [detail::copy(first, last, result)], the overload without a
    policy, on a valid input range and an output range that does not
    start inside it: it returns [result + n], leaves [first[i]] in
    [result[i]] for every [i] of [0 .. n-1], and changes no position
    outside [result, result + n). *)
Theorem copy_without_policy_copies {V : Type}
    (first last result : Z) (mem : Z -> V) :
  (first <= last)%Z -> (result <= first \/ last <= result)%Z ->
  let out := copy_without_policy first last result mem in
  out.2 = (result + (last - first))%Z /\
  (forall i, (0 <= i < last - first)%Z -> out.1 (result + i)%Z = mem (first + i)%Z) /\
  (forall q, (q < result \/ result + (last - first) <= q)%Z -> out.1 q = mem q).
Proof.
  intros Hvalid Hsep out. subst out.
  unfold copy_without_policy. cbn [copy]. unfold copy_sequenced.
  destruct (copy_loop_spec (Z.to_nat (last - first)) first result mem)
    as (Hret & Hcopied & Hframe); [lia|].
  split; [lia|]. split.
  - intros i Hi. apply Hcopied. lia.
  - intros q Hq. apply Hframe. lia.
Qed.

(** X1 on the three elements at [0, 3), copied to position [10]. *)
Lemma copy_without_policy_copies_witness :
  let out := copy_without_policy 0 3 10 (fun q : Z => q) in
  out.2 = (10 + (3 - 0))%Z /\
  (forall i, (0 <= i < 3 - 0)%Z -> out.1 (10 + i)%Z = (0 + i)%Z) /\
  (forall q, (q < 10 \/ 10 + (3 - 0) <= q)%Z -> out.1 q = q).
Proof.
  apply (copy_without_policy_copies 0 3 10 (fun q : Z => q)); lia.
Defined.

(** X2.  The overload of [detail::copy] for policies that are not
    sequenced, on an output range apart from the input range: in whatever
    order the agents run, it leaves [first[i]] in [result[i]] for every
    [i] of [0 .. n-1], changes no position outside [result, result + n),
    and so leaves memory as the sequenced overload does. *)
Theorem copy_parallel_any_order {V : Type}
    (order : list Z) (first last result : Z) (mem : Z -> V) :
  (first <= last)%Z ->
  (result + (last - first) <= first \/ last <= result)%Z ->
  order ≡ₚ ranks (last - first) ->
  let out := copy parallel_policy order first last result mem in
  (forall i, (0 <= i < last - first)%Z -> out.1 (result + i)%Z = mem (first + i)%Z) /\
  (forall q, (q < result \/ result + (last - first) <= q)%Z -> out.1 q = mem q) /\
  (forall q, out.1 q = (copy sequenced_policy order first last result mem).1 q).
Proof.
  intros Hvalid Hsep Horder out.
  assert (Hmem : forall j, j ∈ order <-> (0 <= j < last - first)%Z).
  { intros j. rewrite Horder. unfold ranks. rewrite elem_of_seqZ. lia. }
  destruct (bulk_invoke_copy_functor order (last - first)%Z first result mem mem)
    as [Hcopied Hframe]; [lia|now intros j Hj; apply Hmem|reflexivity|].
  assert (Hout : forall i, (0 <= i < last - first)%Z ->
            out.1 (result + i)%Z = mem (first + i)%Z).
  { intros i Hi. apply Hcopied. now apply Hmem. }
  assert (Hrest : forall q, (q < result \/ result + (last - first) <= q)%Z ->
            out.1 q = mem q).
  { intros q Hq. apply Hframe. intros i Hi%Hmem. lia. }
  split; [exact Hout|]. split; [exact Hrest|].
  intros q. cbn [copy]. unfold copy_sequenced.
  destruct (copy_loop_spec (Z.to_nat (last - first)) first result mem)
    as (_ & Hcopied' & Hframe'); [lia|].
  destruct (Z.lt_ge_cases q result) as [Hlt|Hge].
  - rewrite Hrest, Hframe' by lia. reflexivity.
  - destruct (Z.lt_ge_cases q (result + (last - first))) as [Hin|Hout'].
    + replace q with (result + (q - result))%Z by lia.
      rewrite Hout, Hcopied' by lia. reflexivity.
    + rewrite Hrest, Hframe' by lia. reflexivity.
Qed.

(** X2 on the same ranges, the agents running in the order [2, 0, 1]. *)
Lemma copy_parallel_any_order_witness :
  let out := copy parallel_policy [2; 0; 1]%Z 0 3 10 (fun q : Z => q) in
  (forall i, (0 <= i < 3 - 0)%Z -> out.1 (10 + i)%Z = (0 + i)%Z) /\
  (forall q, (q < 10 \/ 10 + (3 - 0) <= q)%Z -> out.1 q = q) /\
  (forall q, out.1 q
     = (copy sequenced_policy [2; 0; 1]%Z 0 3 10 (fun q : Z => q)).1 q).
Proof.
  apply (copy_parallel_any_order [2; 0; 1]%Z 0 3 10 (fun q : Z => q)).
  - lia.
  - lia.
  - change (ranks (3 - 0)) with [0; 1; 2]%Z.
    apply (Permutation_cons_append [0; 1]%Z 2%Z).
Defined.

(** X3.  The sequenced overload of [detail::copy] when the output range
    starts [d > 0] positions after the start of the input range: from the
    [d]-th iteration on the loop reads what it wrote before, so
    [result[i]] ends as [first[i mod d]].  When the ranges overlap
    ([d < n]) the first [d] input elements come out repeated. *)
Theorem copy_sequenced_forward_overlap {V : Type}
    (first last d : Z) (mem : Z -> V) :
  (0 < d)%Z -> (first <= last)%Z ->
  let out := copy sequenced_policy [] first last (first + d)%Z mem in
  out.2 = (first + d + (last - first))%Z /\
  forall i, (0 <= i < last - first)%Z ->
    out.1 (first + d + i)%Z = mem (first + i mod d)%Z.
Proof.
  intros Hd Hvalid out. subst out. cbn [copy]. unfold copy_sequenced.
  destruct (copy_loop_overlap d first mem (Z.to_nat (last - first)) Hd)
    as (Hret & Hcopied & _).
  split; [lia|]. intros i Hi. apply Hcopied. lia.
Qed.

(** X3 on the four elements at [0, 4), copied to position [1]. *)
Lemma copy_sequenced_forward_overlap_witness :
  let out := copy sequenced_policy [] 0 4 (0 + 1)%Z (fun q : Z => q) in
  out.2 = (0 + 1 + (4 - 0))%Z /\
  forall i, (0 <= i < 4 - 0)%Z -> out.1 (0 + 1 + i)%Z = (0 + i mod 1)%Z.
Proof.
  apply (copy_sequenced_forward_overlap 0 4 1 (fun q : Z => q)); lia.
Defined.

(** ** [grid_executor::max_shape]: what it returns, what it throws, and
    the device it leaves active *)

Lemma is_success_eq (e : cudaError) : is_success e = true -> e = cudaSuccess.
Proof. now destruct e. Qed.

Lemma is_success_ne (e : cudaError) : is_success e = false -> e <> cudaSuccess.
Proof. now destruct e. Qed.

(** The paths through [max_shape], by the status of each call. *)
Ltac max_shape_cases rt gpu dev :=
  unfold max_shape, cuda_bind, cudaGetDevice, cudaSetDevice, cudaDeviceGetAttribute,
    cudaFuncGetAttributes, throw_on_error, cuda_ret;
  destruct (is_success (get_device_status rt)) eqn:Eget; cbn [fst snd is_success];
  rewrite ?Eget;
  [ destruct (Z.eqb_spec dev gpu) as [Hsame|Hother];
    [ idtac
    | destruct (is_success (set_device_status rt gpu)) eqn:Eset;
      cbn [fst snd is_success]; rewrite ?Eset ];
    [ destruct (is_success (max_block_dim_x rt).1) eqn:Edim; cbn [fst snd is_success];
      rewrite ?Edim;
      [ destruct (is_success (max_threads_per_block rt).1) eqn:Eattr;
        cbn [fst snd is_success]; rewrite ?Eattr;
        [ try (destruct (is_success (set_device_status rt dev)) eqn:Eback;
               cbn [fst snd is_success]; rewrite ?Eback) | ] | ] .. ]
  | ].

Lemma to_unsigned_bound (v : Z) : to_unsigned v < 2 ^ 32.
Proof.
  unfold to_unsigned.
  pose proof (Z.mod_pos_bound v (2 ^ 32) ltac:(lia)) as Hmod.
  change (2 ^ 32) with (Z.to_N (2 ^ 32)%Z). apply Z2N.inj_lt; lia.
Qed.

(** X4.  When [max_shape] returns, every call it made to the runtime
    succeeded, the shape is the pair of limits the runtime reported, each
    cast to [unsigned int] and so below [2 ^ 32], and the device that was
    active before the call is active again. *)
Theorem max_shape_returns_runtime_limits
    (rt : runtime) (gpu dev dev' : Z) (shape : N * N) :
  max_shape rt gpu dev = (inr shape, dev') ->
  dev' = dev /\
  shape = (to_unsigned (max_block_dim_x rt).2, to_unsigned (max_threads_per_block rt).2) /\
  shape.1 < 2 ^ 32 /\ shape.2 < 2 ^ 32 /\
  get_device_status rt = cudaSuccess /\
  (max_block_dim_x rt).1 = cudaSuccess /\
  (max_threads_per_block rt).1 = cudaSuccess /\
  (dev <> gpu ->
   set_device_status rt gpu = cudaSuccess /\ set_device_status rt dev = cudaSuccess).
Proof.
  max_shape_cases rt gpu dev; try discriminate; intros [= <- <-];
    repeat split; cbn [fst snd]; auto using is_success_eq, to_unsigned_bound;
    try contradiction.
Qed.

(** X4 on a runtime that serves every call, device [0] active and the
    executor on device [1]. *)
Lemma max_shape_returns_runtime_limits_witness :
  (0 = 0)%Z /\
  (1024, 1024) = (to_unsigned (max_block_dim_x healthy).2,
                  to_unsigned (max_threads_per_block healthy).2) /\
  (1024, 1024).1 < 2 ^ 32 /\ (1024, 1024).2 < 2 ^ 32 /\
  get_device_status healthy = cudaSuccess /\
  (max_block_dim_x healthy).1 = cudaSuccess /\
  (max_threads_per_block healthy).1 = cudaSuccess /\
  (0%Z <> 1%Z ->
   set_device_status healthy 1%Z = cudaSuccess /\
   set_device_status healthy 0%Z = cudaSuccess).
Proof.
  apply (max_shape_returns_runtime_limits healthy 1%Z 0%Z 0%Z (1024, 1024)).
  reflexivity.
Defined.

(** [max_shape_logged] ends as [max_shape] does. *)
Lemma max_shape_logged_outcome (rt : runtime) (gpu dev : Z) :
  (max_shape_logged rt gpu dev).1 = max_shape rt gpu dev.
Proof.
  unfold max_shape_logged, logged_bind, runtime_does, no_call.
  max_shape_cases rt gpu dev; reflexivity.
Qed.

(** X5.  When the device of the executor is the active one already,
    [max_shape] makes no call of [cudaSetDevice]: it calls
    [cudaGetDevice], then [cudaDeviceGetAttribute] for its device, then
    [cudaFuncGetAttributes], up to the first call that fails.  So what it
    does is the same whatever [cudaSetDevice] would answer, and the active
    device is the same after the call, also when it throws.  When another
    device is active and [cudaGetDevice] succeeds, it does call
    [cudaSetDevice] for its device. *)
Theorem max_shape_on_active_device
    (rt : runtime) (gpu : Z) (answers : Z -> cudaError) :
  (max_shape rt gpu gpu).2 = gpu /\
  max_shape (make_runtime (get_device_status rt) answers
                          (max_block_dim_x rt) (max_threads_per_block rt)) gpu gpu
    = max_shape rt gpu gpu /\
  (forall dev, (max_shape_logged rt gpu dev).1 = max_shape rt gpu dev) /\
  (max_shape_logged rt gpu gpu).2
    = call_cudaGetDevice ::
      (if is_success (get_device_status rt)
       then call_cudaDeviceGetAttribute gpu ::
            (if is_success (max_block_dim_x rt).1
             then [call_cudaFuncGetAttributes] else [])
       else []) /\
  (forall d, call_cudaSetDevice d ∉ (max_shape_logged rt gpu gpu).2) /\
  (forall dev, dev <> gpu -> get_device_status rt = cudaSuccess ->
     exists rest, (max_shape_logged rt gpu dev).2
                  = call_cudaGetDevice :: call_cudaSetDevice gpu :: rest).
Proof.
  assert (Hcalls : (max_shape_logged rt gpu gpu).2
    = call_cudaGetDevice ::
      (if is_success (get_device_status rt)
       then call_cudaDeviceGetAttribute gpu ::
            (if is_success (max_block_dim_x rt).1
             then [call_cudaFuncGetAttributes] else [])
       else [])).
  { unfold max_shape_logged, logged_bind, runtime_does, no_call.
    unfold cuda_bind, cudaGetDevice, cudaSetDevice, cudaDeviceGetAttribute,
      cudaFuncGetAttributes, throw_on_error, cuda_ret.
    destruct (is_success (get_device_status rt)) eqn:Eget; cbn [fst snd is_success];
      rewrite ?Eget; [|reflexivity].
    rewrite Z.eqb_refl.
    destruct (is_success (max_block_dim_x rt).1) eqn:Edim; cbn [fst snd is_success];
      rewrite ?Edim; [|reflexivity].
    destruct (is_success (max_threads_per_block rt).1) eqn:Eattr;
      cbn [fst snd is_success]; rewrite ?Eattr; reflexivity. }
  assert (Hold : (max_shape rt gpu gpu).2 = gpu /\
    max_shape (make_runtime (get_device_status rt) answers
                            (max_block_dim_x rt) (max_threads_per_block rt)) gpu gpu
      = max_shape rt gpu gpu).
  { unfold max_shape, cuda_bind, cudaGetDevice, cudaSetDevice, cudaDeviceGetAttribute,
      cudaFuncGetAttributes, throw_on_error, cuda_ret.
    cbn [get_device_status max_block_dim_x max_threads_per_block set_device_status].
    destruct (is_success (get_device_status rt)) eqn:Eget; cbn [fst snd is_success];
      rewrite ?Eget; [|now split].
    rewrite Z.eqb_refl.
    destruct (is_success (max_block_dim_x rt).1) eqn:Edim; cbn [fst snd is_success];
      rewrite ?Edim; [|now split].
    destruct (is_success (max_threads_per_block rt).1) eqn:Eattr;
      cbn [fst snd is_success]; rewrite ?Eattr; now split. }
  destruct Hold as [Hdevice Hanswers].
  split; [exact Hdevice|]. split; [exact Hanswers|].
  split; [intros dev; apply max_shape_logged_outcome|].
  split; [exact Hcalls|]. split.
  - intros d. rewrite Hcalls.
    destruct (is_success (get_device_status rt));
      [destruct (is_success (max_block_dim_x rt).1)|];
      intros Hin;
      repeat (apply elem_of_cons in Hin as [Hin|Hin]; [discriminate Hin|]);
      now apply elem_of_nil in Hin.
  - intros dev Hother Hget.
    unfold max_shape_logged, logged_bind, runtime_does, no_call.
    unfold cuda_bind, cudaGetDevice, cudaSetDevice, cudaDeviceGetAttribute,
      cudaFuncGetAttributes, throw_on_error, cuda_ret.
    rewrite Hget. cbn [fst snd is_success].
    destruct (Z.eqb_spec dev gpu) as [|_]; [contradiction|].
    destruct (is_success (set_device_status rt gpu)) eqn:Eset; cbn [fst snd is_success];
      rewrite ?Eset; [|now eexists].
    destruct (is_success (max_block_dim_x rt).1) eqn:Edim; cbn [fst snd is_success];
      rewrite ?Edim; [|now eexists].
    destruct (is_success (max_threads_per_block rt).1) eqn:Eattr;
      cbn [fst snd is_success]; rewrite ?Eattr; [|now eexists].
    destruct (is_success (set_device_status rt dev)) eqn:Eback; cbn [fst snd is_success];
      rewrite ?Eback; now eexists.
Qed.

(** X6.  When [max_shape] throws, the exception names the call that
    failed and carries the status that call returned, which is not
    [cudaSuccess].  After a failed [cudaGetDevice] or a failed switch to
    the executor's device the active device is unchanged; after a failed
    attribute query or a failed switch back the executor's device is the
    active one. *)
Theorem max_shape_exception
    (rt : runtime) (gpu dev dev' : Z) (e : system_error) :
  max_shape rt gpu dev = (inl e, dev') ->
  code e <> cudaSuccess /\
  match what e with
  | op_cudaGetDevice => code e = get_device_status rt /\ dev' = dev
  | op_cudaSetDevice =>
      dev <> gpu /\
      ((code e = set_device_status rt gpu /\ dev' = dev) \/
       (code e = set_device_status rt dev /\ dev' = gpu))
  | op_cudaDeviceGetAttribute => code e = (max_block_dim_x rt).1 /\ dev' = gpu
  | op_cudaFuncGetAttributes => code e = (max_threads_per_block rt).1 /\ dev' = gpu
  end.
Proof.
  max_shape_cases rt gpu dev; try discriminate; intros [= <- <-];
    cbn [what code]; (split; [now apply is_success_ne|]); auto.
Qed.

(** X6 on a runtime whose function attribute query fails, device [0]
    active and the executor on device [1]. *)
Lemma max_shape_exception_witness :
  code (make_error op_cudaFuncGetAttributes cudaErrorInvalidDeviceFunction)
    <> cudaSuccess /\
  match what (make_error op_cudaFuncGetAttributes cudaErrorInvalidDeviceFunction) with
  | op_cudaGetDevice =>
      code (make_error op_cudaFuncGetAttributes cudaErrorInvalidDeviceFunction)
        = get_device_status failing_function_query /\ 1%Z = 0%Z
  | op_cudaSetDevice =>
      0%Z <> 1%Z /\
      ((code (make_error op_cudaFuncGetAttributes cudaErrorInvalidDeviceFunction)
          = set_device_status failing_function_query 1%Z /\ 1%Z = 0%Z) \/
       (code (make_error op_cudaFuncGetAttributes cudaErrorInvalidDeviceFunction)
          = set_device_status failing_function_query 0%Z /\ 1%Z = 1%Z))
  | op_cudaDeviceGetAttribute =>
      code (make_error op_cudaFuncGetAttributes cudaErrorInvalidDeviceFunction)
        = (max_block_dim_x failing_function_query).1 /\ 1%Z = 1%Z
  | op_cudaFuncGetAttributes =>
      code (make_error op_cudaFuncGetAttributes cudaErrorInvalidDeviceFunction)
        = (max_threads_per_block failing_function_query).1 /\ 1%Z = 1%Z
  end.
Proof.
  apply (max_shape_exception failing_function_query 1%Z 0%Z 1%Z
           (make_error op_cudaFuncGetAttributes cudaErrorInvalidDeviceFunction)).
  reflexivity.
Defined.

(** ** The flattening adapter: the partition and the guard *)

(** X7.  [partition] where its arithmetic does not wrap (a positive
    inner limit, [shape + inner_size - 1] within [size_t] and the
    quotient within [unsigned int]): it returns [ceil(n / inner)] groups of
    [inner] agents when that many groups are allowed and fails its
    assertion when they are not; the groups cover the extent and overshoot
    it by less than one group. *)
Theorem partition_covers_extent (max_shape : N * N) (n : N) :
  0 < max_shape.2 -> n + max_shape.2 - 1 < 2 ^ 64 ->
  ceil_div n max_shape.2 < 2 ^ 32 ->
  (ceil_div n max_shape.2 <= max_shape.1 ->
     partition max_shape n = Returned (ceil_div n max_shape.2, max_shape.2)) /\
  (max_shape.1 < ceil_div n max_shape.2 ->
     partition max_shape n = AssertionFailed) /\
  n <= ceil_div n max_shape.2 * max_shape.2 < n + max_shape.2.
Proof.
  intros Hk Hsize Hquot.
  destruct (partition_in_range max_shape n Hk Hsize Hquot) as [Hfits Hfails].
  split; [exact Hfits|]. split; [exact Hfails|].
  split; [now apply ceil_div_covers|].
  destruct (N.eq_dec n 0) as [->|Hn].
  - unfold ceil_div. rewrite N.add_0_l.
    assert ((max_shape.2 - 1) / max_shape.2 = 0) as -> by (apply N.div_small; lia).
    lia.
  - pose proof (ceil_div_tight n max_shape.2 Hk ltac:(lia)) as Htight.
    assert (0 < ceil_div n max_shape.2).
    { pose proof (ceil_div_covers n max_shape.2 Hk). nia. }
    nia.
Qed.

(** X7 on the limits [(1024, 1024)] and the extent [2500]. *)
Lemma partition_covers_extent_witness :
  (ceil_div 2500 1024 <= 1024 ->
     partition (1024, 1024) 2500 = Returned (ceil_div 2500 1024, 1024)) /\
  (1024 < ceil_div 2500 1024 -> partition (1024, 1024) 2500 = AssertionFailed) /\
  2500 <= ceil_div 2500 1024 * 1024 < 2500 + 1024.
Proof.
  apply (partition_covers_extent (1024, 1024) 2500); cbn [fst snd].
  - lia.
  - lia.
  - now vm_compute.
Defined.

(** X8.  Whatever the extent, and also when the quotient wrapped, a
    partition that [partition] returns is within the limits of the base
    executor: the inner size is the inner limit and is positive, the outer
    size is at most the outer limit and fits [unsigned int]. *)
Theorem partition_within_limits (max_shape : N * N) (n : N) (p : N * N) :
  partition max_shape n = Returned p ->
  p.2 = max_shape.2 /\ 0 < p.2 /\ p.1 <= max_shape.1 /\ p.1 < 2 ^ 32.
Proof.
  unfold partition.
  destruct (N.eqb_spec max_shape.2 0) as [|Hk]; [discriminate|].
  destruct (N.leb_spec
              (wrap32 (sub64 (add64 n max_shape.2) 1 / max_shape.2)) max_shape.1)
    as [Hle|]; [|discriminate].
  intros [= <-]. cbn [fst snd]. repeat split; [lia|exact Hle|].
  unfold wrap32. apply N.mod_lt. discriminate.
Qed.

(** X8 on the limits [(1024, 1024)] and the extent [2 ^ 42 + 1], where
    the quotient wraps. *)
Lemma partition_within_limits_witness :
  (1, 1024).2 = (1024, 1024).2 /\ 0 < (1, 1024).2 /\
  (1, 1024).1 <= (1024, 1024).1 /\ (1, 1024).1 < 2 ^ 32.
Proof.
  apply (partition_within_limits (1024, 1024) (2 ^ 42 + 1) (1, 1024)).
  now vm_compute.
Defined.

(** X9.  The guard of [flattened_grid_executor_functor] on the grid of
    [ceil(n / k)] groups of [k] agents (at most [2 ^ 32] agents): the agent
    [(g, t)] invokes [f] on [g * k + t] when that is below [n] and on
    nothing otherwise; every agent of a group before the last invokes
    [f], so only agents of the last group are skipped. *)
Theorem flattened_functor_guard (n k : N) (idx : N * N) :
  0 < k -> ceil_div n k * k <= 2 ^ 32 ->
  idx.1 < ceil_div n k -> idx.2 < k ->
  let flat := idx.1 * k + idx.2 in
  flattened_grid_executor_functor n (ceil_div n k, k) idx
    = (if flat <? n then [flat] else []) /\
  (idx.1 + 1 < ceil_div n k -> flat < n) /\
  (n <= flat -> idx.1 = ceil_div n k - 1).
Proof.
  intros Hk Hgrid Hb Ht flat.
  assert (Hfun : flattened_grid_executor_functor n (ceil_div n k, k) idx
                 = if flat <? n then [flat] else [])
    by (now rewrite functor_no_wrap by assumption).
  assert (Hlast : n <= flat -> idx.1 = ceil_div n k - 1).
  { intros Hge. apply (skips_only_in_last_group n k idx Hk Hgrid Hb Ht).
    rewrite Hfun. destruct (N.ltb_spec flat n); [lia|reflexivity]. }
  split; [exact Hfun|]. split; [|exact Hlast].
  intros Hbefore. destruct (N.lt_ge_cases flat n) as [|Hge]; [assumption|].
  specialize (Hlast Hge). lia.
Qed.

(** X9 on the extent [2500] in groups of [1024]: the agent [(2, 451)]
    is the last that invokes [f]. *)
Lemma flattened_functor_guard_witness :
  let flat := (2, 451).1 * 1024 + (2, 451).2 in
  flattened_grid_executor_functor 2500 (ceil_div 2500 1024, 1024) (2, 451)
    = (if flat <? 2500 then [flat] else []) /\
  ((2, 451).1 + 1 < ceil_div 2500 1024 -> flat < 2500) /\
  (2500 <= flat -> (2, 451).1 = ceil_div 2500 1024 - 1).
Proof.
  apply (flattened_functor_guard 2500 1024 (2, 451)); now vm_compute.
Defined.

(** The overload of the functor that takes shared parameters invokes [f_]
    where the other overload does, handing over the outer one. *)
Lemma functor_shared_fmap {T I : Type} (n : N) (p idx : N * N) (v : T) (ig : I) :
  FlattenedShared.flattened_grid_executor_functor n p idx (v, ig)
    = (fun i => (i, v)) <$> flattened_grid_executor_functor n p idx.
Proof.
  unfold FlattenedShared.flattened_grid_executor_functor,
    flattened_grid_executor_functor.
  cbn [fst]. now destruct (_ <? _).
Qed.

Lemma bind_functor_shared {T I : Type}
    (n : N) (p : N * N) (v : T) (ig : I) (order : list (N * N)) :
  order ≫= (fun idx => FlattenedShared.flattened_grid_executor_functor n p idx (v, ig))
    = (fun i => (i, v)) <$> kernel_trace (flattened_grid_executor_functor n p) order.
Proof.
  unfold kernel_trace. induction order as [|idx order IH]; [reflexivity|].
  cbn. rewrite fmap_app, functor_shared_fmap. now f_equal.
Qed.

(** X10.  [bulk_async(f, shape, shared_arg)] of the flattened executor,
    where the partitioner succeeds without wrap-around: the host makes one
    object from [shared_arg], releases it to the function object of the
    outer-only marshaling, and launches that over the partition, and
    nothing else; in whatever order the agents of that kernel run, each
    goes through [operator()] of the function object and of the functor,
    and so [f] is invoked once on each flat index of [0 .. n-1], each time
    with that one object, and on nothing else. *)
Theorem flattened_shared_argument {T I : Type}
    (max_shape : N * N) (n : N) (v : T) :
  0 < max_shape.2 ->
  max_shape.1 < 2 ^ 32 ->
  max_shape.2 < 2 ^ 32 ->
  ceil_div n max_shape.2 <= max_shape.1 ->
  ceil_div n max_shape.2 * max_shape.2 <= 2 ^ 32 ->
  let p := (ceil_div n max_shape.2, max_shape.2) in
  FlattenedShared.bulk_async (I := I) max_shape n (shared v)
    = Returned [MakeUniqueOuter v; ReleaseOuter; Launch (with_outer v) p; AddCallback] /\
  forall (order : list (N * N)) (ig : I),
    launch_order p order ->
    forall host,
      FlattenedShared.bulk_async (I := I) max_shape n (shared v) = Returned host ->
      launches host = [(with_outer v, p)] /\
      FlattenedShared.kernel_invocations n ig order host
        ≡ₚ (fun i => (i, v)) <$> indices n.
Proof.
  intros Hk Ho32 Hk32 Hfits Hgrid p.
  pose proof (ceil_div_covers n max_shape.2 Hk) as Hcover.
  assert (Hpart : partition max_shape n = Returned p).
  { rewrite partition_exact by lia.
    destruct (N.leb_spec (ceil_div n max_shape.2) max_shape.1); [reflexivity|lia]. }
  assert (Hhost : FlattenedShared.bulk_async (I := I) max_shape n (shared v)
    = Returned [MakeUniqueOuter v; ReleaseOuter; Launch (with_outer v) p; AddCallback]).
  { unfold FlattenedShared.bulk_async. now rewrite Hpart. }
  split; [exact Hhost|].
  intros order ig Horder host Hreturned.
  rewrite Hhost in Hreturned. injection Hreturned as <-.
  split; [reflexivity|].
  unfold FlattenedShared.kernel_invocations.
  change (launches [MakeUniqueOuter v; ReleaseOuter; Launch (with_outer v) p; AddCallback])
    with [(with_outer (T2 := I) v, p)].
  cbn [mbind list_bind fst snd]. rewrite app_nil_r.
  rewrite (list_bind_ext (FlattenedShared.agent n p ig (with_outer v))
             (fun idx => FlattenedShared.flattened_grid_executor_functor n p idx (v, ig))
             order order); [|intros idx|reflexivity].
  - rewrite bind_functor_shared.
    apply fmap_Permutation. apply kernel_trace_exact; assumption.
  - unfold FlattenedShared.agent. cbn. apply app_nil_r.
Qed.

(** X10 on the limits [(1024, 1024)], the extent [2500] and the shared
    argument [7]. *)
Lemma flattened_shared_argument_witness :
  let p := (ceil_div 2500 1024, 1024) in
  FlattenedShared.bulk_async (I := unit) (1024, 1024) 2500 (shared 7)
    = Returned [MakeUniqueOuter 7; ReleaseOuter; Launch (with_outer 7) p; AddCallback] /\
  forall (order : list (N * N)) (ig : unit),
    launch_order p order ->
    forall host,
      FlattenedShared.bulk_async (I := unit) (1024, 1024) 2500 (shared 7) = Returned host ->
      launches host = [(with_outer 7, p)] /\
      FlattenedShared.kernel_invocations 2500 ig order host
        ≡ₚ (fun i => (i, 7)) <$> indices 2500.
Proof.
  apply (flattened_shared_argument (T := N) (I := unit) (1024, 1024) 2500 7);
    now vm_compute.
Defined.

(** X11.  How many agents the flattened executor takes, on limits whose
    product is at most [2 ^ 32]: an extent up to [outer * inner] agents is
    executed, each flat index once; a larger extent below [2 ^ 32] fails
    the assertion of the partitioner, and nothing is launched. *)
Theorem flattened_capacity (max_shape : N * N) (n : N) :
  0 < max_shape.2 -> max_shape.1 < 2 ^ 32 -> max_shape.2 < 2 ^ 32 ->
  max_shape.1 * max_shape.2 <= 2 ^ 32 ->
  (n <= max_shape.1 * max_shape.2 ->
     exists trace,
       Flattened.bulk_async max_shape n = Returned trace /\ trace ≡ₚ indices n) /\
  (max_shape.1 * max_shape.2 < n -> n < 2 ^ 32 ->
     Flattened.bulk_async max_shape n = AssertionFailed).
Proof.
  intros Hk Ho32 Hk32 Hgrid.
  pose proof (ceil_div_covers n max_shape.2 Hk) as Hcover.
  assert (H32 : 2 ^ 32 < 2 ^ 64) by (vm_compute; reflexivity).
  split.
  - intros Hfits.
    assert (Hceil : ceil_div n max_shape.2 <= max_shape.1).
    { apply N.lt_succ_r. unfold ceil_div. apply N.Div0.div_lt_upper_bound. lia. }
    assert (Hall : ceil_div n max_shape.2 * max_shape.2 <= 2 ^ 32).
    { etransitivity; [|exact Hgrid]. now apply N.mul_le_mono_r. }
    assert (Hsmall : ceil_div n max_shape.2 < 2 ^ 32) by lia.
    unfold Flattened.bulk_async. rewrite partition_exact by lia.
    destruct (N.leb_spec (ceil_div n max_shape.2) max_shape.1); [|lia].
    eexists. split; [reflexivity|].
    apply kernel_trace_exact; try assumption. unfold launch_order. reflexivity.
  - intros Hover Hn.
    assert (Hceil : max_shape.1 < ceil_div n max_shape.2).
    { destruct (N.lt_ge_cases max_shape.1 (ceil_div n max_shape.2)) as [|Hle];
        [assumption|].
      pose proof (N.mul_le_mono_r _ _ max_shape.2 Hle). lia. }
    assert (Hsmall : ceil_div n max_shape.2 < 2 ^ 32).
    { apply N.le_lt_trans with n; [|exact Hn].
      unfold ceil_div. apply N.Div0.div_le_upper_bound. nia. }
    unfold Flattened.bulk_async.
    destruct (partition_in_range max_shape n Hk ltac:(lia) Hsmall) as [_ Hfails].
    now rewrite (Hfails Hceil).
Qed.

(** X11 on the limits [(1024, 1024)]. *)
Lemma flattened_capacity_witness :
  (2500 <= (1024, 1024).1 * (1024, 1024).2 ->
     exists trace,
       Flattened.bulk_async (1024, 1024) 2500 = Returned trace /\
       trace ≡ₚ indices 2500) /\
  ((1024, 1024).1 * (1024, 1024).2 < 2500 -> 2500 < 2 ^ 32 ->
     Flattened.bulk_async (1024, 1024) 2500 = AssertionFailed).
Proof.
  apply (flattened_capacity (1024, 1024) 2500); now vm_compute.
Defined.

(** ** The continuation executor: tasks, joins and orders *)

Lemma length_task_futures (t : task) :
  length (task_futures t) = length (task_agents t).
Proof.
  induction t as [|a b l IHl mid r IHr]; [reflexivity|].
  cbn [task_futures task_agents length]. rewrite !length_app. cbn [length]. lia.
Qed.

Lemma midpoint_split_depth (t : task) : forall first last (k : nat),
  midpoint_split first last t -> last - first < 2 ^ N.of_nat k -> (depth t <= k)%nat.
Proof.
  induction t as [|a b l IHl mid r IHr]; intros first last k; cbn [midpoint_split depth].
  - lia.
  - intros (-> & -> & Hlt & Hmid & Hl & Hr) Hsize.
    destruct k as [|k]; [cbn in Hsize; lia|].
    rewrite Nat2N.inj_succ, N.pow_succ_r' in Hsize.
    assert (Hdiv : 2 * mid <= first + last < 2 * mid + 2).
    { subst mid. pose proof (N.Div0.div_mod (first + last) 2) as Hdm.
      pose proof (N.mod_lt (first + last) 2 ltac:(discriminate)) as Hrem.
      generalize dependent ((first + last) / 2).
      generalize dependent ((first + last) mod 2). intros; lia. }
    specialize (IHl first mid k Hl ltac:(lia)).
    specialize (IHr (mid + 1) last k Hr ltac:(lia)).
    lia.
Qed.

(** X12.  The fork-join of [bulk_then_execute] for [0 < n <= 2 ^ 63]: the
    call returns; it starts one task for each of the [n] agents (the task
    of the continuation included), and the tasks nest at most
    [log2 n + 1] deep. *)
Theorem fork_join_tasks_and_depth (n : N) :
  0 < n -> n <= 2 ^ 63 ->
  (exists t, fork_join (N.to_nat n) n = Some t) /\
  forall fuel t, fork_join fuel n = Some t ->
    length (task_futures t) = N.to_nat n /\
    (depth t <= S (N.to_nat (N.log2 n)))%nat.
Proof.
  intros Hn Hbound. split; [now apply fork_join_returns|].
  intros fuel t Ht. pose proof (fork_join_sound _ _ _ Hn Hbound Ht) as Hsplit.
  split.
  - rewrite length_task_futures, (midpoint_split_agents _ _ _ Hsplit).
    apply length_indices.
  - apply (midpoint_split_depth t 0 n); [exact Hsplit|].
    rewrite Nat2N.inj_succ, N2Nat.id, N.sub_0_r.
    now apply N.log2_spec.
Qed.

(** X12 on seven agents: seven tasks, nested three deep. *)
Lemma fork_join_tasks_and_depth_witness :
  (exists t, fork_join (N.to_nat 7) 7 = Some t) /\
  forall fuel t, fork_join fuel 7 = Some t ->
    length (task_futures t) = N.to_nat 7 /\
    (depth t <= S (N.to_nat (N.log2 7)))%nat.
Proof.
  apply (fork_join_tasks_and_depth 7); now vm_compute.
Defined.

(** *** A future becomes ready after the agents of its range *)

Lemma interleave_sym {A : Type} (l1 l2 l : list A) :
  interleave l1 l2 l -> interleave l2 l1 l.
Proof. induction 1; now constructor. Qed.

Lemma interleave_split_l {A : Type} (l1 l2 l : list A) :
  interleave l1 l2 l ->
  forall pre x post, l1 = pre ++ x :: post ->
  exists pre' post', l = pre' ++ x :: post' /\ forall y, y ∈ pre -> y ∈ pre'.
Proof.
  induction 1 as [|x0 l1 l2 l H IH|x0 l1 l2 l H IH]; intros pre x post Heq.
  - now destruct pre.
  - destruct pre as [|y pre]; cbn in Heq; injection Heq as -> ->.
    + exists [], l. split; [reflexivity|]. intros y Hy. exact Hy.
    + destruct (IH pre x post eq_refl) as (pre' & post' & -> & Hsub).
      exists (y :: pre'), post'. split; [reflexivity|].
      intros z [->|Hz]%elem_of_cons; [now left|right; now apply Hsub].
  - destruct (IH pre x post Heq) as (pre' & post' & -> & Hsub).
    exists (x0 :: pre'), post'. split; [reflexivity|].
    intros z Hz. right. now apply Hsub.
Qed.

Lemma interleave_split_r {A : Type} (l1 l2 l : list A) :
  interleave l1 l2 l ->
  forall pre x post, l2 = pre ++ x :: post ->
  exists pre' post', l = pre' ++ x :: post' /\ forall y, y ∈ pre -> y ∈ pre'.
Proof. intros H. apply interleave_sym in H. exact (interleave_split_l _ _ _ H). Qed.

Lemma task_futures_ready (t : task) (c : call) :
  c ∈ task_futures t -> exists x y, c = Ready x y.
Proof.
  induction t as [|a b l IHl mid r IHr]; cbn [task_futures].
  - intros H. now apply elem_of_nil in H.
  - rewrite elem_of_cons, elem_of_app. intros [->|[H|H]]; eauto.
Qed.

Lemma midpoint_split_futures (t : task) : forall first last x y,
  midpoint_split first last t -> Ready x y ∈ task_futures t ->
  first <= x /\ x < y /\ y <= last.
Proof.
  induction t as [|a b l IHl mid r IHr]; intros first last x y; cbn [midpoint_split task_futures].
  - intros _ H. now apply elem_of_nil in H.
  - intros (-> & -> & Hlt & Hmid & Hl & Hr).
    assert (first <= mid < last).
    { subst mid. split.
      - apply N.div_le_lower_bound; lia.
      - apply N.Div0.div_lt_upper_bound; lia. }
    rewrite elem_of_cons, elem_of_app. intros [[= -> ->]|[H'|H']].
    + lia.
    + specialize (IHl _ _ _ _ Hl H'). lia.
    + specialize (IHr _ _ _ _ Hr H'). lia.
Qed.

Lemma midpoint_split_futures_NoDup (t : task) : forall first last,
  midpoint_split first last t -> NoDup (task_futures t).
Proof.
  induction t as [|a b l IHl mid r IHr]; intros first last; cbn [midpoint_split task_futures].
  - intros _. constructor.
  - intros (-> & -> & Hlt & Hmid & Hl & Hr).
    assert (first <= mid < last).
    { subst mid. split.
      - apply N.div_le_lower_bound; lia.
      - apply N.Div0.div_lt_upper_bound; lia. }
    constructor.
    + rewrite elem_of_app. intros [H'|H'].
      * pose proof (midpoint_split_futures _ _ _ _ _ Hl H'). lia.
      * pose proof (midpoint_split_futures _ _ _ _ _ Hr H'). lia.
    + apply NoDup_app. split; [now apply (IHl first mid)|].
      split; [|now apply (IHr (mid + 1) last)].
      intros c Hx Hy. destruct (task_futures_ready _ _ Hx) as (x & y & ->).
      pose proof (midpoint_split_futures _ _ _ _ _ Hl Hx).
      pose proof (midpoint_split_futures _ _ _ _ _ Hr Hy). lia.
Qed.

Lemma NoDup_split_unique {A : Type} (x : A) (pre post : list A) :
  NoDup (pre ++ x :: post) ->
  forall pre' post', pre ++ x :: post = pre' ++ x :: post' -> pre = pre'.
Proof.
  induction pre as [|y pre IH]; intros Hnodup pre' post' Heq.
  - destruct pre' as [|y' pre']; [reflexivity|]. cbn in Heq. injection Heq as <- ->.
    apply NoDup_cons in Hnodup as [Hx _]. exfalso. apply Hx.
    rewrite elem_of_app, elem_of_cons. auto.
  - cbn in Hnodup. apply NoDup_cons in Hnodup as [Hy Hnodup].
    destruct pre' as [|y' pre']; cbn in Heq; injection Heq as -> Heq.
    + exfalso. apply Hy. rewrite elem_of_app, elem_of_cons. auto.
    + f_equal. now apply (IH Hnodup pre' post').
Qed.

Lemma runs_NoDup (t : task) (tr : list call) first last :
  midpoint_split first last t -> runs t tr -> NoDup tr.
Proof.
  intros Hsplit Hrun. rewrite (runs_Permutation _ _ Hrun).
  apply NoDup_app. split; [|split].
  - apply NoDup_fmap_2; [intros i j [= ->]; reflexivity|].
    rewrite (midpoint_split_agents _ _ _ Hsplit). apply NoDup_range.
  - intros c [i [-> _]]%list_elem_of_fmap Hc.
    now destruct (task_futures_ready _ _ Hc) as (x & y & [=]).
  - now apply (midpoint_split_futures_NoDup t first last).
Qed.

(** In a run of a task tree that splits its range at the midpoints, the
    future of a task is ready only after every agent of its range. *)
Lemma runs_ready_after_range (t : task) (tr : list call) :
  runs t tr ->
  forall first last, midpoint_split first last t ->
  forall a b, Ready a b ∈ tr ->
  exists pre post,
    tr = pre ++ Ready a b :: post /\ forall i, a <= i < b -> Agent i ∈ pre.
Proof.
  induction 1 as [|a0 b0 l mid r tl trr children body Hl IHl Hr IHr Hc Hb];
    intros first last Hsplit a b Hin.
  - now apply elem_of_nil in Hin.
  - pose proof (runs_task a0 b0 _ _ _ _ _ _ _ Hl Hr Hc Hb) as Hrun.
    pose proof (runs_Permutation _ _ Hrun) as Hperm.
    pose proof (midpoint_split_agents _ _ _ Hsplit) as Hagents.
    cbn [midpoint_split] in Hsplit.
    destruct Hsplit as (-> & -> & Hlt & Hmid & Hsl & Hsr).
    assert (Hsub : forall side pre post,
              (side = tl \/ side = trr) -> side = pre ++ Ready a b :: post ->
              exists pre' post',
                body ++ [Ready first last] = pre' ++ Ready a b :: post' /\
                forall y, y ∈ pre -> y ∈ pre').
    { intros side pre post Hside Heq.
      assert (exists pre1 post1, children = pre1 ++ Ready a b :: post1 /\
                forall y, y ∈ pre -> y ∈ pre1) as (pre1 & post1 & Hch & Hsub1).
      { destruct Hside as [->| ->].
        - exact (interleave_split_l _ _ _ Hc _ _ _ Heq).
        - exact (interleave_split_r _ _ _ Hc _ _ _ Heq). }
      destruct (interleave_split_l _ _ _ Hb _ _ _ Hch) as (pre2 & post2 & -> & Hsub2).
      exists pre2, (post2 ++ [Ready first last]). split.
      - now rewrite <- app_assoc.
      - intros y Hy. auto. }
    apply elem_of_app in Hin as [Hin|Hin].
    + apply interleave_Permutation in Hb, Hc.
      rewrite Hb, Hc, !elem_of_app, list_elem_of_singleton in Hin.
      destruct Hin as [[Hin|Hin]|[=]].
      * destruct (IHl _ _ Hsl _ _ Hin) as (pre & post & Heq & Hbefore).
        destruct (Hsub tl pre post (or_introl eq_refl) Heq) as (pre' & post' & -> & Hpre).
        exists pre', post'. split; [reflexivity|]. intros i Hi. auto.
      * destruct (IHr _ _ Hsr _ _ Hin) as (pre & post & Heq & Hbefore).
        destruct (Hsub trr pre post (or_intror eq_refl) Heq) as (pre' & post' & -> & Hpre).
        exists pre', post'. split; [reflexivity|]. intros i Hi. auto.
    + apply list_elem_of_singleton in Hin as [= -> ->].
      exists body, []. split; [reflexivity|]. intros i Hi.
      assert (Hi' : Agent i ∈ body ++ [Ready first last]).
      { rewrite Hperm, elem_of_app. left. apply list_elem_of_fmap. exists i.
        split; [reflexivity|]. rewrite Hagents. now apply elem_of_range. }
      apply elem_of_app in Hi' as [Hi'|[=]%list_elem_of_singleton]. exact Hi'.
Qed.

(** X13.  [bulk_then_execute] for [n <= 2 ^ 63]: no call of a log happens
    twice; for [n > 0] the future of the whole call is the last to become
    ready; and whenever the future of the task over [a, b) becomes ready,
    every agent of [a .. b-1] has been invoked before: a task returns only
    after the tasks it started. *)
Theorem future_ready_after_its_range {R Sh : Type}
    (f : N -> R * Sh -> R * Sh) (result_factory : N -> R)
    (shared_factory : N -> Sh) (n : N) (result : R) (log : list call) :
  n <= 2 ^ 63 ->
  bulk_then_execute f result_factory shared_factory n result log ->
  NoDup log /\
  (0 < n -> exists body,
     log = ResultFactory n :: SharedFactory n :: body ++ [Ready 0 n]) /\
  forall pre a b post,
    log = pre ++ Ready a b :: post -> forall i, a <= i < b -> Agent i ∈ pre.
Proof.
  intros Hbound H.
  apply bulk_then_execute_inv in H
    as [(-> & -> & ->)|(Hn & fuel & t & tr & Ht & Hrun & -> & ->)].
  - split; [apply NoDup_singleton|]. split; [lia|].
    intros [|c pre] a b post Heq; [discriminate|].
    injection Heq as _ Heq. now destruct pre.
  - pose proof (fork_join_sound _ _ _ Hn Hbound Ht) as Hsplit.
    pose proof (runs_NoDup _ _ _ _ Hsplit Hrun) as Hnodup.
    pose proof (runs_Permutation _ _ Hrun) as Hperm.
    assert (Hevents : forall c, c ∈ tr -> (exists i, c = Agent i) \/ exists x y, c = Ready x y).
    { intros c Hc. rewrite Hperm, elem_of_app in Hc. destruct Hc as [Hc|Hc].
      - apply list_elem_of_fmap in Hc as (i & -> & _). eauto.
      - right. now apply (task_futures_ready t). }
    assert (Hall : NoDup (ResultFactory n :: SharedFactory n :: tr)).
    { constructor; [|constructor; [|exact Hnodup]].
      - rewrite elem_of_cons. intros [[=]|Hc].
        now destruct (Hevents _ Hc) as [(? & [=])|(? & ? & [=])].
      - intros Hc. now destruct (Hevents _ Hc) as [(? & [=])|(? & ? & [=])]. }
    split; [exact Hall|]. split.
    + intros _. destruct t as [|a b l mid r]; [cbn in Hsplit; lia|].
      cbn [midpoint_split] in Hsplit. destruct Hsplit as (-> & -> & _).
      apply runs_inv in Hrun as (tl & trr & body & _ & _ & -> & _). now exists body.
    + intros pre a b post Heq i Hi.
      assert (Hin : Ready a b ∈ tr).
      { assert (Hin : Ready a b ∈ ResultFactory n :: SharedFactory n :: tr)
          by (rewrite Heq, elem_of_app, elem_of_cons; auto).
        rewrite !elem_of_cons in Hin. now destruct Hin as [[=]|[[=]|Hin]]. }
      destruct (runs_ready_after_range _ _ Hrun _ _ Hsplit _ _ Hin)
        as (pre' & post' & -> & Hbefore).
      assert (pre = ResultFactory n :: SharedFactory n :: pre') as ->.
      { symmetry.
        exact (NoDup_split_unique (Ready a b)
                 (ResultFactory n :: SharedFactory n :: pre') post' Hall pre post Heq). }
      rewrite !elem_of_cons. auto.
Qed.

(** X13 on three agents, in the run where every task finishes before its
    parent invokes its own agent. *)
Lemma future_ready_after_its_range_witness :
  NoDup (ResultFactory 3 :: SharedFactory 3
         :: eager (Task 0 3 (Task 0 1 NoTask 0 NoTask) 1 (Task 2 3 NoTask 2 NoTask))) /\
  (0 < 3 -> exists body,
     ResultFactory 3 :: SharedFactory 3
       :: eager (Task 0 3 (Task 0 1 NoTask 0 NoTask) 1 (Task 2 3 NoTask 2 NoTask))
     = ResultFactory 3 :: SharedFactory 3 :: body ++ [Ready 0 3]) /\
  forall pre a b post,
    ResultFactory 3 :: SharedFactory 3
      :: eager (Task 0 3 (Task 0 1 NoTask 0 NoTask) 1 (Task 2 3 NoTask 2 NoTask))
    = pre ++ Ready a b :: post ->
    forall i, a <= i < b -> Agent i ∈ pre.
Proof.
  apply (future_ready_after_its_range push_index no_result no_shared 3 [0; 2; 1]).
  - now vm_compute.
  - change [0; 2; 1] with
      (after_calls push_index
         (eager (Task 0 3 (Task 0 1 NoTask 0 NoTask) 1 (Task 2 3 NoTask 2 NoTask)))
         (no_result 3, no_shared 3)).1.
    apply (then_tasks push_index no_result no_shared 3 2
             (Task 0 3 (Task 0 1 NoTask 0 NoTask) 1 (Task 2 3 NoTask 2 NoTask))).
    + reflexivity.
    + reflexivity.
    + apply runs_eager.
Defined.

(** *** The agents may be invoked in any order *)

(** A rearrangement of [l1 ++ l2] is a merge of a rearrangement of [l1]
    and a rearrangement of [l2]. *)
Lemma Permutation_interleave {A : Type} (s : list A) : forall l1 l2,
  s ≡ₚ l1 ++ l2 ->
  exists s1 s2, s1 ≡ₚ l1 /\ s2 ≡ₚ l2 /\ interleave s1 s2 s.
Proof.
  induction s as [|x s IH]; intros l1 l2 Hperm.
  - symmetry in Hperm. apply Permutation_nil_r in Hperm.
    apply app_eq_nil in Hperm as [-> ->]. exists [], []. repeat split; constructor.
  - assert (Hx : x ∈ l1 ++ l2) by (rewrite <- Hperm; now left).
    apply elem_of_app in Hx as [Hx|Hx].
    + apply elem_of_Permutation in Hx as [l1' Hl1].
      rewrite Hl1 in Hperm. cbn in Hperm. apply Permutation_cons_inv in Hperm.
      destruct (IH _ _ Hperm) as (s1 & s2 & H1 & H2 & Hi).
      exists (x :: s1), s2. repeat split; [|assumption|now constructor].
      rewrite Hl1. now constructor.
    + apply elem_of_Permutation in Hx as [l2' Hl2].
      rewrite Hl2 in Hperm. rewrite <- Permutation_middle in Hperm.
      apply Permutation_cons_inv in Hperm.
      destruct (IH _ _ Hperm) as (s1 & s2 & H1 & H2 & Hi).
      exists s1, (x :: s2). repeat split; [assumption| |now constructor].
      rewrite Hl2. now constructor.
Qed.

Lemma interleave_app_app {A : Type} (a1 a2 a b1 b2 b : list A) :
  interleave a1 a2 a -> interleave b1 b2 b ->
  interleave (a1 ++ b1) (a2 ++ b2) (a ++ b).
Proof. induction 1; intros Hb; cbn; [assumption|constructor; auto..]. Qed.

Lemma interleave_fmap {A B : Type} (g : A -> B) (l1 l2 l : list A) :
  interleave l1 l2 l -> interleave (g <$> l1) (g <$> l2) (g <$> l).
Proof. induction 1; cbn; now constructor. Qed.

Lemma agents_of_joins (t : task) : agents_of (joins t) = [].
Proof.
  induction t as [|a b l IHl mid r IHr]; [reflexivity|].
  cbn [joins]. now rewrite !agents_of_app, IHl, IHr.
Qed.

(** The agents of a task tree may run in any order, the futures becoming
    ready after all of them. *)
Lemma runs_any_order (t : task) : forall order,
  order ≡ₚ task_agents t -> runs t ((Agent <$> order) ++ joins t).
Proof.
  induction t as [|a b l IHl mid r IHr]; intros order Hperm; cbn [task_agents joins] in *.
  - apply Permutation_nil_r in Hperm as ->. constructor.
  - assert (Hperm' : order ≡ₚ (task_agents l ++ task_agents r) ++ [mid]).
    { rewrite Hperm, <- app_assoc. apply Permutation_app_head.
      apply Permutation_cons_append. }
    destruct (Permutation_interleave _ _ _ Hperm') as (sc & sm & Hsc & Hsm & Hbody).
    apply Permutation_singleton_r in Hsm as ->.
    destruct (Permutation_interleave _ _ _ Hsc) as (sl & sr & Hsl & Hsr & Hchildren).
    specialize (IHl sl Hsl). specialize (IHr sr Hsr).
    replace ((Agent <$> order) ++ joins l ++ joins r ++ [Ready a b])
      with (((Agent <$> order) ++ (joins l ++ joins r)) ++ [Ready a b])
      by (now rewrite <- !app_assoc).
    apply (runs_task a b l mid r _ _ ((Agent <$> sc) ++ (joins l ++ joins r)) _ IHl IHr).
    + apply interleave_app_app; [now apply interleave_fmap|apply interleave_app].
    + apply (interleave_app_app _ [Agent mid] _ _ []);
        [now apply (interleave_fmap Agent _ [mid])|apply interleave_nil_r].
Qed.

(** X14.  [bulk_then_execute] for [0 < n <= 2 ^ 63] fixes no order among
    the agents: for every arrangement of [0 .. n-1] there is a run that
    invokes the agents in that order, and the future then resolves to the
    result of invoking [f] in that order. *)
Theorem continuation_any_order {R Sh : Type}
    (f : N -> R * Sh -> R * Sh) (result_factory : N -> R)
    (shared_factory : N -> Sh) (n : N) (order : list N) :
  0 < n -> n <= 2 ^ 63 -> order ≡ₚ indices n ->
  exists log,
    bulk_then_execute f result_factory shared_factory n
      (fold_left (fun rs i => f i rs) order (result_factory n, shared_factory n)).1
      log /\
    agents_of log = order.
Proof.
  intros Hn Hbound Hperm.
  destruct (fork_join_returns (N.to_nat n) n Hn Hbound) as [t Ht]; [lia|].
  pose proof (fork_join_sound _ _ _ Hn Hbound Ht) as Hsplit.
  pose proof (midpoint_split_agents _ _ _ Hsplit) as Hagents.
  fold (indices n) in Hagents. rewrite <- Hagents in Hperm.
  pose proof (runs_any_order t order Hperm) as Hrun.
  assert (Hlog : agents_of ((Agent <$> order) ++ joins t) = order)
    by (now rewrite agents_of_app, agents_of_fmap_Agent, agents_of_joins, app_nil_r).
  exists (ResultFactory n :: SharedFactory n :: (Agent <$> order) ++ joins t).
  split; [|exact Hlog].
  pose proof (then_tasks f result_factory shared_factory n _ t _ Hn Ht Hrun) as Hthen.
  unfold after_calls in Hthen. now rewrite Hlog in Hthen.
Qed.

(** X14 on three agents and the order [2, 0, 1]. *)
Lemma continuation_any_order_witness :
  exists log,
    bulk_then_execute push_index no_result no_shared 3
      (fold_left (fun rs i => push_index i rs) [2; 0; 1] (no_result 3, no_shared 3)).1
      log /\
    agents_of log = [2; 0; 1].
Proof.
  apply (continuation_any_order push_index no_result no_shared 3 [2; 0; 1]).
  - reflexivity.
  - now vm_compute.
  - change (indices 3) with [0; 1; 2]. apply (Permutation_cons_append [0; 1] 2).
Defined.

(** *** Where the recursion ends *)

(** Above [2 ^ 63] the lambda of [async(f, first, n)] always calls
    [async(f, first', n)] for its right side: where [last + first] does
    not wrap the midpoint is at most [n - 2], and where it wraps the
    midpoint lies below the range. *)
Lemma async_body_right_again (n first : N) :
  2 ^ 63 < n -> n < 2 ^ 64 -> first < n ->
  exists mid,
    add64 n first / 2 = mid /\ add64 mid 1 = mid + 1 /\ mid + 1 < n /\
    (async_body first n).2 = Some (mid + 1, n).
Proof.
  intros Hlow Hhigh Hlt.
  assert (H64 : 2 ^ 64 = 2 * 2 ^ 63) by (vm_compute; reflexivity).
  assert (Hright : exists mid,
            add64 n first / 2 = mid /\ add64 mid 1 = mid + 1 /\ mid + 1 < n).
  { destruct (N.lt_ge_cases (n + first) (2 ^ 64)) as [Hfits|Hwraps].
    - rewrite (add64_small n first) by exact Hfits.
      exists ((n + first) / 2).
      assert (Hmid : 2 * ((n + first) / 2) <= n + first < 2 * ((n + first) / 2) + 2).
      { pose proof (N.Div0.div_mod (n + first) 2) as Hdm.
        pose proof (N.mod_lt (n + first) 2 ltac:(discriminate)) as Hrem.
        generalize dependent ((n + first) / 2).
        generalize dependent ((n + first) mod 2). intros; lia. }
      split; [reflexivity|]. split; [apply add64_small|]; lia.
    - assert (Hsum : add64 n first = n + first - 2 ^ 64).
      { unfold add64, wrap64.
        transitivity ((n + first - 2 ^ 64 + 1 * 2 ^ 64) mod 2 ^ 64); [f_equal; lia|].
        rewrite N.Div0.mod_add. apply N.mod_small. lia. }
      rewrite Hsum. exists ((n + first - 2 ^ 64) / 2).
      assert (Hmid : (n + first - 2 ^ 64) / 2 < first)
        by (apply N.Div0.div_lt_upper_bound; lia).
      split; [reflexivity|]. split; [apply add64_small|]; lia. }
  destruct Hright as (mid & Hmid & Hnext & Hr).
  exists mid. split; [exact Hmid|]. split; [exact Hnext|]. split; [exact Hr|].
  unfold async_body. cbn [snd]. rewrite Hmid, Hnext.
  now destruct (N.ltb_spec (mid + 1) n) as [_|]; [|lia].
Qed.

(** So no such task returns. *)
Lemma async_never_returns (n : N) (fuel : nat) : forall first,
  2 ^ 63 < n -> n < 2 ^ 64 -> first < n ->
  async fuel first n = None.
Proof.
  induction fuel as [|fuel IH]; intros first Hlow Hhigh Hlt; [reflexivity|].
  destruct (async_body_right_again n first Hlow Hhigh Hlt)
    as (mid & Hmid & Hnext & Hr & _).
  cbn [async]. unfold async_body. rewrite Hmid, Hnext.
  destruct (N.ltb_spec (mid + 1) n) as [_|]; [|lia].
  rewrite (IH (mid + 1) Hlow Hhigh Hr).
  now destruct (first <? mid); [destruct (async fuel first mid)|].
Qed.

(** The lambda of [bulk_then_execute_impl] starts the first of them. *)
Lemma then_body_right (n : N) :
  2 ^ 63 < n -> n < 2 ^ 64 ->
  n / 2 + 1 < n /\ (then_body n).2 = Some (n / 2 + 1, n).
Proof.
  intros Hlow Hhigh.
  assert (H63 : 2 ^ 63 = 9223372036854775808) by (vm_compute; reflexivity).
  assert (H64 : 2 ^ 64 = 2 * 2 ^ 63) by (vm_compute; reflexivity).
  assert (Hmid : 2 * (n / 2) <= n < 2 * (n / 2) + 2).
  { pose proof (N.Div0.div_mod n 2) as Hdm.
    pose proof (N.mod_lt n 2 ltac:(discriminate)) as Hrem.
    generalize dependent (n / 2). generalize dependent (n mod 2). intros; lia. }
  split; [lia|]. unfold then_body. cbn [snd].
  rewrite (add64_small (n / 2) 1) by lia.
  now destruct (N.ltb_spec (n / 2 + 1) n) as [_|]; [|lia].
Qed.

(** At no moment has a task whose range ends at [n] returned. *)
Lemma task_log_never_returned (n : N) (range : option (N * N)) tr returned :
  2 ^ 63 < n -> n < 2 ^ 64 ->
  task_log range tr returned ->
  forall first, range = Some (first, n) -> first < n -> returned = false.
Proof.
  intros Hlow Hhigh.
  induction 1 as [|a b|a b tl trr lr rr children own body _ _ _ _ _ _ _
                  |a b tl trr children body _ _ _ IHr _ _];
    intros first Hrange Hlt; [discriminate|reflexivity|reflexivity|].
  injection Hrange as -> ->.
  destruct (async_body_right_again n first Hlow Hhigh Hlt) as (mid & _ & _ & Hr & Hbody).
  exact (IHr _ Hbody Hr).
Qed.

(** X15.  The recursion of the fork-join of [bulk_then_execute] ends
    exactly for [n <= 2 ^ 63]: for such [n > 0] the call returns its tree
    of tasks.  For every larger [n] (below [2 ^ 64]) the lambda of
    [bulk_then_execute_impl] calls [async(g, n / 2 + 1, n)], and the lambda
    of every [async(f, first, n)] with [first < n] calls
    [async(f, first', n)] with some [first' < n] again; so there is no
    finite tree of tasks, and as long as every call of [std::async] starts
    its task there is no moment at which the future is ready. *)
Theorem fork_join_returns_iff (n : N) :
  0 < n -> n < 2 ^ 64 ->
  ((exists fuel t, fork_join fuel n = Some t) <-> n <= 2 ^ 63) /\
  (2 ^ 63 < n ->
   (n / 2 + 1 < n /\ (then_body n).2 = Some (n / 2 + 1, n)) /\
   (forall first, first < n ->
      exists first', first' < n /\ (async_body first n).2 = Some (first', n)) /\
   forall log, ~ bulk_then_execute_log n log true).
Proof.
  intros Hn Hhigh. split; [split|].
  - intros (fuel & t & Ht).
    destruct (N.le_gt_cases n (2 ^ 63)) as [|Hlow]; [assumption|]. exfalso.
    destruct (then_body_right n Hlow Hhigh) as [Hr Hbody].
    revert Ht. unfold fork_join.
    destruct (then_body n) as [[l mid] r]. cbn [snd] in Hbody. subst r.
    rewrite (async_never_returns n fuel (n / 2 + 1) Hlow Hhigh Hr).
    now destruct l as [[a b]|]; [destruct (async fuel a b)|].
  - intros Hbound. exists (N.to_nat n). now apply fork_join_returns.
  - intros Hlow. split; [exact (then_body_right n Hlow Hhigh)|]. split.
    + intros first Hlt.
      destruct (async_body_right_again n first Hlow Hhigh Hlt) as (mid & _ & _ & Hr & Hbody).
      now exists (mid + 1).
    + intros log Hlog.
      inversion Hlog as [| |tr ready _ Hthen|Hz]; subst; [|lia].
      inversion Hthen as [|tl trr children body _ Hright _ _]; subst.
      destruct (then_body_right n Hlow Hhigh) as [Hr Hbody].
      discriminate (task_log_never_returned n _ _ _ Hlow Hhigh Hright _ Hbody Hr).
Qed.

(** X15 on [SIZE_MAX] agents. *)
Lemma fork_join_returns_iff_witness :
  let n := 2 ^ 64 - 1 in
  ((exists fuel t, fork_join fuel n = Some t) <-> n <= 2 ^ 63) /\
  (2 ^ 63 < n ->
   (n / 2 + 1 < n /\ (then_body n).2 = Some (n / 2 + 1, n)) /\
   (forall first, first < n ->
      exists first', first' < n /\ (async_body first n).2 = Some (first', n)) /\
   forall log, ~ bulk_then_execute_log n log true).
Proof.
  apply (fork_join_returns_iff (2 ^ 64 - 1)); now vm_compute.
Defined.

(** ** The grid executor: blocks that cannot get stuck *)

Section BlockProgress.

Context {T2 : Type}.

Implicit Types ts : list (list (instr T2)).

Variables (init : T2) (o : bool) (b : N).

Lemma concat_insert_lt ts : forall t i rest,
  ts !! t = Some (i :: rest) ->
  (length (concat (<[t := rest]> ts)) < length (concat ts))%nat.
Proof.
  induction ts as [|p ts IH]; intros [|t] i rest Hlook; try discriminate.
  - injection Hlook as ->. cbn. rewrite !length_app. cbn. lia.
  - change (<[S t := rest]> (p :: ts)) with (p :: <[t := rest]> ts).
    cbn [concat]. rewrite !length_app. pose proof (IH t i rest Hlook). lia.
Qed.

Lemma concat_tail_length ts :
  Forall (fun p => at_barrier p = true) ts ->
  (length (concat (tail <$> ts)) + length ts = length (concat ts))%nat.
Proof.
  induction 1 as [|p ts Hp _ IH]; [reflexivity|].
  destruct p as [|i p]; [discriminate|]. cbn. rewrite !length_app. lia.
Qed.

Lemma runnable (p : list (instr T2)) :
  p <> [] -> at_barrier p = false -> exists i rest, p = i :: rest /\ is_sync i = false.
Proof.
  destruct p as [|i rest]; [congruence|]. intros _ Hbar. exists i, rest.
  split; [reflexivity|]. now destruct i.
Qed.

Lemma insert_keeps (P : nat -> list (instr T2) -> Prop) ts t rest :
  (t < length ts)%nat ->
  (forall t' p, ts !! t' = Some p -> P t' p) -> P t rest ->
  forall t' p, <[t := rest]> ts !! t' = Some p -> P t' p.
Proof.
  intros Hlt Hall Ht t' p. destruct (decide (t' = t)) as [->|Hne'].
  - rewrite list_lookup_insert_eq by assumption. now intros [= <-].
  - rewrite list_lookup_insert_ne by congruence. apply Hall.
Qed.

(** Every move of the scheduler keeps a marshaling block in one of its
    three stretches. *)
Lemma step_keeps_marshaling c ts ts' e :
  marshaling init o b ts -> ts <> [] ->
  step c ts = Some (ts', e) ->
  marshaling init o b ts' /\ ts' <> [].
Proof.
  intros Hphase Hne Hstep. destruct c as [t|].
  - apply step_thread_inv in Hstep as (i & rest & Hlook & Hsync & -> & ->).
    assert (Hlt : (t < length ts)%nat) by now apply lookup_lt_Some in Hlook.
    split; [|now apply insert_nonempty].
    destruct Hphase as [Hphase|[Hphase|Hphase]].
    + left. unfold before_first_barrier.
      apply insert_keeps; [exact Hlt|exact Hphase|cbv beta].
      destruct (Hphase _ _ Hlook) as [Hp|Hp]; [|injection Hp as -> _; discriminate].
      destruct t as [|t]; unfold marshal in Hp.
      * rewrite construct_step_0 in Hp. injection Hp as _ ->. now right.
      * rewrite construct_step_S in Hp. injection Hp as -> _. discriminate.
    + right. left. unfold between_barriers.
      apply insert_keeps; [exact Hlt|exact Hphase|cbv beta].
      destruct (Hphase _ _ Hlook) as [Hp|Hp]; [|injection Hp as -> _; discriminate].
      injection Hp as _ ->. now right.
    + right. right. unfold after_second_barrier.
      apply insert_keeps; [exact Hlt|exact Hphase|cbv beta].
      destruct (Hphase _ _ Hlook) as [Hp|Hp]; [|discriminate].
      destruct t as [|t].
      * rewrite destroy_step_0 in Hp. injection Hp as _ ->. now right.
      * rewrite destroy_step_S in Hp. discriminate.
  - apply step_release_inv in Hstep as (Hall & _ & -> & ->).
    split; [|now destruct ts].
    destruct Hphase as [Hphase|[Hphase|Hphase]].
    + right. left. intros t p. rewrite list_lookup_fmap.
      destruct (ts !! t) as [q|] eqn:Hq; [|discriminate]. intros [= <-].
      pose proof (Forall_lookup_1 _ _ _ _ Hall Hq) as Hat.
      destruct (Hphase _ _ Hq) as [->| ->]; [|now left].
      destruct t as [|t]; unfold marshal in *.
      * rewrite construct_step_0 in Hat. discriminate.
      * rewrite construct_step_S. now left.
    + right. right. intros t p. rewrite list_lookup_fmap.
      destruct (ts !! t) as [q|] eqn:Hq; [|discriminate]. intros [= <-].
      pose proof (Forall_lookup_1 _ _ _ _ Hall Hq) as Hat.
      destruct (Hphase _ _ Hq) as [->| ->]; [discriminate|now left].
    + destruct (lookup_0_nonempty ts Hne) as [p Hp].
      pose proof (Forall_lookup_1 _ _ _ _ Hall Hp) as Hbar.
      destruct (Hphase _ _ Hp) as [->| ->]; discriminate.
Qed.

Lemma run_keeps_marshaling sched : forall ts ts' tr,
  marshaling init o b ts -> ts <> [] ->
  run sched ts = Some (ts', tr) ->
  marshaling init o b ts' /\ ts' <> [].
Proof.
  induction sched as [|c sched IH]; intros ts ts' tr Hphase Hne Hrun.
  - injection Hrun as <- <-. now split.
  - apply run_cons_inv in Hrun as (ts1 & e & tr1 & Hstep & Hrun & ->).
    destruct (step_keeps_marshaling _ _ _ _ Hphase Hne Hstep) as [Hphase1 Hne1].
    exact (IH _ _ _ Hphase1 Hne1 Hrun).
Qed.

(** A marshaling block that is not finished can move: a thread can take
    a step, or all threads wait at a barrier, which then releases. *)
Lemma marshaling_can_step ts :
  marshaling init o b ts -> ts <> [] -> finished ts = false ->
  exists c ts' e,
    step c ts = Some (ts', e) /\
    (length (concat ts') < length (concat ts))%nat.
Proof.
  intros Hphase Hne Hfin.
  assert (Hthread : forall t p, ts !! t = Some p -> p <> [] -> at_barrier p = false ->
            exists c ts' e, step c ts = Some (ts', e) /\
              (length (concat ts') < length (concat ts))%nat).
  { intros t p Hlook Hp Hbar.
    destruct (runnable p Hp Hbar) as (i & rest & -> & Hsync).
    exists (RunThread t), (<[t := rest]> ts), (Did t i). split.
    - cbn [step]. now rewrite Hlook, Hsync.
    - now apply (concat_insert_lt ts t i rest). }
  assert (Hunfinished : exists t p, ts !! t = Some p /\ p <> []).
  { unfold finished in Hfin.
    assert (Hex : Exists (fun p => is_done p <> true) ts).
    { apply not_Forall_Exists; [intros p; apply _|]. intros Hall.
      rewrite Forall_forall in Hall.
      assert (forallb is_done ts = true); [|congruence].
      apply forallb_forall. intros p Hp. apply Hall. now apply list_elem_of_In. }
    apply Exists_exists in Hex as (p & Hp & Hdone).
    apply list_elem_of_lookup_1 in Hp as [t Ht]. exists t, p.
    split; [exact Ht|]. intros ->. now apply Hdone. }
  destruct (forallb at_barrier ts) eqn:Hall.
  - exists ReleaseBarrier, (tail <$> ts), Released. split.
    + cbn [step]. rewrite Hall. now destruct ts.
    + assert (HForall : Forall (fun p => at_barrier p = true) ts).
      { apply Forall_forall. intros p Hp. rewrite forallb_forall in Hall.
        now apply Hall, list_elem_of_In. }
      pose proof (concat_tail_length ts HForall). destruct ts; [congruence|cbn in *; lia].
  - assert (Hex : exists t p, ts !! t = Some p /\ at_barrier p = false).
    { assert (Hex : Exists (fun p => at_barrier p <> true) ts).
      { apply not_Forall_Exists; [intros p; apply _|]. intros HForall.
        rewrite Forall_forall in HForall.
        assert (forallb at_barrier ts = true); [|congruence].
        apply forallb_forall. intros p Hp. apply HForall. now apply list_elem_of_In. }
      apply Exists_exists in Hex as (p & Hp & Hbar).
      apply list_elem_of_lookup_1 in Hp as [t Ht]. exists t, p.
      split; [exact Ht|]. now destruct (at_barrier p). }
    destruct Hphase as [Hphase|[Hphase|Hphase]].
    + destruct Hex as (t & p & Hlook & Hbar). apply (Hthread t p Hlook); [|exact Hbar].
      destruct (Hphase _ _ Hlook) as [->| ->]; [|discriminate].
      unfold marshal. now destruct (construct_step init (b, N.of_nat t)).
    + destruct Hex as (t & p & Hlook & Hbar). apply (Hthread t p Hlook); [|exact Hbar].
      destruct (Hphase _ _ Hlook) as [->| ->]; discriminate.
    + destruct Hunfinished as (t & p & Hlook & Hp). apply (Hthread t p Hlook Hp).
      destruct (Hphase _ _ Hlook) as [->| ->]; [|congruence].
      unfold destroy_step in *. now destruct (_ =? _).
Qed.

(** From every state of a marshaling block some schedule runs all its
    threads to the end. *)
Lemma marshaling_completes (k : nat) : forall ts,
  (length (concat ts) <= k)%nat ->
  marshaling init o b ts -> ts <> [] ->
  exists sched ts' tr, run sched ts = Some (ts', tr) /\ finished ts' = true.
Proof.
  induction k as [|k IH]; intros ts Hk Hphase Hne;
    (destruct (finished ts) eqn:Hfin; [now exists [], ts, []|]);
    destruct (marshaling_can_step ts Hphase Hne Hfin) as (c & ts1 & e & Hstep & Hless);
    [lia|].
  destruct (step_keeps_marshaling _ _ _ _ Hphase Hne Hstep) as [Hphase1 Hne1].
  destruct (IH ts1 ltac:(lia) Hphase1 Hne1) as (sched & ts' & tr & Hrun & Hdone).
  exists (c :: sched), ts', (e :: tr). split; [|exact Hdone].
  cbn [run]. now rewrite Hstep, Hrun.
Qed.

End BlockProgress.

Lemma block_before_first_barrier {T2 : Type} (init : T2) (o : bool) (b : N) (m : nat) :
  before_first_barrier init o b ((fun t => marshal init o (b, N.of_nat t)) <$> seq 0 m).
Proof.
  intros t p. rewrite list_lookup_fmap.
  destruct (seq 0 m !! t) as [t'|] eqn:Ht; [|discriminate].
  apply lookup_seq in Ht as [-> _]. intros [= <-]. now left.
Qed.

(** Every run of a marshaling block, however far it got, can be continued
    to the end. *)
Lemma marshaling_run_extends {T1 T2 : Type}
    (g : functor T1 T2) (init : T2) (o : bool) (b : N) (m : nat) :
  marshals_inner g = Some (init, o) -> (1 <= m)%nat ->
  forall sched ts tr,
    run sched (block g b m) = Some (ts, tr) ->
    exists sched' ts' tr',
      run (sched ++ sched') (block g b m) = Some (ts', tr ++ tr') /\
      finished ts' = true.
Proof.
  intros Hg Hm sched ts tr Hrun. rewrite (block_marshal init o b g m Hg) in *.
  assert (Hne : (fun t => marshal init o (b, N.of_nat t)) <$> seq 0 m <> [])
    by (destruct m; [lia|discriminate]).
  destruct (run_keeps_marshaling init o b sched _ _ _
              (or_introl (block_before_first_barrier init o b m)) Hne Hrun)
    as [Hphase Hne'].
  destruct (marshaling_completes init o b _ ts (le_n _) Hphase Hne')
    as (sched' & ts' & tr' & Hrun' & Hfin).
  exists sched', ts', tr'. split; [|exact Hfin].
  exact (run_app _ _ _ _ _ _ _ Hrun Hrun').
Qed.

(** X16.  A block of [m >= 1] agents that runs one of the two function
    objects marshaling an inner shared parameter cannot get stuck: after
    any run, as long as some agent has steps left, an agent can take a step
    or the barrier can release; and the run can be continued until every
    agent has returned.  No agent waits at [__syncthreads()] for an agent
    that will not arrive. *)
Theorem marshaling_never_deadlocks {T1 T2 : Type}
    (g : functor T1 T2) (init : T2) (o : bool) (b : N) (m : nat) :
  marshals_inner g = Some (init, o) -> (1 <= m)%nat ->
  forall sched ts tr,
    run sched (block g b m) = Some (ts, tr) ->
    (finished ts = false -> exists c ts' e, step c ts = Some (ts', e)) /\
    exists sched' ts' tr',
      run (sched ++ sched') (block g b m) = Some (ts', tr ++ tr') /\
      finished ts' = true.
Proof.
  intros Hg Hm sched ts tr Hrun.
  split; [|exact (marshaling_run_extends g init o b m Hg Hm sched ts tr Hrun)].
  intros Hfin. rewrite (block_marshal init o b g m Hg) in Hrun.
  assert (Hne : (fun t => marshal init o (b, N.of_nat t)) <$> seq 0 m <> [])
    by (destruct m; [lia|discriminate]).
  destruct (run_keeps_marshaling init o b sched _ _ _
              (or_introl (block_before_first_barrier init o b m)) Hne Hrun)
    as [Hphase Hne'].
  destruct (marshaling_can_step init o b ts Hphase Hne' Hfin) as (c & ts' & e & Hstep & _).
  now exists c, ts', e.
Qed.

(** X16 on a block of two agents after the construction and the first
    release of the barrier. *)
Lemma marshaling_never_deadlocks_witness :
  (finished [[Invoke (0, 0) (Some (false, true)); Syncthreads; DestroyInner];
             [Invoke (T2 := unit) (0, 1) (Some (false, true)); Syncthreads]] = false ->
   exists c ts' e,
     step c [[Invoke (0, 0) (Some (false, true)); Syncthreads; DestroyInner];
             [Invoke (T2 := unit) (0, 1) (Some (false, true)); Syncthreads]]
       = Some (ts', e)) /\
  exists sched' ts' tr',
    run ([RunThread 0; ReleaseBarrier] ++ sched') (block (with_inner (T1 := unit) tt) 0 2)
      = Some (ts', [Did 0 (ConstructInner tt); Released] ++ tr') /\
    finished ts' = true.
Proof.
  apply (fun Hg Hm => marshaling_never_deadlocks (with_inner (T1 := unit) tt) tt false 0 2
                        Hg Hm [RunThread 0; ReleaseBarrier]);
    [reflexivity|lia|reflexivity].
Defined.

Lemma app_split_middle {A : Type} (x : A) (tl : list A) : forall l pre rest,
  l ++ tl = pre ++ x :: rest -> x ∉ tl -> exists l2, l = pre ++ x :: l2.
Proof.
  induction l as [|y l IH]; intros pre rest Heq Hx.
  - exfalso. apply Hx. cbn in Heq. rewrite Heq, elem_of_app, elem_of_cons. auto.
  - destruct pre as [|z pre]; cbn in Heq; injection Heq as -> Heq.
    + now exists l.
    + destruct (IH pre rest Heq Hx) as [l2 ->]. now exists l2.
Qed.

(** X17.  In every run of such a block, finished or not, whatever comes
    before an invocation of [f_] is the construction of the inner shared
    object by the agent with inner index [0], one release of the barrier,
    and invocations of [f_] by other agents: the object has been
    constructed and has not been destroyed when it is used.  The
    invocation is that of an agent of the block, with its own index and a
    reference to the inner shared object. *)
Theorem shared_object_live_at_every_use {T1 T2 : Type}
    (g : functor T1 T2) (init : T2) (o : bool) (b : N) (m : nat) :
  marshals_inner g = Some (init, o) -> (1 <= m)%nat ->
  forall sched ts tr,
    run sched (block g b m) = Some (ts, tr) ->
    forall pre t idx shared_params post,
      tr = pre ++ Did t (Invoke idx shared_params) :: post ->
      idx = (b, N.of_nat t) /\ shared_params = Some (o, true) /\ (t < m)%nat /\
      exists uses,
        pre = [Did 0 (ConstructInner init); Released] ++ uses /\
        forall e, e ∈ uses ->
          exists t', e = Did t' (Invoke (b, N.of_nat t') (Some (o, true))) /\ t' <> t.
Proof.
  intros Hg Hm sched ts tr Hrun pre t idx sp post ->.
  destruct (marshaling_run_extends g init o b m Hg Hm _ _ _ Hrun)
    as (sched' & ts' & tr' & Hrun' & Hfin).
  rewrite (block_marshal init o b g m Hg) in Hrun'.
  assert (Hne : (fun t => marshal init o (b, N.of_nat t)) <$> seq 0 m <> [])
    by (destruct m; [lia|discriminate]).
  destruct (run_before_first_barrier init o b _ _ _ _
              (block_before_first_barrier init o b m) Hne Hrun' Hfin)
    as (uses & Hshape & Hnodup & Hmem).
  rewrite length_fmap, length_seq in Hmem.
  destruct Hshape as [[_ Heq]|[Hcontra _]].
  2:{ rewrite list_lookup_fmap, lookup_seq_lt in Hcontra by lia.
      cbn in Hcontra. discriminate. }
  rewrite <- app_assoc in Heq. cbn [app] in Heq.
  destruct pre as [|e1 [|e2 pre]]; cbn [app] in Heq; try discriminate.
  injection Heq as -> -> Heq.
  symmetry in Heq.
  apply app_split_middle in Heq as [uses2 ->].
  2:{ rewrite !elem_of_cons. intros [[=]|[[=]|Hnil]]. now apply elem_of_nil in Hnil. }
  assert (Huse : Did t (Invoke idx sp) ∈ pre ++ Did t (Invoke idx sp) :: uses2)
    by (rewrite elem_of_app, elem_of_cons; auto).
  apply Hmem in Huse as (t0 & [= <- -> ->] & Ht).
  repeat split; [exact Ht|]. exists pre. split; [reflexivity|].
  intros e He.
  assert (He' : e ∈ pre ++ Did t (use o b t) :: uses2)
    by (rewrite elem_of_app; auto).
  apply Hmem in He' as (t' & -> & _). exists t'. split; [reflexivity|].
  intros ->. apply NoDup_app in Hnodup as (_ & Hdisj & _).
  apply (Hdisj _ He). now left.
Qed.

(** X17 on a block of two agents, at the invocation of [f_] by the agent
    with inner index [1]. *)
Lemma shared_object_live_at_every_use_witness :
  (0, 1) = (0, N.of_nat 1) /\ Some (true, true) = Some (true, true) /\ (1 < 2)%nat /\
  exists uses,
    [Did 0 (ConstructInner tt); Released]
      = [Did 0 (ConstructInner tt); Released] ++ uses /\
    forall e, e ∈ uses ->
      exists t', e = Did t' (Invoke (T2 := unit) (0, N.of_nat t') (Some (true, true))) /\
                 t' <> 1%nat.
Proof.
  apply (fun Hg Hm Hrun =>
           shared_object_live_at_every_use (with_both tt tt) tt true 0 2 Hg Hm
             [RunThread 0; ReleaseBarrier; RunThread 1]
             [[Invoke (0, 0) (Some (true, true)); Syncthreads; DestroyInner];
              [Syncthreads]]
             [Did 0 (ConstructInner tt); Released;
              Did 1 (Invoke (0, 1) (Some (true, true)))]
             Hrun
             [Did 0 (ConstructInner tt); Released] 1%nat (0, 1) (Some (true, true)) []);
    [reflexivity|lia|reflexivity|reflexivity].
Defined.

(** ** The grid executor: shared arguments without an inner one *)

Section SingleStep.

Context {T2 : Type}.

Implicit Types ts : list (list (instr T2)).

Variable b : N.

(** The one step of the agent [t] of block [b] under the function object
    that marshals an outer shared parameter only. *)
Local Abbreviation invocation t :=
  (Invoke (T2 := T2) (b, N.of_nat t) (Some (true, false))).

Lemma step_length c ts ts' e : step c ts = Some (ts', e) -> length ts' = length ts.
Proof.
  destruct c as [t|]; intros Hstep.
  - apply step_thread_inv in Hstep as (i & rest & _ & _ & -> & _).
    apply length_insert.
  - apply step_release_inv in Hstep as (_ & _ & -> & _). apply length_fmap.
Qed.

Lemma run_length sched : forall ts ts' tr,
  run sched ts = Some (ts', tr) -> length ts' = length ts.
Proof.
  induction sched as [|c sched IH]; intros ts ts' tr Hrun.
  - now injection Hrun as <- _.
  - apply run_cons_inv in Hrun as (ts1 & e & tr1 & Hstep & Hrun & _).
    rewrite (IH _ _ _ Hrun). exact (step_length _ _ _ _ Hstep).
Qed.

Lemma run_single_steps sched : forall ts ts' tr,
  (forall t p, ts !! t = Some p -> p = [invocation t] \/ p = []) ->
  run sched ts = Some (ts', tr) ->
  (forall t, ts !! t = Some [] -> ts' !! t = Some []) /\
  NoDup tr /\
  forall e, e ∈ tr <->
    exists t, e = Did t (invocation t) /\
      ts !! t = Some [invocation t] /\ ts' !! t = Some [].
Proof.
  induction sched as [|c sched IH]; intros ts ts' tr Hts Hrun.
  - injection Hrun as <- <-. split; [auto|]. split; [constructor|].
    intros e. split; [intros He; now apply elem_of_nil in He|].
    intros (t & _ & H1 & H2). congruence.
  - apply run_cons_inv in Hrun as (ts1 & e1 & tr1 & Hstep & Hrun & ->).
    destruct c as [t|].
    + apply step_thread_inv in Hstep as (i & rest & Hlook & _ & -> & ->).
      destruct (Hts _ _ Hlook) as [Hp|Hp]; [|discriminate]. injection Hp as -> ->.
      assert (Hlt : (t < length ts)%nat) by now apply lookup_lt_Some in Hlook.
      assert (Hlook1 : <[t := []]> ts !! t = Some [])
        by now apply list_lookup_insert_eq.
      destruct (IH (<[t := []]> ts) ts' tr1) as (Hdone & Hnodup & Hmem);
        [|exact Hrun|].
      { intros t' p. destruct (decide (t' = t)) as [->|Hne].
        - rewrite Hlook1. intros [= <-]. now right.
        - rewrite list_lookup_insert_ne by congruence. apply Hts. }
      split; [|split].
      * intros t' Ht'. apply Hdone. destruct (decide (t' = t)) as [->|Hne].
        -- exact Hlook1.
        -- now rewrite list_lookup_insert_ne by congruence.
      * constructor; [|exact Hnodup]. intros Hin.
        apply Hmem in Hin as (t' & [= <-] & Hpending & _). congruence.
      * intros e. rewrite elem_of_cons, Hmem. split.
        -- intros [->|(t' & -> & Hpending & Hend)].
           ++ exists t. repeat split; [exact Hlook|now apply Hdone].
           ++ exists t'. repeat split; [|exact Hend].
              destruct (decide (t' = t)) as [->|Hne]; [congruence|].
              now rewrite list_lookup_insert_ne in Hpending by congruence.
        -- intros (t' & -> & Hpending & Hend).
           destruct (decide (t' = t)) as [->|Hne]; [now left|]. right.
           exists t'. repeat split; [|exact Hend].
           now rewrite list_lookup_insert_ne by congruence.
    + apply step_release_inv in Hstep as (Hall & Hne & _).
      destruct (lookup_0_nonempty ts Hne) as [p Hp].
      pose proof (Forall_lookup_1 _ _ _ _ Hall Hp) as Hbar.
      destruct (Hts _ _ Hp) as [->| ->]; discriminate.
Qed.

Lemma run_threads_any_order (order : list nat) : forall ts,
  NoDup order ->
  (forall t, t ∈ order -> ts !! t = Some [invocation t]) ->
  exists ts',
    run (RunThread <$> order) ts
      = Some (ts', (fun t => Did t (invocation t)) <$> order) /\
    length ts' = length ts /\
    (forall t, t ∈ order -> ts' !! t = Some []) /\
    (forall t, t ∉ order -> ts' !! t = ts !! t).
Proof.
  induction order as [|t order IH]; intros ts Hnodup Hpending.
  - exists ts. repeat split. intros t Ht. now apply elem_of_nil in Ht.
  - apply NoDup_cons in Hnodup as [Hfresh Hnodup].
    assert (Hlook : ts !! t = Some [invocation t]) by (apply Hpending; now left).
    assert (Hlt : (t < length ts)%nat) by now apply lookup_lt_Some in Hlook.
    destruct (IH (<[t := []]> ts) Hnodup) as (ts' & Hrun & Hlen & Hdone & Hkept).
    { intros t' Ht'. rewrite list_lookup_insert_ne by (intros ->; contradiction).
      apply Hpending. now right. }
    exists ts'. split; [|split; [|split]].
    + cbn [fmap list_fmap run step]. rewrite Hlook. cbn [is_sync].
      change (list_fmap nat choice RunThread order) with (RunThread <$> order).
      rewrite Hrun. reflexivity.
    + now rewrite Hlen, length_insert.
    + intros t' [->|Ht']%elem_of_cons; [|now apply Hdone].
      rewrite (Hkept _ Hfresh). now apply list_lookup_insert_eq.
    + intros t' Ht'. apply not_elem_of_cons in Ht' as [Hne Hout].
      rewrite (Hkept _ Hout). now rewrite list_lookup_insert_ne by congruence.
Qed.

End SingleStep.

(** X18.  The function object that marshals an outer shared parameter
    only, in a block of [m] agents: every agent takes one step, the
    invocation of [f_] with its own index, a reference to the outer object
    and an [ignore_t]; there is no barrier and no inner object, so the
    agents can run in any order, every run invokes [f_] at most once per
    agent, and a run that ends has invoked it once for each agent. *)
Theorem outer_only_marshaling {T1 T2 : Type} (outer_ptr : T1) (b : N) (m : nat) :
  let invocation t :=
    Did t (Invoke (T2 := T2) (b, N.of_nat t) (Some (true, false))) in
  (forall order, order ≡ₚ seq 0 m ->
     exists ts,
       run (RunThread <$> order) (block (with_outer outer_ptr) b m)
         = Some (ts, invocation <$> order) /\
       finished ts = true) /\
  forall sched ts tr,
    run sched (block (with_outer outer_ptr) b m) = Some (ts, tr) ->
    NoDup tr /\
    (forall e, e ∈ tr -> exists t, (t < m)%nat /\ e = invocation t) /\
    (finished ts = true -> tr ≡ₚ invocation <$> seq 0 m).
Proof.
  intros invocation.
  assert (Hblock : forall t,
            block (with_outer (T2 := T2) outer_ptr) b m !! t
            = if decide (t < m)%nat
              then Some [Invoke (b, N.of_nat t) (Some (true, false))] else None).
  { intros t. unfold block. rewrite list_lookup_fmap.
    destruct (decide (t < m)%nat) as [Hlt|Hge].
    - now rewrite lookup_seq_lt.
    - now rewrite lookup_seq_ge by lia. }
  assert (Hstart : forall t p,
            block (with_outer (T2 := T2) outer_ptr) b m !! t = Some p ->
            p = [Invoke (b, N.of_nat t) (Some (true, false))] \/ p = []).
  { intros t p. rewrite Hblock. destruct (decide (t < m)%nat); [|discriminate].
    intros [= <-]. now left. }
  split.
  - intros order Horder.
    destruct (run_threads_any_order b order
                (block (with_outer (T2 := T2) outer_ptr) b m))
      as (ts & Hrun & Hlen & Hdone & _).
    + rewrite Horder. apply NoDup_seq.
    + intros t Ht. rewrite Horder in Ht. apply elem_of_seq in Ht.
      rewrite Hblock. now destruct (decide (t < m)%nat); [|lia].
    + exists ts. split; [exact Hrun|]. unfold finished. apply forallb_forall.
      intros p Hp. apply list_elem_of_In, list_elem_of_lookup_1 in Hp as [t Ht].
      assert (Hlt : (t < m)%nat).
      { apply lookup_lt_Some in Ht. unfold block in Hlen.
        now rewrite Hlen, length_fmap, length_seq in Ht. }
      rewrite Hdone in Ht by (rewrite Horder; apply elem_of_seq; lia).
      now injection Ht as <-.
  - intros sched ts tr Hrun.
    destruct (run_single_steps b sched _ _ _ Hstart Hrun) as (_ & Hnodup & Hmem).
    assert (Hevents : forall e, e ∈ tr -> exists t, (t < m)%nat /\ e = invocation t).
    { intros e (t & -> & Hpending & _)%Hmem. exists t. split; [|reflexivity].
      rewrite Hblock in Hpending. now destruct (decide (t < m)%nat). }
    split; [exact Hnodup|]. split; [exact Hevents|].
    intros Hfin. apply NoDup_Permutation; [exact Hnodup| |].
    + apply NoDup_fmap_2_strong; [|apply NoDup_seq].
      intros t t' _ _ [= Heq]. exact Heq.
    + intros e. rewrite list_elem_of_fmap. split.
      * intros (t & Ht & ->)%Hevents. exists t. split; [reflexivity|].
        apply elem_of_seq. lia.
      * intros (t & -> & Ht). apply elem_of_seq in Ht. apply Hmem. exists t.
        split; [reflexivity|]. split.
        -- rewrite Hblock. now destruct (decide (t < m)%nat); [|lia].
        -- assert (Hlen : length ts = m).
           { rewrite (run_length _ _ _ _ Hrun). unfold block.
             now rewrite length_fmap, length_seq. }
           destruct (lookup_lt_is_Some_2 ts t) as [p Hp]; [lia|].
           now rewrite Hp, (finished_lookup _ _ _ Hfin Hp).
Qed.
